(** * Sky Cavalry Clash: the per-frame simulation of [FlyingHorseGame.tsx]

    A shallow embedding of the game loop of
    [src/app/components/FlyingHorseGame.tsx] and the properties of its
    physics step, orb lifecycle and frame driver.

    Numbers.  The program computes with JavaScript numbers.  They are
    modelled here as exact rationals ([Q]): [+], [-], [*] and [/] are the
    exact operations, [<] and [>] the exact order, and [===] on numbers is
    rational equality ([Qeq_bool]).  Rounding, NaN and signed zeros are
    outside this model.  [Math.hypot(dx, dy) < r] is modelled by the
    equivalent comparison of squares (for [0 <= r]).

    Oracles.  [Math.random()] is a stream [random : nat -> Q] read through
    a cursor kept in the state; [Math.sin(performance.now() / 800 + ...)]
    is an input of each tick ([wander]). *)

From Stdlib Require Import QArith Qminmax Qabs Lqa Lia Ascii String.
From stdpp Require Import list gmap strings.

Open Scope Q_scope.

(** ** Numbers *)

Definition Qltb (a b : Q) : bool := negb (Qle_bool b a).
Definition Qgtb (a b : Q) : bool := Qltb b a.

(** ** Data model (lines 5-37) *)

Module Vec.
Record Vector := mk { x : Q; y : Q }.
End Vec.
Abbreviation Vector := Vec.Vector.

Module Horseman.
Record t := mk {
  id : nat;
  name : string;
  color : string;
  trailColor : string;
  accent : string;
  position : Vector;
  velocity : Vector;
  targetTilt : Q;
  tilt : Q;
  score : nat
}.
End Horseman.
Abbreviation Horseman := Horseman.t.

Module Orb.
Record t := mk {
  id : nat;
  position : Vector;
  velocity : Vector;
  pulse : Q;
  pulseDir : Q
}.
End Orb.
Abbreviation Orb := Orb.t.

Module Cloud.
Record t := mk {
  id : nat;
  position : Vector;
  size : Q;
  speed : Q;
  opacity : Q
}.
End Cloud.
Abbreviation Cloud := Cloud.t.

Definition CANVAS_WIDTH : Q := 960.
Definition CANVAS_HEIGHT : Q := 560.
Definition HORSEMAN_ACCEL : Q := 0.24.
Definition HORSEMAN_FRICTION : Q := 0.985.
Definition HORSEMAN_MAX_SPEED : Q := 7.4.
Definition ORB_RESPAWN_TIME : Q := 12000.

(** ** Vector helpers (lines 46-58) *)

(** [Math.min(Math.max(value, min), max)] *)
Definition clamp (value min max : Q) : Q := Qmin (Qmax value min) max.

(** [distance(a, b)] is [Math.hypot(dx, dy)]; its square is what the
    rational model can compute. *)
Definition distanceSq (a b : Vector) : Q :=
  let dx := Vec.x a - Vec.x b in
  let dy := Vec.y a - Vec.y b in
  dx * dx + dy * dy.

(** [distance(a, b) < r] for a non-negative literal [r]. *)
Definition distanceLt (a b : Vector) (r : Q) : bool :=
  Qltb (distanceSq a b) (r * r).

(** [randomRange(min, max)] with [u] the value drawn by [Math.random()].
    In exact arithmetic a draw below 1 stays strictly below [max]; the
    program's rounded product can reach [max - min], so for some bounds
    (120 and 240, 0.05 and 0.14, 0.5 and 1) the program can return [max]
    itself.  Statements about those calls use the closed bound. *)
Definition randomRange (u min max : Q) : Q := u * (max - min) + min.

(** ** Input tracker (lines 69, 144-160) *)

(** [pressedKeys.current[k]] used as a condition: a missing entry is
    [undefined], which is falsy. *)
Definition held (pressedKeys : gmap string bool) (k : string) : bool :=
  default false (pressedKeys !! k).

Definition bit (b : bool) : Q := if b then 1 else 0.

(** A JavaScript number used as a condition: every non-zero number is
    truthy. *)
Definition truthy (n : Q) : bool := negb (Qeq_bool n 0).

(** ** Physics of the horsemen: [updateHorsemen] (lines 253-307) *)

Definition setVelocity (h : Horseman) (v : Vector) : Horseman :=
  Horseman.mk (Horseman.id h) (Horseman.name h) (Horseman.color h)
    (Horseman.trailColor h) (Horseman.accent h) (Horseman.position h) v
    (Horseman.targetTilt h) (Horseman.tilt h) (Horseman.score h).

Definition setPosition (h : Horseman) (p : Vector) : Horseman :=
  Horseman.mk (Horseman.id h) (Horseman.name h) (Horseman.color h)
    (Horseman.trailColor h) (Horseman.accent h) p (Horseman.velocity h)
    (Horseman.targetTilt h) (Horseman.tilt h) (Horseman.score h).

Definition setTargetTilt (h : Horseman) (t : Q) : Horseman :=
  Horseman.mk (Horseman.id h) (Horseman.name h) (Horseman.color h)
    (Horseman.trailColor h) (Horseman.accent h) (Horseman.position h)
    (Horseman.velocity h) t (Horseman.tilt h) (Horseman.score h).

Definition setTilt (h : Horseman) (t : Q) : Horseman :=
  Horseman.mk (Horseman.id h) (Horseman.name h) (Horseman.color h)
    (Horseman.trailColor h) (Horseman.accent h) (Horseman.position h)
    (Horseman.velocity h) (Horseman.targetTilt h) t (Horseman.score h).

Definition setScore (h : Horseman) (s : nat) : Horseman :=
  Horseman.mk (Horseman.id h) (Horseman.name h) (Horseman.color h)
    (Horseman.trailColor h) (Horseman.accent h) (Horseman.position h)
    (Horseman.velocity h) (Horseman.targetTilt h) (Horseman.tilt h) s.

(** Lines 257-259: the three readings of the held-key table. *)
Definition horizontalOf (pressedKeys : gmap string bool) : Q :=
  bit (held pressedKeys "arrowright") - bit (held pressedKeys "arrowleft").

Definition verticalOf (pressedKeys : gmap string bool) : Q :=
  bit (held pressedKeys "arrowdown") - bit (held pressedKeys "arrowup").

Definition boostOf (pressedKeys : gmap string bool) : Q :=
  if held pressedKeys " " || held pressedKeys "shift" then 1.4 else 1.

(** Lines 261-270: steering of the controlled horseman. *)
Definition steer (horizontal vertical boost : Q) (active : Horseman) : Horseman :=
  let acceleration := HORSEMAN_ACCEL * boost in
  let v := Horseman.velocity active in
  let a1 := setVelocity active
              (Vec.mk (Vec.x v + horizontal * acceleration)
                      (Vec.y v + vertical * acceleration)) in
  if truthy horizontal || truthy vertical
  then setTargetTilt a1
         (clamp (Horseman.targetTilt a1 + horizontal * 0.06) (-0.45) 0.45)
  else setTargetTilt a1 (Horseman.targetTilt a1 * 0.88).

(** Lines 275-285: the pull of a free horseman towards the controlled
    one.  [activePos] is the position the controlled horseman has at the
    moment this horseman is visited. *)
Definition flock (activePos : Vector) (wander : Q) (horseman : Horseman) : Horseman :=
  let p := Horseman.position horseman in
  let v := Horseman.velocity horseman in
  let dx := Vec.x activePos - Vec.x p in
  let dy := Vec.y activePos - Vec.y p in
  let vx1 := Vec.x v + dx * 0.0006 in
  let vy1 := Vec.y v + dy * 0.0006 in
  let vx2 := vx1 + wander * 0.03 in
  setTargetTilt (setVelocity horseman (Vec.mk vx2 vy1))
    (clamp (wander * 0.4) (-0.45) 0.45).

(** Lines 296-303, one axis: reflect with loss and clamp back when the
    coordinate left [lo, hi]. *)
Definition bounce (p v lo hi : Q) : Q * Q :=
  if Qltb p lo || Qgtb p hi then (clamp p lo hi, v * -0.7) else (p, v).

(** Lines 287-305: speed limit, integration, friction, walls, tilt. *)
Definition integrate (delta : Q) (horseman : Horseman) : Horseman :=
  let v := Horseman.velocity horseman in
  let vx := clamp (Vec.x v) (- HORSEMAN_MAX_SPEED) HORSEMAN_MAX_SPEED in
  let vy := clamp (Vec.y v) (- HORSEMAN_MAX_SPEED) HORSEMAN_MAX_SPEED in
  let p := Horseman.position horseman in
  let px := Vec.x p + vx * (delta / 16) in
  let py := Vec.y p + vy * (delta / 16) in
  let vx := vx * HORSEMAN_FRICTION in
  let vy := vy * HORSEMAN_FRICTION in
  let '(px, vx) := bounce px vx 40 (CANVAS_WIDTH - 40) in
  let '(py, vy) := bounce py vy 50 (CANVAS_HEIGHT - 100) in
  let h1 := setPosition (setVelocity horseman (Vec.mk vx vy)) (Vec.mk px py) in
  setTilt h1
    (Horseman.tilt h1 + (Horseman.targetTilt h1 - Horseman.tilt h1) * 0.18).

(** The body of [currentHorsemen.forEach] at one index.  The horsemen are
    objects mutated in place, so [active] is read from the store as it is
    when this index is visited: a horseman placed after the controlled
    one sees the controlled one's position of this tick.  When the
    controlled index names no horseman, [active] is [undefined] and
    [active.position] throws ([None]). *)
Definition visit (delta : Q) (wander : nat -> Q) (activeHorseman : nat)
    (hs : list Horseman) (index : nat) : option (list Horseman) :=
  match hs !! index with
  | None => Some hs
  | Some horseman =>
      if Nat.eqb index activeHorseman
      then Some (<[index := integrate delta horseman]> hs)
      else
        match hs !! activeHorseman with
        | None => None
        | Some active =>
            Some (<[index :=
                     integrate delta
                       (flock (Horseman.position active) (wander index) horseman)]> hs)
        end
  end.

Fixpoint visitAll (delta : Q) (wander : nat -> Q) (activeHorseman : nat)
    (indices : list nat) (hs : list Horseman) : option (list Horseman) :=
  match indices with
  | [] => Some hs
  | index :: rest =>
      match visit delta wander activeHorseman hs index with
      | None => None
      | Some hs' => visitAll delta wander activeHorseman rest hs'
      end
  end.

Definition updateHorsemen (pressedKeys : gmap string bool) (activeHorseman : nat)
    (wander : nat -> Q) (delta : Q) (hs : list Horseman)
    : option (list Horseman) :=
  let horizontal := horizontalOf pressedKeys in
  let vertical := verticalOf pressedKeys in
  let boost := boostOf pressedKeys in
  let hs1 := alter (steer horizontal vertical boost) activeHorseman hs in
  visitAll delta wander activeHorseman (seq 0 (length hs1)) hs1.

(** ** Orbs: motion, pickup and respawn ([updateOrbs], lines 309-354) *)

Definition SENTINEL : Q := -999.

(** Lines 312-324: one orb drifts, pulses and turns at the band edges.
    The position is integrated and never clamped. *)
Definition orbMotion (delta : Q) (orb : Orb) : Orb :=
  let p := Orb.position orb in
  let v := Orb.velocity orb in
  let px := Vec.x p + Vec.x v * (delta / 16) in
  let py := Vec.y p + Vec.y v * (delta / 16) in
  let pulse := Orb.pulse orb + Orb.pulseDir orb * 0.01 in
  let pulseDir :=
    if Qltb pulse 0.5 || Qgtb pulse 1.2
    then Orb.pulseDir orb * -1 else Orb.pulseDir orb in
  let vx :=
    if Qltb px 50 || Qgtb px (CANVAS_WIDTH - 50) then Vec.x v * -1 else Vec.x v in
  let vy :=
    if Qltb py 50 || Qgtb py (CANVAS_HEIGHT - 50) then Vec.y v * -1 else Vec.y v in
  Orb.mk (Orb.id orb) (Vec.mk px py) (Vec.mk vx vy) pulse pulseDir.

(** Line 329: [distance(horseman.position, orb.position) < 42]. *)
Definition near (horseman : Horseman) (orb : Orb) : bool :=
  distanceLt (Horseman.position horseman) (Orb.position orb) 42.

(** Lines 331-334: the orb is parked at the sentinel with no velocity. *)
Definition capture (orb : Orb) : Orb :=
  Orb.mk (Orb.id orb) (Vec.mk SENTINEL SENTINEL) (Vec.mk 0 0)
    (Orb.pulse orb) (Orb.pulseDir orb).

(** Lines 329-335: the body of the inner loop. *)
Definition collect (horseman : Horseman) (orb : Orb) : Horseman * Orb :=
  if near horseman orb
  then (setScore horseman (Horseman.score horseman + 1)%nat, capture orb)
  else (horseman, orb).

(** Lines 328-336: [orbs.forEach] for one horseman. *)
Fixpoint collectOrbs (horseman : Horseman) (orbs : list Orb) : Horseman * list Orb :=
  match orbs with
  | [] => (horseman, [])
  | orb :: rest =>
      let '(h1, orb1) := collect horseman orb in
      let '(h2, rest2) := collectOrbs h1 rest in
      (h2, orb1 :: rest2)
  end.

(** Lines 327-337: [horsemenRef.current.forEach]; every horseman sees the
    orbs as the horsemen before it left them. *)
Fixpoint pickup (hs : list Horseman) (orbs : list Orb) : list Horseman * list Orb :=
  match hs with
  | [] => ([], orbs)
  | horseman :: rest =>
      let '(h1, orbs1) := collectOrbs horseman orbs in
      let '(rest2, orbs2) := pickup rest orbs1 in
      (h1 :: rest2, orbs2)
  end.

(** Line 341 (and 421): the test [orb.position.x === -999]. *)
Definition isSentinel (orb : Orb) : bool :=
  Qeq_bool (Vec.x (Orb.position orb)) SENTINEL.

(** ** The canvas *)

(** What reaches the drawing surface.  Each constructor stands for the
    canvas calls one entity receives, with the numbers they are given. *)
Inductive DrawCmd :=
| Backdrop (elapsed : Q)
| Puff (x y size opacity : Q)
| Sprite (x y tilt scale : Q) (color trailColor accent : string) (ring : bool)
| Glow (x y pulse : Q)
| Hint
| ScorePanel (idx : nat) (name : string) (score : nat) (accent : string)
    (highlight : bool).

(** [drawHorsemen] (lines 356-417). *)
Definition drawHorseman (activeHorseman idx : nat) (horseman : Horseman) : DrawCmd :=
  Sprite (Vec.x (Horseman.position horseman)) (Vec.y (Horseman.position horseman))
    (Horseman.tilt horseman)
    (1 + Qmin (inject_Z (Z.of_nat (Horseman.score horseman))) 20 * 0.02)
    (Horseman.color horseman) (Horseman.trailColor horseman)
    (Horseman.accent horseman) (Nat.eqb idx activeHorseman).

Definition drawHorsemen (activeHorseman : nat) (hs : list Horseman) : list DrawCmd :=
  imap (drawHorseman activeHorseman) hs.

(** [drawOrbs] (lines 419-438): parked orbs are skipped. *)
Definition drawOrb (orb : Orb) : list DrawCmd :=
  if isSentinel orb then []
  else [Glow (Vec.x (Orb.position orb)) (Vec.y (Orb.position orb)) (Orb.pulse orb)].

Definition drawOrbs (orbs : list Orb) : list DrawCmd :=
  concat (map drawOrb orbs).

(** [drawUI] (lines 440-461). *)
Definition drawPanel (activeHorseman idx : nat) (horseman : Horseman) : DrawCmd :=
  ScorePanel idx (Horseman.name horseman) (Horseman.score horseman)
    (Horseman.accent horseman) (Nat.eqb idx activeHorseman).

Definition drawUI (activeHorseman : nat) (hs : list Horseman) : list DrawCmd :=
  Hint :: imap (drawPanel activeHorseman) hs.

(** ** Which pickups happen (ghost view of lines 327-337)

    [firing horseman j orbs] lists the indices, counted from [j], of the
    orbs for which the condition of line 329 holds while [horseman] walks
    over [orbs]; [pickupEvents] lists the (horseman index, orb index)
    pairs of a whole pickup pass, in execution order.  Each pair is one
    execution of [horseman.score += 1]. *)

Fixpoint firing (horseman : Horseman) (j : nat) (orbs : list Orb) : list nat :=
  match orbs with
  | [] => []
  | orb :: rest =>
      if near horseman orb
      then j :: firing horseman (S j) rest
      else firing horseman (S j) rest
  end.

Fixpoint pickupEvents (i : nat) (hs : list Horseman) (orbs : list Orb)
    : list (nat * nat) :=
  match hs with
  | [] => []
  | horseman :: rest =>
      map (pair i) (firing horseman 0 orbs)
        ++ pickupEvents (S i) rest (snd (collectOrbs horseman orbs))
  end.

(** How often orb [j] was collected, and the sum of all scores. *)
Definition collectionsOf (j : nat) (events : list (nat * nat)) : nat :=
  length (filter (fun e => snd e = j) events).

Definition totalScore (hs : list Horseman) : nat :=
  sum_list (map Horseman.score hs).

(** ** The component state and the frame driver (lines 60-69, 171-209) *)

Module Game.
Record t := mk {
  activeHorseman : nat;
  elapsed : Q;
  horsemen : list Horseman;
  orbs : list Orb;
  clouds : list Cloud;
  pressedKeys : gmap string bool;
  (** number of [Math.random()] calls made so far *)
  cursor : nat;
  (** the variables of the running loop's closure (lines 178-179) *)
  lastTime : Q;
  orbTimer : Q;
  (** the [elapsed] that the closures of the running loop captured *)
  seenElapsed : Q;
  (** [rafRef.current]: the handle of the pending frame callback *)
  raf : nat;
  (** what has been painted since the last [clearRect] *)
  canvas : list DrawCmd
}.
End Game.
Abbreviation Game := Game.t.

Definition setWorld (g : Game) (hs : list Horseman) (os : list Orb)
    (cs : list Cloud) (cursor : nat) : Game :=
  Game.mk (Game.activeHorseman g) (Game.elapsed g) hs os cs (Game.pressedKeys g)
    cursor (Game.lastTime g) (Game.orbTimer g) (Game.seenElapsed g)
    (Game.raf g) (Game.canvas g).

Definition setCanvas (g : Game) (canvas : list DrawCmd) : Game :=
  Game.mk (Game.activeHorseman g) (Game.elapsed g) (Game.horsemen g)
    (Game.orbs g) (Game.clouds g) (Game.pressedKeys g) (Game.cursor g)
    (Game.lastTime g) (Game.orbTimer g) (Game.seenElapsed g) (Game.raf g) canvas.

Definition setOrbTimer (g : Game) (orbTimer : Q) : Game :=
  Game.mk (Game.activeHorseman g) (Game.elapsed g) (Game.horsemen g)
    (Game.orbs g) (Game.clouds g) (Game.pressedKeys g) (Game.cursor g)
    (Game.lastTime g) orbTimer (Game.seenElapsed g) (Game.raf g) (Game.canvas g).

Definition setPressedKeys (g : Game) (keys : gmap string bool) : Game :=
  Game.mk (Game.activeHorseman g) (Game.elapsed g) (Game.horsemen g)
    (Game.orbs g) (Game.clouds g) keys (Game.cursor g)
    (Game.lastTime g) (Game.orbTimer g) (Game.seenElapsed g) (Game.raf g)
    (Game.canvas g).

(** Lines 182-185: the clock part of [step]. *)
Definition advanceClock (timestamp : Q) (g : Game) : Game :=
  let delta := timestamp - Game.lastTime g in
  Game.mk (Game.activeHorseman g) (Game.elapsed g + delta) (Game.horsemen g)
    (Game.orbs g) (Game.clouds g) (Game.pressedKeys g) (Game.cursor g)
    timestamp (Game.orbTimer g + delta) (Game.seenElapsed g) (Game.raf g)
    (Game.canvas g).

(** Line 198: the next callback is requested. *)
Definition requestFrame (g : Game) : Game :=
  Game.mk (Game.activeHorseman g) (Game.elapsed g) (Game.horsemen g)
    (Game.orbs g) (Game.clouds g) (Game.pressedKeys g) (Game.cursor g)
    (Game.lastTime g) (Game.orbTimer g) (Game.seenElapsed g) (S (Game.raf g))
    (Game.canvas g).

Section Oracle.
(** The values returned by successive calls of [Math.random()]. *)
Variable random : nat -> Q.

(** Lines 341-350: a parked orb gets a fresh position and velocity;
    four random numbers are drawn, in the order of the source. *)
Definition respawnOrb (cursor : nat) (orb : Orb) : Orb * nat :=
  if isSentinel orb
  then
    (Orb.mk (Orb.id orb)
       (Vec.mk (randomRange (random cursor) 80 (CANVAS_WIDTH - 80))
               (randomRange (random (cursor + 1)) 80 (CANVAS_HEIGHT - 160)))
       (Vec.mk (randomRange (random (cursor + 2)) (-0.5) 0.5)
               (randomRange (random (cursor + 3)) (-0.4) 0.4))
       (Orb.pulse orb) (Orb.pulseDir orb),
     (cursor + 4)%nat)
  else (orb, cursor).

Fixpoint respawnAll (cursor : nat) (orbs : list Orb) : list Orb * nat :=
  match orbs with
  | [] => ([], cursor)
  | orb :: rest =>
      let '(orb1, c1) := respawnOrb cursor orb in
      let '(rest2, c2) := respawnAll c1 rest in
      (orb1 :: rest2, c2)
  end.

(** [updateOrbs(delta, orbTimer, onRespawn)].  The callback sets the
    caller's timer to 0; here the timer to keep is returned. *)
Definition updateOrbs (delta orbTimer : Q) (cursor : nat)
    (hs : list Horseman) (orbs : list Orb)
    : list Horseman * list Orb * Q * nat :=
  let orbs1 := map (orbMotion delta) orbs in
  let '(hs2, orbs2) := pickup hs orbs1 in
  if Qgtb orbTimer ORB_RESPAWN_TIME
  then let '(orbs3, c3) := respawnAll cursor orbs2 in (hs2, orbs3, 0, c3)
  else (hs2, orbs2, orbTimer, cursor).

(** ** Clouds ([updateClouds], lines 211-234) *)

(** Lines 213-217: drift and wrap of one cloud. *)
Definition cloudMotion (delta : Q) (cursor : nat) (cloud : Cloud) : Cloud * nat :=
  let p := Cloud.position cloud in
  let px := Vec.x p + Cloud.speed cloud * (delta / 16) in
  if Qgtb (px - Cloud.size cloud) CANVAS_WIDTH
  then (Cloud.mk (Cloud.id cloud)
          (Vec.mk (- Cloud.size cloud) (randomRange (random cursor) 0 CANVAS_HEIGHT))
          (Cloud.size cloud) (Cloud.speed cloud) (Cloud.opacity cloud),
        (cursor + 1)%nat)
  else (Cloud.mk (Cloud.id cloud) (Vec.mk px (Vec.y p))
          (Cloud.size cloud) (Cloud.speed cloud) (Cloud.opacity cloud),
        cursor).

(** Lines 219-232: the gradient disc of one cloud. *)
Definition drawCloud (cloud : Cloud) : DrawCmd :=
  Puff (Vec.x (Cloud.position cloud)) (Vec.y (Cloud.position cloud))
       (Cloud.size cloud) (Cloud.opacity cloud).

(** [updateClouds(ctx, delta)]: each cloud is moved and then painted
    before the next cloud is touched. *)
Fixpoint updateClouds (delta : Q) (cursor : nat) (clouds : list Cloud)
    (canvas : list DrawCmd) : list Cloud * nat * list DrawCmd :=
  match clouds with
  | [] => ([], cursor, canvas)
  | cloud :: rest =>
      let '(cloud1, c1) := cloudMotion delta cursor cloud in
      let canvas1 := canvas ++ [drawCloud cloud1] in
      let '(rest2, c2, canvas2) := updateClouds delta c1 rest canvas1 in
      (cloud1 :: rest2, c2, canvas2)
  end.

(** The calls of lines 187-196, in the order of the source. *)
Inductive Phase :=
| ClearRect
| DrawBackground
| UpdateClouds
| UpdateHorsemen
| UpdateOrbs
| DrawHorsemen
| DrawOrbs
| DrawUI.

Definition stepBody : list Phase :=
  [ClearRect; DrawBackground; UpdateClouds; UpdateHorsemen; UpdateOrbs;
   DrawHorsemen; DrawOrbs; DrawUI].

Definition runPhase (delta : Q) (wander : nat -> Q) (phase : Phase) (g : Game)
    : option Game :=
  match phase with
  | ClearRect => Some (setCanvas g [])
  | DrawBackground =>
      Some (setCanvas g (Game.canvas g ++ [Backdrop (Game.seenElapsed g)]))
  | UpdateClouds =>
      let '(cs, c, canvas) :=
        updateClouds delta (Game.cursor g) (Game.clouds g) (Game.canvas g) in
      Some (setCanvas (setWorld g (Game.horsemen g) (Game.orbs g) cs c) canvas)
  | UpdateHorsemen =>
      match updateHorsemen (Game.pressedKeys g) (Game.activeHorseman g) wander
              delta (Game.horsemen g) with
      | None => None
      | Some hs => Some (setWorld g hs (Game.orbs g) (Game.clouds g) (Game.cursor g))
      end
  | UpdateOrbs =>
      let '(hs, os, timer, c) :=
        updateOrbs delta (Game.orbTimer g) (Game.cursor g)
          (Game.horsemen g) (Game.orbs g) in
      Some (setOrbTimer (setWorld g hs os (Game.clouds g) c) timer)
  | DrawHorsemen =>
      Some (setCanvas g
              (Game.canvas g ++ drawHorsemen (Game.activeHorseman g) (Game.horsemen g)))
  | DrawOrbs => Some (setCanvas g (Game.canvas g ++ drawOrbs (Game.orbs g)))
  | DrawUI =>
      Some (setCanvas g
              (Game.canvas g ++ drawUI (Game.activeHorseman g) (Game.horsemen g)))
  end.

Fixpoint runPhases (delta : Q) (wander : nat -> Q) (phases : list Phase)
    (g : Game) : option Game :=
  match phases with
  | [] => Some g
  | phase :: rest =>
      match runPhase delta wander phase g with
      | None => None
      | Some g1 => runPhases delta wander rest g1
      end
  end.

(** [step(timestamp)]; [None] when [updateHorsemen] throws, in which case
    no further frame is requested. *)
Definition step (timestamp : Q) (wander : nat -> Q) (g : Game) : option Game :=
  let delta := timestamp - Game.lastTime g in
  match runPhases delta wander stepBody (advanceClock timestamp g) with
  | None => None
  | Some g1 => Some (requestFrame g1)
  end.

(** ** Keyboard handlers and the restart of the loop (lines 144-160, 171-209) *)

Definition lowerAscii (c : ascii) : ascii :=
  let n := nat_of_ascii c in
  if (65 <=? n)%nat && (n <=? 90)%nat then ascii_of_nat (n + 32) else c.

Fixpoint toLowerCase (s : string) : string :=
  match s with
  | EmptyString => EmptyString
  | String c rest => String (lowerAscii c) (toLowerCase rest)
  end.

(** [Number(key)] for the keys made of decimal digits; other keys are
    not given a value by this model. *)
Definition digitOf (c : ascii) : option nat :=
  let n := nat_of_ascii c in
  if (48 <=? n)%nat && (n <=? 57)%nat then Some (n - 48)%nat else None.

Fixpoint numberFrom (acc : nat) (s : string) : option nat :=
  match s with
  | EmptyString => Some acc
  | String c rest =>
      match digitOf c with
      | None => None
      | Some d => numberFrom (10 * acc + d)%nat rest
      end
  end.

Definition Number (s : string) : option nat :=
  match s with
  | EmptyString => None
  | _ => numberFrom 0 s
  end.

(** [setActiveHorseman(idx)] followed by React's reaction.  A state that
    does not change causes nothing.  A changed [activeHorseman] is a
    changed dependency of the effect of lines 171-209: its cleanup cancels
    the pending frame and the effect runs again, so [lastTime] is read
    anew from the clock ([now]), [orbTimer] starts at 0, the closures see
    the current [elapsed], and a new frame is requested. *)
Definition setActiveHorseman (now : Q) (idx : nat) (g : Game) : Game :=
  if Nat.eqb idx (Game.activeHorseman g) then g
  else
    Game.mk idx (Game.elapsed g) (Game.horsemen g) (Game.orbs g) (Game.clouds g)
      (Game.pressedKeys g) (Game.cursor g) now 0 (Game.elapsed g)
      (S (Game.raf g)) (Game.canvas g).

(** [handleKeyDown]; [None] for a key between "1" and "4" whose
    [Number] this model does not compute. *)
Definition handleKeyDown (now : Q) (key : string) (g : Game) : option Game :=
  let g1 := setPressedKeys g (<[toLowerCase key := true]> (Game.pressedKeys g)) in
  if String.leb "1" key && String.leb key "4"
  then
    match Number key with
    | None => None
    | Some n => Some (setActiveHorseman now (n - 1) g1)
    end
  else Some g1.

Definition handleKeyUp (key : string) (g : Game) : Game :=
  setPressedKeys g (<[toLowerCase key := false]> (Game.pressedKeys g)).

(** What can happen to the mounted component. *)
Inductive Event :=
| Frame (timestamp : Q) (wander : nat -> Q)
| KeyDown (now : Q) (key : string)
| KeyUp (key : string).

Definition react (e : Event) (g : Game) : option Game :=
  match e with
  | Frame timestamp wander => step timestamp wander g
  | KeyDown now key => handleKeyDown now key g
  | KeyUp key => Some (handleKeyUp key g)
  end.

Fixpoint run (events : list Event) (g : Game) : option Game :=
  match events with
  | [] => Some g
  | e :: rest =>
      match react e g with
      | None => None
      | Some g1 => run rest g1
      end
  end.

(** ** Mounting the component (lines 71-142, 171-201) *)

(** The palette of lines 71-99: colour, trail colour, accent and name. *)
Definition palette : list (string * string * string * string) :=
  [("#ff8c69", "rgba(255,160,122,0.65)", "#ffd8a8", "Aurora");
   ("#6ec3ff", "rgba(110,195,255,0.65)", "#b8e2ff", "Zephyr");
   ("#b992ff", "rgba(185,146,255,0.65)", "#e3c8ff", "Nyx");
   ("#7be78a", "rgba(123,231,138,0.65)", "#c6f7d4", "Pyrros")]%string.

(** Lines 102-116; horseman [index] draws the random numbers
    [2 * index] and [2 * index + 1]. *)
Definition newHorseman (index : nat) (colors : string * string * string * string)
    : Horseman :=
  let '(color, trailColor, accent, name) := colors in
  let i := inject_Z (Z.of_nat index) in
  Horseman.mk index name color trailColor accent
    (Vec.mk (CANVAS_WIDTH / 2 + (i - 1.5) * 120)
            (CANVAS_HEIGHT / 2 + (if Nat.even index then -60 else 60)))
    (Vec.mk (randomRange (random (2 * index)) (-1) 1)
            (randomRange (random (2 * index + 1)) (-1) 1))
    0 0 0.

(** Lines 118-130; six random numbers per orb, from [base] on. *)
Definition newOrb (base idx : nat) : Orb :=
  let c := (base + 6 * idx)%nat in
  Orb.mk idx
    (Vec.mk (randomRange (random c) 80 (CANVAS_WIDTH - 80))
            (randomRange (random (c + 1)) 80 (CANVAS_HEIGHT - 80)))
    (Vec.mk (randomRange (random (c + 2)) (-0.4) 0.4)
            (randomRange (random (c + 3)) (-0.3) 0.3))
    (randomRange (random (c + 4)) 0.5 1)
    (if Qgtb (random (c + 5)) 0.5 then 1 else -1).

(** Lines 132-141; five random numbers per cloud, from [base] on. *)
Definition newCloud (base idx : nat) : Cloud :=
  let c := (base + 5 * idx)%nat in
  Cloud.mk idx
    (Vec.mk (randomRange (random c) 0 CANVAS_WIDTH)
            (randomRange (random (c + 1)) 0 CANVAS_HEIGHT))
    (randomRange (random (c + 2)) 120 240)
    (randomRange (random (c + 3)) 0.2 0.6)
    (randomRange (random (c + 4)) 0.05 0.14).

(** The state once the three effects have run for the first time, [now]
    being the clock read at line 178. *)
Definition mount (now : Q) : Game :=
  Game.mk 0 0
    (imap newHorseman palette)
    (map (newOrb 8) (seq 0 6))
    (map (newCloud 44) (seq 0 12))
    ∅ 104 now 0 0 1 [].
End Oracle.

(** ** Notions used by the statements *)

(** The inset rectangle of the horsemen (lines 296-303) and the speed
    limit (lines 287-288). *)
Definition inPlayfield (p : Vector) : Prop :=
  (40 <= Vec.x p <= 920) /\ (50 <= Vec.y p <= 460).

Definition withinSpeed (v : Vector) : Prop :=
  (Qabs (Vec.x v) <= HORSEMAN_MAX_SPEED) /\ (Qabs (Vec.y v) <= HORSEMAN_MAX_SPEED).

(** What one visit of the loop leaves behind: the result of [integrate]. *)
Definition integrated (delta : Q) (h : Horseman) : Prop :=
  exists h0, h = integrate delta h0.

(** An orb as line 331-334 leave it: at the sentinel, without velocity. *)
Definition parked (orb : Orb) : Prop :=
  Vec.x (Orb.position orb) == SENTINEL /\ Vec.y (Orb.position orb) == SENTINEL /\
  Vec.x (Orb.velocity orb) == 0 /\ Vec.y (Orb.velocity orb) == 0.

(** An orb at the sentinel position. *)
Definition atSentinel (orb : Orb) : Prop :=
  Vec.x (Orb.position orb) == SENTINEL /\ Vec.y (Orb.position orb) == SENTINEL.

(** What the pickup pass can do to an orb: nothing, or park it. *)
Definition keptOrParked (orb orb' : Orb) : Prop :=
  orb' = orb \/ orb' = capture orb.

(** An orb as lines 342-349 leave it. *)
Definition respawned (orb : Orb) : Prop :=
  (80 <= Vec.x (Orb.position orb) < 880) /\ (80 <= Vec.y (Orb.position orb) < 400) /\
  (-0.5 <= Vec.x (Orb.velocity orb) < 0.5) /\ (-0.4 <= Vec.y (Orb.velocity orb) < 0.4).

(** The band of lines 319-324. *)
Definition outsideBandX (px : Q) : bool := Qltb px 50 || Qgtb px (CANVAS_WIDTH - 50).
Definition outsideBandY (py : Q) : bool := Qltb py 50 || Qgtb py (CANVAS_HEIGHT - 50).

(** The pickups of one tick: the horsemen as [updateHorsemen] leaves
    them walk over the orbs as the motion pass leaves them. *)
Definition tickEvents (timestamp : Q) (wander : nat -> Q) (g : Game)
    : list (nat * nat) :=
  let delta := timestamp - Game.lastTime g in
  match updateHorsemen (Game.pressedKeys g) (Game.activeHorseman g) wander delta
          (Game.horsemen g) with
  | None => []
  | Some hs => pickupEvents 0 hs (map (orbMotion delta) (Game.orbs g))
  end.

(** The state a tick produces, given what its three update passes return. *)
Definition afterTick (timestamp : Q) (g : Game)
    (cl : list Cloud * nat * list DrawCmd)
    (uo : list Horseman * list Orb * Q * nat) : Game :=
  let hs := fst (fst (fst uo)) in
  let os := snd (fst (fst uo)) in
  Game.mk (Game.activeHorseman g)
    (Game.elapsed g + (timestamp - Game.lastTime g))
    hs os (fst (fst cl)) (Game.pressedKeys g) (snd uo) timestamp (snd (fst uo))
    (Game.seenElapsed g) (S (Game.raf g))
    (((snd cl ++ drawHorsemen (Game.activeHorseman g) hs) ++ drawOrbs os)
       ++ drawUI (Game.activeHorseman g) hs).

(** A frame whose accumulated timer passes the respawn threshold. *)
Definition sweeps (e : Event) (g : Game) : bool :=
  match e with
  | Frame timestamp _ =>
      Qgtb (Game.orbTimer g + (timestamp - Game.lastTime g)) ORB_RESPAWN_TIME
  | _ => false
  end.

(** A run in which no frame sweeps. *)
Fixpoint quiet (random : nat -> Q) (events : list Event) (g : Game) : Prop :=
  match events with
  | [] => True
  | e :: rest =>
      sweeps e g = false /\
      match react random e g with
      | None => True
      | Some g1 => quiet random rest g1
      end
  end.

(** Orb [j] is collected during event [e]. *)
Definition collectedIn (e : Event) (g : Game) (j : nat) : Prop :=
  match e with
  | Frame timestamp wander =>
      (1 <= collectionsOf j (tickEvents timestamp wander g))%nat
  | _ => False
  end.

(** The simulated world, apart from clocks, keys and canvas. *)
Definition world (g : Game) : list Horseman * list Orb * list Cloud :=
  (Game.horsemen g, Game.orbs g, Game.clouds g).





(** The frame a painter would produce from a finished state. *)
Definition render (g : Game) : list DrawCmd :=
  Backdrop (Game.seenElapsed g)
    :: map drawCloud (Game.clouds g)
    ++ drawHorsemen (Game.activeHorseman g) (Game.horsemen g)
    ++ drawOrbs (Game.orbs g)
    ++ drawUI (Game.activeHorseman g) (Game.horsemen g).

(** ** The steering scenario: only the right arrow held, 16 ms frames *)

Definition rightHeld : gmap string bool := {[ "arrowright"%string := true ]}.

(** What a tick of [updateHorsemen] does to the controlled horseman. *)
Definition controlledTick (pressedKeys : gmap string bool) (delta : Q)
    (h : Horseman) : Horseman :=
  integrate delta
    (steer (horizontalOf pressedKeys) (verticalOf pressedKeys) (boostOf pressedKeys) h).

Definition scenarioAfter (n : nat) (start : Horseman) : Horseman :=
  Nat.iter n (controlledTick rightHeld 16) start.

Definition px (h : Horseman) : Q := Vec.x (Horseman.position h).
Definition vx (h : Horseman) : Q := Vec.x (Horseman.velocity h).

(** The x axis of the scenario on its own: position and velocity. *)
Definition axisTick (s : Q * Q) : Q * Q :=
  let '(p, v) := s in
  let v1 := clamp (v + 1 * (HORSEMAN_ACCEL * 1))
              (- HORSEMAN_MAX_SPEED) HORSEMAN_MAX_SPEED in
  bounce (p + v1 * (16 / 16)) (v1 * HORSEMAN_FRICTION) 40 (CANVAS_WIDTH - 40).

(** The same step on reduced fractions, and the states it runs through
    from position 500 at rest. *)
Definition axisTickR (s : Q * Q) : Q * Q :=
  let t := axisTick s in (Qred (fst t), Qred (snd t)).

Definition axisAfter (n : nat) : Q * Q := Nat.iter n axisTickR (500, 0).

Definition axisEq (s s' : Q * Q) : Prop := fst s == fst s' /\ snd s == snd s'.

(** Kinds of tick, from state [s] to state [s']: the velocity does not
    fall and the position grows from left of the wall; the position
    grows from left of the wall onto it and the velocity drops below 0;
    the position falls although it is left of the wall. *)
Definition cruise (s s' : Q * Q) : bool :=
  Qle_bool (snd s) (snd s') && Qltb (fst s) (fst s')
    && Qltb (fst s) (CANVAS_WIDTH - 40).

Definition hitWall (s s' : Q * Q) : bool :=
  Qltb (fst s) (fst s') && Qltb (fst s) (CANVAS_WIDTH - 40)
    && Qeq_bool (fst s') (CANVAS_WIDTH - 40)
    && Qltb (snd s') (snd s) && Qltb (snd s') 0.

Definition retreat (s s' : Q * Q) : bool :=
  Qltb (fst s) (CANVAS_WIDTH - 40) && Qltb (fst s') (fst s).

Definition anyTick (s s' : Q * Q) : bool := true.

(** The successive ticks from [s] are of the listed kinds. *)
Fixpoint checkTrail (kinds : list (Q * Q -> Q * Q -> bool)) (s : Q * Q) : bool :=
  match kinds with
  | [] => true
  | kind :: rest =>
      let s' := axisTickR s in
      kind s s' && checkTrail rest s'
  end.

(** 74 ticks of cruising, the tick onto the wall, one more, and a tick
    of retreat. *)
Definition scenarioKinds : list (Q * Q -> Q * Q -> bool) :=
  replicate 74 cruise ++ [hitWall; anyTick; retreat].

(** The scenario as claimed: on every tick the velocity does not fall
    and stays under the limit, and the position grows while it is left
    of the wall. *)
Definition scenarioClaim (start : Horseman) : Prop :=
  forall n,
    vx (scenarioAfter n start) <= vx (scenarioAfter (S n) start) /\
    vx (scenarioAfter n start) <= HORSEMAN_MAX_SPEED /\
    (px (scenarioAfter n start) < CANVAS_WIDTH - 40 ->
     px (scenarioAfter n start) < px (scenarioAfter (S n) start)).

(** ** Sample data *)

Definition sampleRandom (n : nat) : Q :=
  inject_Z (Z.of_nat ((n * 37 + 11) mod 100)) / 100.

Definition sampleWander (index : nat) : Q := 0.5.

Definition scenarioStart : Horseman :=
  Horseman.mk 0 "Aurora" "#ff8c69" "rgba(255,160,122,0.65)" "#ffd8a8"
    (Vec.mk 500 280) (Vec.mk 0 0) 0 0 0.

(** The game mounted at time 1000, and after its first frame at 1016. *)
Definition sampleMount : Game := mount sampleRandom 1000.

Definition afterFirstFrame : Game :=
  match step sampleRandom 1016 sampleWander sampleMount with
  | Some g => g
  | None => sampleMount
  end.

(** A random stream that always returns 0, and the game mounted with it
    at time 0. *)
Definition zeroRandom (n : nat) : Q := 0.

Definition zeroMount : Game := mount zeroRandom 0.

(** The sample game with three orbs: one where horseman 0 stands, one
    parked, one drifting far from everybody. *)
Definition pickupGame : Game :=
  setWorld sampleMount (Game.horsemen sampleMount)
    [Orb.mk 0 (Vec.mk 300 220) (Vec.mk 0 0) 0.8 1;
     Orb.mk 1 (Vec.mk SENTINEL SENTINEL) (Vec.mk 0 0) 0.6 (-1);
     Orb.mk 2 (Vec.mk 700 100) (Vec.mk 0.3 (-0.2)) 1 1]
    (take 2 (Game.clouds sampleMount)) (Game.cursor sampleMount).

Definition laterEvents : list Event :=
  [KeyDown 1020 "2"; Frame 1032 sampleWander; KeyUp "2"].


(** ** Further notions: tilt, riders, pulse, keys *)

(** Both tilt angles within the lean limit of lines 266 and 284. *)
Definition tiltOK (h : Horseman) : Prop :=
  (-0.45 <= Horseman.targetTilt h <= 0.45) /\ (-0.45 <= Horseman.tilt h <= 0.45).

(** Who a horseman is: everything assigned at line 102-107. *)
Definition rider (h : Horseman) : nat * string * string * string * string :=
  (Horseman.id h, Horseman.name h, Horseman.color h, Horseman.trailColor h,
   Horseman.accent h).

(** The same rider with a score at least as high. *)
Definition grownFrom (h h' : Horseman) : Prop :=
  rider h' = rider h /\ (Horseman.score h <= Horseman.score h')%nat.

(** The position of the controlled horseman that free horseman [i] is
    pulled towards: the one before this tick for the horsemen visited
    before the controlled one, the one of this tick for those after. *)
Definition chased (pressedKeys : gmap string bool) (delta : Q) (a i : nat)
    (active : Horseman) : Vector :=
  if (i <? a)%nat then Horseman.position active
  else Horseman.position (controlledTick pressedKeys delta active).

(** What the loop of lines 272-306 makes of the horseman [h] it finds at
    index [j], the controlled horseman having been [active] before the
    tick. *)
Definition visited (pressedKeys : gmap string bool) (delta : Q)
    (wander : nat -> Q) (a : nat) (active : Horseman) (j : nat) (h : Horseman)
    : Horseman :=
  if Nat.eqb j a then integrate delta h
  else integrate delta (flock (chased pressedKeys delta a j active) (wander j) h).

(** The pulse of an orb: within a hundredth of [0.5, 1.2], with a
    direction of size 1 that points back inside when the pulse is out. *)
Definition pulseOK (orb : Orb) : Prop :=
  (0.49 <= Orb.pulse orb <= 1.21) /\
  (Orb.pulseDir orb == 1 \/ Orb.pulseDir orb == -1) /\
  (Orb.pulse orb < 0.5 -> Orb.pulseDir orb == 1) /\
  (1.2 < Orb.pulse orb -> Orb.pulseDir orb == -1).

(** A key that is a single character at most, or is not between "1" and
    "4" in the order of line 148. *)
Definition plainKey (key : string) : Prop :=
  (String.length key <= 1)%nat \/
  String.leb "1" key && String.leb key "4" = false.

Definition plainEvent (e : Event) : Prop :=
  match e with
  | KeyDown _ key => plainKey key
  | _ => True
  end.

Definition isFrame (e : Event) : Prop :=
  match e with
  | Frame _ _ => True
  | _ => False
  end.

(** The scale of line 362 and the ring flag, read off a sprite. *)
Definition spriteScale (cmd : DrawCmd) : option Q :=
  match cmd with
  | Sprite _ _ _ scale _ _ _ _ => Some scale
  | _ => None
  end.

Definition spriteRing (cmd : DrawCmd) : option bool :=
  match cmd with
  | Sprite _ _ _ _ _ _ _ ring => Some ring
  | _ => None
  end.

(** A small game: two horsemen, two orbs, one cloud, horseman 1
    controlled. *)
Definition tinyGame : Game :=
  Game.mk 1 0
    [Horseman.mk 0 "Aurora" "#ff8c69" "rgba(255,160,122,0.65)" "#ffd8a8"
       (Vec.mk 300 220) (Vec.mk 0.5 (-0.25)) 0 0 0;
     Horseman.mk 1 "Zephyr" "#6ec3ff" "rgba(110,195,255,0.65)" "#b8e2ff"
       (Vec.mk 420 340) (Vec.mk (-1) 0.5) 0.25 0.125 2]
    [Orb.mk 0 (Vec.mk 310 225) (Vec.mk 0.25 (-0.125)) 0.75 1;
     Orb.mk 1 (Vec.mk 700 100) (Vec.mk (-0.5) 0.25) 1 (-1)]
    [Cloud.mk 0 (Vec.mk 1100 50) 130 0.5 0.125]
    ∅ 0 1000 0 0 1 [].

(** The keys the game is played with, as the browser names them. *)
Definition controlKeys : list string :=
  ["ArrowUp"; "ArrowDown"; "ArrowLeft"; "ArrowRight"; " "; "Shift"]%string.

(** What [updateClouds] makes of a cloud: it drifts right, or, once its
    whole disc is past the right edge, re-enters at the left at a fresh
    height. *)
Definition driftedFrom (delta : Q) (c c' : Cloud) : Prop :=
  Cloud.id c' = Cloud.id c /\ Cloud.size c' = Cloud.size c /\
  Cloud.speed c' = Cloud.speed c /\ Cloud.opacity c' = Cloud.opacity c /\
  let x1 := Vec.x (Cloud.position c) + Cloud.speed c * (delta / 16) in
  ((Vec.x (Cloud.position c') = x1 /\
    Vec.y (Cloud.position c') = Vec.y (Cloud.position c) /\
    x1 - Cloud.size c <= CANVAS_WIDTH) \/
   (Vec.x (Cloud.position c') = - Cloud.size c /\
    0 <= Vec.y (Cloud.position c') < CANVAS_HEIGHT /\
    CANVAS_WIDTH < x1 - Cloud.size c)).

(** A horseman as line 102-116 create it. *)
Definition freshHorseman (h : Horseman) : Prop :=
  inPlayfield (Horseman.position h) /\
  (-1 <= Vec.x (Horseman.velocity h) < 1) /\
  (-1 <= Vec.y (Horseman.velocity h) < 1) /\
  Horseman.score h = 0%nat /\
  Horseman.targetTilt h = 0 /\ Horseman.tilt h = 0.

(** An orb as lines 118-130 create it. *)
Definition freshOrb (o : Orb) : Prop :=
  (80 <= Vec.x (Orb.position o) < 880) /\ (80 <= Vec.y (Orb.position o) < 480) /\
  (-0.4 <= Vec.x (Orb.velocity o) < 0.4) /\ (-0.3 <= Vec.y (Orb.velocity o) < 0.3) /\
  (0.5 <= Orb.pulse o <= 1) /\ pulseOK o /\ isSentinel o = false /\
  outsideBandX (Vec.x (Orb.position o)) = false /\
  outsideBandY (Vec.y (Orb.position o)) = false.

(** A cloud as lines 132-141 create it. *)
Definition freshCloud (c : Cloud) : Prop :=
  (0 <= Vec.x (Cloud.position c) < 960) /\ (0 <= Vec.y (Cloud.position c) < 560) /\
  (120 <= Cloud.size c <= 240) /\ (0.2 <= Cloud.speed c < 0.6) /\
  (0.05 <= Cloud.opacity c <= 0.14).

(** A horseman inside the inset rectangle and under the speed limit. *)
Definition inBounds (h : Horseman) : Prop :=
  inPlayfield (Horseman.position h) /\ withinSpeed (Horseman.velocity h).

(** ** Notions for the sweep, the order of a tick and the painted frame *)

(** An orb whose position and velocity are the draws [k], [k + 1],
    [k + 2] and [k + 3] of the random stream, scaled into the ranges of
    lines 343-348. *)
Definition spawnedAt (random : nat -> Q) (k : nat) (orb : Orb) : Prop :=
  Orb.position orb
    = Vec.mk (randomRange (random k) 80 (CANVAS_WIDTH - 80))
             (randomRange (random (k + 1)%nat) 80 (CANVAS_HEIGHT - 160)) /\
  Orb.velocity orb
    = Vec.mk (randomRange (random (k + 2)%nat) (-0.5) 0.5)
             (randomRange (random (k + 3)%nat) (-0.4) 0.4).

(** How many orbs before index [j] are at the sentinel. *)
Definition sentinelsBefore (j : nat) (orbs : list Orb) : nat :=
  length (filter (fun o => isSentinel o = true) (take j orbs)).






(** Line 214: the moved cloud has its whole disc past the right edge. *)
Definition wraps (delta : Q) (cloud : Cloud) : bool :=
  Qgtb (Vec.x (Cloud.position cloud) + Cloud.speed cloud * (delta / 16)
        - Cloud.size cloud) CANVAS_WIDTH.

(** How many clouds before index [i] re-enter in this tick. *)
Definition reentriesBefore (delta : Q) (i : nat) (cs : list Cloud) : nat :=
  length (filter (fun cloud => wraps delta cloud = true) (take i cs)).

(** What a canvas command shows of an entity. *)
Definition showsCloud (cloud : Cloud) (cmd : DrawCmd) : Prop :=
  match cmd with
  | Puff x y size opacity =>
      x = Vec.x (Cloud.position cloud) /\ y = Vec.y (Cloud.position cloud) /\
      size = Cloud.size cloud /\ opacity = Cloud.opacity cloud
  | _ => False
  end.

Definition showsHorseman (activeHorseman idx : nat) (h : Horseman)
    (cmd : DrawCmd) : Prop :=
  match cmd with
  | Sprite x y tilt _ color trailColor accent ring =>
      x = Vec.x (Horseman.position h) /\ y = Vec.y (Horseman.position h) /\
      tilt = Horseman.tilt h /\ color = Horseman.color h /\
      trailColor = Horseman.trailColor h /\ accent = Horseman.accent h /\
      ring = Nat.eqb idx activeHorseman
  | _ => False
  end.

Definition showsOrb (orb : Orb) (cmd : DrawCmd) : Prop :=
  match cmd with
  | Glow x y pulse =>
      x = Vec.x (Orb.position orb) /\ y = Vec.y (Orb.position orb) /\
      pulse = Orb.pulse orb
  | _ => False
  end.

Definition showsScore (activeHorseman idx : nat) (h : Horseman)
    (cmd : DrawCmd) : Prop :=
  match cmd with
  | ScorePanel i name score accent highlight =>
      i = idx /\ name = Horseman.name h /\ score = Horseman.score h /\
      accent = Horseman.accent h /\ highlight = Nat.eqb idx activeHorseman
  | _ => False
  end.

(** One command per entity of a list, in order, each showing its
    entity. *)
Definition eachShown {A} (shows : nat -> A -> DrawCmd -> Prop) (l : list A)
    (cmds : list DrawCmd) : Prop :=
  length cmds = length l /\
  forall i x, l !! i = Some x -> exists cmd, cmds !! i = Some cmd /\ shows i x cmd.

Section Facts.
Variable random : nat -> Q.

(** ** Comparisons *)

Lemma Qltb_lt a b : Qltb a b = true <-> a < b.
Proof.
  unfold Qltb. rewrite negb_true_iff.
  destruct (Qle_bool b a) eqn:E.
  - apply Qle_bool_iff in E. split; [discriminate | intros H; lra].
  - split; [intros _ | reflexivity].
    destruct (Qlt_le_dec a b) as [H | H]; [exact H |].
    apply Qle_bool_iff in H. congruence.
Qed.

Lemma Qltb_ge a b : Qltb a b = false <-> b <= a.
Proof.
  unfold Qltb. rewrite negb_false_iff. apply Qle_bool_iff.
Qed.

Lemma Qgtb_gt a b : Qgtb a b = true <-> b < a.
Proof. apply Qltb_lt. Qed.

Lemma Qgtb_le a b : Qgtb a b = false <-> a <= b.
Proof. apply Qltb_ge. Qed.

(** ** Facts about [clamp] *)

Lemma Qmax_cases a b : (b <= a /\ Qmax a b = a) \/ (a < b /\ Qmax a b = b).
Proof.
  unfold Qmax, GenericMinMax.gmax.
  destruct (a ?= b) eqn:E.
  - left. split; [apply Qeq_alt in E; lra | reflexivity].
  - right. split; [apply Qlt_alt in E; exact E | reflexivity].
  - left. split; [apply Qgt_alt in E; lra | reflexivity].
Qed.

Lemma Qmin_cases a b : (a <= b /\ Qmin a b = a) \/ (b < a /\ Qmin a b = b).
Proof.
  unfold Qmin, GenericMinMax.gmin.
  destruct (a ?= b) eqn:E.
  - left. split; [apply Qeq_alt in E; lra | reflexivity].
  - left. split; [apply Qlt_alt in E; lra | reflexivity].
  - right. split; [apply Qgt_alt in E; exact E | reflexivity].
Qed.

Lemma clamp_bounds v lo hi : lo <= hi -> lo <= clamp v lo hi <= hi.
Proof.
  intros Hb. unfold clamp.
  destruct (Qmax_cases v lo) as [[H1 ->] | [H1 ->]];
    destruct (Qmin_cases v hi) as [[H2 E2] | [H2 E2]];
    destruct (Qmin_cases lo hi) as [[H3 E3] | [H3 E3]];
    rewrite ?E2, ?E3; lra.
Qed.

Lemma clamp_inside v lo hi : lo <= v -> v <= hi -> clamp v lo hi = v.
Proof.
  intros Hl Hh. unfold clamp.
  destruct (Qmax_cases v lo) as [[H1 ->] | [H1 ->]]; [| lra].
  destruct (Qmin_cases v hi) as [[H2 ->] | [H2 ->]]; [reflexivity | lra].
Qed.

(** C10: clamping an already clamped value returns the same value, for
    every value and every pair of bounds (ordered or not). *)
Theorem clamp_idempotent (v lo hi : Q) :
  clamp (clamp v lo hi) lo hi = clamp v lo hi.
Proof.
  unfold clamp.
  destruct (Qmin_cases (Qmax v lo) hi) as [[H1 E1] | [H1 E1]]; rewrite E1.
  - destruct (Qmax_cases (Qmax v lo) lo) as [[H2 E2] | [H2 E2]]; rewrite E2.
    + exact E1.
    + destruct (Qmax_cases v lo) as [[H3 E3] | [H3 E3]]; rewrite E3 in H2; lra.
  - destruct (Qmax_cases hi lo) as [[H2 E2] | [H2 E2]]; rewrite E2.
    + destruct (Qmin_cases hi hi) as [[H3 E3] | [H3 E3]]; [exact E3 | lra].
    + destruct (Qmin_cases lo hi) as [[H3 E3] | [H3 E3]]; [lra | exact E3].
Qed.

(** ** The horsemen stay in the playfield and under the speed limit *)

Lemma bounce_position p v lo hi :
  lo <= hi -> lo <= fst (bounce p v lo hi) <= hi.
Proof.
  intros Hb. unfold bounce.
  destruct (Qltb p lo) eqn:E1; simpl.
  - apply clamp_bounds; exact Hb.
  - destruct (Qgtb p hi) eqn:E2; simpl.
    + apply clamp_bounds; exact Hb.
    + apply Qltb_ge in E1. apply Qgtb_le in E2. lra.
Qed.

Lemma bounce_velocity p v lo hi m :
  - m <= v <= m -> - m <= snd (bounce p v lo hi) <= m.
Proof.
  intros Hv. unfold bounce.
  destruct (Qltb p lo || Qgtb p hi); simpl; lra.
Qed.

Lemma integrate_position delta h : inPlayfield (Horseman.position (integrate delta h)).
Proof.
  unfold integrate.
  set (vx := clamp (Vec.x (Horseman.velocity h)) _ _).
  set (vy := clamp (Vec.y (Horseman.velocity h)) _ _).
  pose proof (bounce_position (Vec.x (Horseman.position h) + vx * (delta / 16))
                (vx * HORSEMAN_FRICTION) 40 (CANVAS_WIDTH - 40)) as Hx.
  pose proof (bounce_position (Vec.y (Horseman.position h) + vy * (delta / 16))
                (vy * HORSEMAN_FRICTION) 50 (CANVAS_HEIGHT - 100)) as Hy.
  destruct (bounce (Vec.x _ + _) _ 40 _) as [px vx'].
  destruct (bounce (Vec.y _ + _) _ 50 _) as [py vy'].
  unfold inPlayfield, CANVAS_WIDTH, CANVAS_HEIGHT in *. simpl in *.
  split; [apply Hx | apply Hy]; lra.
Qed.

Lemma integrate_velocity delta h : withinSpeed (Horseman.velocity (integrate delta h)).
Proof.
  unfold integrate.
  set (vx := clamp (Vec.x (Horseman.velocity h)) _ _).
  set (vy := clamp (Vec.y (Horseman.velocity h)) _ _).
  assert (Hvx : - HORSEMAN_MAX_SPEED <= vx <= HORSEMAN_MAX_SPEED)
    by (apply clamp_bounds; unfold HORSEMAN_MAX_SPEED; lra).
  assert (Hvy : - HORSEMAN_MAX_SPEED <= vy <= HORSEMAN_MAX_SPEED)
    by (apply clamp_bounds; unfold HORSEMAN_MAX_SPEED; lra).
  pose proof (bounce_velocity (Vec.x (Horseman.position h) + vx * (delta / 16))
                (vx * HORSEMAN_FRICTION) 40 (CANVAS_WIDTH - 40) HORSEMAN_MAX_SPEED) as Hx.
  pose proof (bounce_velocity (Vec.y (Horseman.position h) + vy * (delta / 16))
                (vy * HORSEMAN_FRICTION) 50 (CANVAS_HEIGHT - 100) HORSEMAN_MAX_SPEED) as Hy.
  destruct (bounce (Vec.x _ + _) _ 40 _) as [px vx'].
  destruct (bounce (Vec.y _ + _) _ 50 _) as [py vy'].
  unfold withinSpeed, HORSEMAN_MAX_SPEED, HORSEMAN_FRICTION in *. simpl in *.
  split; apply Qabs_Qle_condition; [apply Hx | apply Hy]; lra.
Qed.

Lemma integrate_score delta h : Horseman.score (integrate delta h) = Horseman.score h.
Proof.
  unfold integrate.
  destruct (bounce _ _ 40 _) as [px vx'].
  destruct (bounce _ _ 50 _) as [py vy'].
  reflexivity.
Qed.

Section VisitLoop.
Variables (delta : Q) (wander : nat -> Q) (activeHorseman : nat).

Lemma visit_length hs i hs' :
  visit delta wander activeHorseman hs i = Some hs' -> length hs' = length hs.
Proof.
  unfold visit. intros H.
  destruct (hs !! i) as [h |]; [| congruence].
  destruct (Nat.eqb i activeHorseman).
  - inversion H. apply length_insert.
  - destruct (hs !! activeHorseman); inversion H. apply length_insert.
Qed.

Lemma visit_other hs i hs' j :
  visit delta wander activeHorseman hs i = Some hs' -> j <> i -> hs' !! j = hs !! j.
Proof.
  unfold visit. intros H Hne.
  destruct (hs !! i) as [h |]; [| congruence].
  destruct (Nat.eqb i activeHorseman).
  - inversion H. apply list_lookup_insert_ne. congruence.
  - destruct (hs !! activeHorseman); inversion H.
    apply list_lookup_insert_ne. congruence.
Qed.

Lemma visit_same hs i hs' :
  visit delta wander activeHorseman hs i = Some hs' -> (i < length hs)%nat ->
  exists h', hs' !! i = Some h' /\ integrated delta h'.
Proof.
  unfold visit. intros H Hlt.
  destruct (hs !! i) as [h |] eqn:Ei.
  - destruct (Nat.eqb i activeHorseman).
    + inversion H. eexists. split.
      * apply list_lookup_insert_eq. exact Hlt.
      * eexists. reflexivity.
    + destruct (hs !! activeHorseman); inversion H. eexists. split.
      * apply list_lookup_insert_eq. exact Hlt.
      * eexists. reflexivity.
  - apply lookup_ge_None in Ei. lia.
Qed.

Lemma visit_total hs i :
  (activeHorseman < length hs)%nat ->
  exists hs', visit delta wander activeHorseman hs i = Some hs'.
Proof.
  intros Hlt. unfold visit.
  destruct (hs !! i); [| eauto].
  destruct (Nat.eqb i activeHorseman); [eauto |].
  destruct (lookup_lt_is_Some_2 hs activeHorseman Hlt) as [a ->]. eauto.
Qed.

(** Visiting the indices [k, k+n) in order leaves every index below
    [k+n] integrated, provided those below [k] already were. *)
Lemma visitAll_seq n : forall k hs hs',
  visitAll delta wander activeHorseman (seq k n) hs = Some hs' ->
  (forall j h, (j < k)%nat -> hs !! j = Some h -> integrated delta h) ->
  length hs' = length hs /\
  (forall j h, (j < k + n)%nat -> hs' !! j = Some h -> integrated delta h).
Proof.
  induction n as [| n IH]; intros k hs hs' H Hdone; simpl in H.
  - inversion H. subst. split; [reflexivity |].
    intros j h Hj. apply Hdone. lia.
  - destruct (visit delta wander activeHorseman hs k) as [hs1 |] eqn:Ev; [| discriminate].
    destruct (IH (S k) hs1 hs' H) as [Hlen Hall].
    + intros j h Hj Hl.
      destruct (decide (j = k)) as [-> | Hne].
      * assert (Hk : (k < length hs)%nat).
        { rewrite <- (visit_length _ _ _ Ev). eapply lookup_lt_Some. exact Hl. }
        destruct (visit_same _ _ _ Ev Hk) as [h' [Hl' Hi]]. congruence.
      * rewrite (visit_other _ _ _ _ Ev Hne) in Hl. eapply Hdone; [| exact Hl]. lia.
    + split.
      * rewrite Hlen. eapply visit_length. exact Ev.
      * intros j h Hj. apply Hall. lia.
Qed.

Lemma visitAll_total indices : forall hs,
  (activeHorseman < length hs)%nat ->
  exists hs', visitAll delta wander activeHorseman indices hs = Some hs'.
Proof.
  induction indices as [| i rest IH]; intros hs Hlt; simpl.
  - eauto.
  - destruct (visit_total hs i Hlt) as [hs1 Ev]. rewrite Ev.
    apply IH. rewrite (visit_length _ _ _ Ev). exact Hlt.
Qed.
End VisitLoop.

Lemma updateHorsemen_integrated pressedKeys activeHorseman wander delta hs hs' :
  updateHorsemen pressedKeys activeHorseman wander delta hs = Some hs' ->
  length hs' = length hs /\ Forall (integrated delta) hs'.
Proof.
  unfold updateHorsemen. intros H.
  apply visitAll_seq in H; [| intros j h Hj; lia].
  destruct H as [Hlen Hall]. rewrite length_alter in Hlen.
  split; [exact Hlen |].
  apply Forall_lookup. intros j h Hl. eapply Hall; [| exact Hl].
  apply lookup_lt_Some in Hl. rewrite length_alter. lia.
Qed.

Lemma updateHorsemen_total pressedKeys activeHorseman wander delta hs :
  (activeHorseman < length hs)%nat ->
  exists hs', updateHorsemen pressedKeys activeHorseman wander delta hs = Some hs'.
Proof.
  intros Hlt. unfold updateHorsemen.
  apply visitAll_total. rewrite length_alter. exact Hlt.
Qed.


(** ** One tick, unfolded *)

Lemma updateClouds_canvas delta : forall cs c canvas,
  snd (updateClouds random delta c cs canvas)
    = canvas ++ map drawCloud (fst (fst (updateClouds random delta c cs canvas))).
Proof.
  induction cs as [| cloud rest IH]; intros c canvas; simpl.
  - symmetry. apply app_nil_r.
  - destruct (cloudMotion random delta c cloud) as [cloud1 c1].
    specialize (IH c1 (canvas ++ [drawCloud cloud1])).
    destruct (updateClouds random delta c1 rest (canvas ++ [drawCloud cloud1]))
      as [[rest2 c2] canvas2].
    simpl in *. rewrite IH, <- app_assoc. reflexivity.
Qed.

Lemma step_unfold timestamp wander g :
  step random timestamp wander g =
  let delta := timestamp - Game.lastTime g in
  let cl := updateClouds random delta (Game.cursor g) (Game.clouds g)
              [Backdrop (Game.seenElapsed g)] in
  match updateHorsemen (Game.pressedKeys g) (Game.activeHorseman g) wander
          delta (Game.horsemen g) with
  | None => None
  | Some hs =>
      Some (afterTick timestamp g cl
              (updateOrbs random delta (Game.orbTimer g + delta) (snd (fst cl))
                 hs (Game.orbs g)))
  end.
Proof.
  unfold step, stepBody, afterTick.
  cbn [runPhases runPhase advanceClock setCanvas setWorld setOrbTimer requestFrame
       Game.canvas Game.seenElapsed Game.cursor Game.clouds Game.horsemen
       Game.orbs Game.pressedKeys Game.activeHorseman Game.orbTimer Game.lastTime
       Game.elapsed Game.raf app].
  destruct (updateClouds random _ (Game.cursor g) (Game.clouds g) _) as [[cs c] canvas].
  cbn [runPhases runPhase advanceClock setCanvas setWorld setOrbTimer requestFrame
       Game.canvas Game.seenElapsed Game.cursor Game.clouds Game.horsemen
       Game.orbs Game.pressedKeys Game.activeHorseman Game.orbTimer Game.lastTime
       Game.elapsed Game.raf app fst snd].
  destruct (updateHorsemen _ _ _ _ _) as [hs |]; [| reflexivity].
  cbn [runPhases runPhase advanceClock setCanvas setWorld setOrbTimer requestFrame
       Game.canvas Game.seenElapsed Game.cursor Game.clouds Game.horsemen
       Game.orbs Game.pressedKeys Game.activeHorseman Game.orbTimer Game.lastTime
       Game.elapsed Game.raf app fst snd].
  destruct (updateOrbs random _ _ c hs (Game.orbs g)) as [[[hs2 os] timer] c2].
  reflexivity.
Qed.


(** ** The motion pass *)

(** A parked orb is left where it is, without velocity. *)
Lemma orbMotion_parked delta orb : parked orb -> parked (orbMotion delta orb).
Proof.
  unfold parked, orbMotion, SENTINEL, CANVAS_WIDTH, CANVAS_HEIGHT.
  intros [Hx [Hy [Hvx Hvy]]]. cbn [Orb.position Orb.velocity Vec.x Vec.y].
  repeat split.
  - rewrite Hx, Hvx. ring.
  - rewrite Hy, Hvy. ring.
  - destruct (Qltb _ 50 || Qgtb _ _); rewrite Hvx; ring.
  - destruct (Qltb _ 50 || Qgtb _ _); rewrite Hvy; ring.
Qed.


(** ** The pickup pass *)

Lemma near_position h h' orb :
  Horseman.position h' = Horseman.position h -> near h' orb = near h orb.
Proof. unfold near. intros ->. reflexivity. Qed.

Lemma near_sentinel h orb :
  inPlayfield (Horseman.position h) -> atSentinel orb -> near h orb = false.
Proof.
  intros [[Hx _] [Hy _]] [Ex Ey].
  unfold near, distanceLt, distanceSq. apply Qltb_ge.
  unfold SENTINEL in *.
  set (dx := Vec.x (Horseman.position h) - Vec.x (Orb.position orb)).
  set (dy := Vec.y (Horseman.position h) - Vec.y (Orb.position orb)).
  assert (Hdx : 42 <= dx) by (unfold dx; lra).
  assert (Hdy : 0 <= dy) by (unfold dy; lra).
  assert (H1 : 42 * 42 <= dx * dx).
  { apply Qmult_le_compat_nonneg; split; lra. }
  assert (H2 : 0 <= dy * dy) by (apply Qmult_le_0_compat; exact Hdy).
  lra.
Qed.

Lemma collect_fst h orb :
  Horseman.position (fst (collect h orb)) = Horseman.position h /\
  Horseman.velocity (fst (collect h orb)) = Horseman.velocity h /\
  Horseman.score (fst (collect h orb))
    = (Horseman.score h + (if near h orb then 1 else 0))%nat.
Proof.
  unfold collect. destruct (near h orb); simpl; repeat split; lia.
Qed.

Lemma collect_snd h orb :
  snd (collect h orb) = if near h orb then capture orb else orb.
Proof. unfold collect. destruct (near h orb); reflexivity. Qed.

Lemma firing_position orbs : forall h h' j,
  Horseman.position h' = Horseman.position h -> firing h' j orbs = firing h j orbs.
Proof.
  induction orbs as [| orb rest IH]; intros h h' j E; simpl; [reflexivity |].
  rewrite (near_position _ _ orb E), (IH h h' (S j) E). reflexivity.
Qed.

Lemma collectOrbs_spec orbs : forall h j,
  Horseman.position (fst (collectOrbs h orbs)) = Horseman.position h /\
  Horseman.velocity (fst (collectOrbs h orbs)) = Horseman.velocity h /\
  Horseman.score (fst (collectOrbs h orbs))
    = (Horseman.score h + length (firing h j orbs))%nat /\
  snd (collectOrbs h orbs) = map (fun o => if near h o then capture o else o) orbs.
Proof.
  induction orbs as [| orb rest IH]; intros h j; simpl.
  - repeat split; lia.
  - pose proof (collect_fst h orb) as [Ep [Ev Es]].
    pose proof (collect_snd h orb) as Eo.
    destruct (collect h orb) as [h1 orb1]. simpl in *.
    destruct (IH h1 (S j)) as [Ep2 [Ev2 [Es2 Eo2]]].
    destruct (collectOrbs h1 rest) as [h2 rest2]. simpl in *.
    rewrite (firing_position rest h h1 (S j) Ep) in Es2.
    repeat split; try congruence.
    + rewrite Es2, Es. destruct (near h orb); simpl; lia.
    + rewrite Eo2, Eo. f_equal. apply map_ext. intros o.
      rewrite (near_position _ _ o Ep). reflexivity.
Qed.

Lemma pickup_cons h rest orbs :
  pickup (h :: rest) orbs =
    (fst (collectOrbs h orbs) :: fst (pickup rest (snd (collectOrbs h orbs))),
     snd (pickup rest (snd (collectOrbs h orbs)))).
Proof.
  simpl. destruct (collectOrbs h orbs) as [h1 orbs1]. simpl.
  destruct (pickup rest orbs1) as [rest2 orbs2]. reflexivity.
Qed.

(** The horsemen keep place and speed; the scores grow by the number of
    pickups. *)
Lemma pickup_horsemen hs : forall orbs i,
  map Horseman.position (fst (pickup hs orbs)) = map Horseman.position hs /\
  map Horseman.velocity (fst (pickup hs orbs)) = map Horseman.velocity hs /\
  totalScore (fst (pickup hs orbs))
    = (totalScore hs + length (pickupEvents i hs orbs))%nat.
Proof.
  induction hs as [| h rest IH]; intros orbs i.
  - simpl. repeat split; reflexivity.
  - rewrite pickup_cons. cbn [fst snd map pickupEvents].
    destruct (collectOrbs_spec orbs h 0%nat) as [Ep [Ev [Es _]]].
    destruct (IH (snd (collectOrbs h orbs)) (S i)) as [Ep2 [Ev2 Es2]].
    repeat split; try congruence.
    unfold totalScore in *. cbn [map sum_list sum_list_with].
    rewrite length_app, length_map, Es2, Es. unfold id. lia.
Qed.

(** Every orb is kept or parked by the pass. *)
Lemma collectOrbs_orbs h orbs : Forall2 keptOrParked orbs (snd (collectOrbs h orbs)).
Proof.
  destruct (collectOrbs_spec orbs h 0%nat) as [_ [_ [_ ->]]].
  induction orbs as [| orb rest IH]; simpl; constructor; [| exact IH].
  unfold keptOrParked. destruct (near h orb); auto.
Qed.

Lemma capture_capture orb : capture (capture orb) = capture orb.
Proof. reflexivity. Qed.

Lemma keptOrParked_trans a b c :
  keptOrParked a b -> keptOrParked b c -> keptOrParked a c.
Proof.
  unfold keptOrParked. intros [-> | ->] [-> | ->]; auto.
Qed.

Lemma Forall2_keptOrParked_trans : forall l1 l2 l3,
  Forall2 keptOrParked l1 l2 -> Forall2 keptOrParked l2 l3 ->
  Forall2 keptOrParked l1 l3.
Proof.
  intros l1 l2 l3 H12. revert l3.
  induction H12 as [| a b l1 l2 Hab _ IH]; intros l3 H23; inversion H23; subst.
  - constructor.
  - constructor; [eapply keptOrParked_trans; eassumption | apply IH; assumption].
Qed.

Lemma pickup_orbs hs : forall orbs, Forall2 keptOrParked orbs (snd (pickup hs orbs)).
Proof.
  induction hs as [| h rest IH]; intros orbs.
  - simpl. induction orbs; constructor; [left; reflexivity | assumption].
  - rewrite pickup_cons. cbn [snd].
    eapply Forall2_keptOrParked_trans; [apply collectOrbs_orbs | apply IH].
Qed.

Lemma parked_capture orb : parked (capture orb).
Proof. unfold parked, capture, SENTINEL. simpl. repeat split; reflexivity. Qed.

Lemma keptOrParked_parked orb orb' :
  keptOrParked orb orb' -> parked orb -> parked orb'.
Proof. intros [-> | ->] H; [exact H | apply parked_capture]. Qed.

Lemma parked_atSentinel orb : parked orb -> atSentinel orb.
Proof. intros [Hx [Hy _]]. split; assumption. Qed.

(** ** Counting the pickups of one orb *)

Lemma collectionsOf_app j l1 l2 :
  collectionsOf j (l1 ++ l2) = (collectionsOf j l1 + collectionsOf j l2)%nat.
Proof. unfold collectionsOf. rewrite filter_app, length_app. reflexivity. Qed.

Lemma collectionsOf_cons j e l :
  collectionsOf j (e :: l)
    = ((if decide (snd e = j) then 1 else 0) + collectionsOf j l)%nat.
Proof.
  unfold collectionsOf. rewrite filter_cons.
  destruct (decide (snd e = j)); reflexivity.
Qed.

(** The inner loop meets each orb once. *)
Lemma collectionsOf_firing h i orbs : forall k j,
  collectionsOf j (map (pair i) (firing h k orbs)) =
    if decide (k <= j)%nat
    then match orbs !! (j - k)%nat with
         | Some o => if near h o then 1%nat else 0%nat
         | None => 0%nat
         end
    else 0%nat.
Proof.
  induction orbs as [| orb rest IH]; intros k j.
  - simpl. destruct (decide (k <= j)%nat); reflexivity.
  - assert (Hrest : collectionsOf j (map (pair i) (firing h (S k) rest)) =
              if decide (k < j)%nat
              then match rest !! (j - S k)%nat with
                   | Some o => if near h o then 1%nat else 0%nat
                   | None => 0%nat
                   end
              else 0%nat).
    { rewrite IH. destruct (decide (S k <= j)%nat), (decide (k < j)%nat);
        try reflexivity; lia. }
    assert (Hhead : collectionsOf j (map (pair i) (firing h k (orb :: rest))) =
              ((if near h orb then if decide (k = j) then 1 else 0 else 0)
               + collectionsOf j (map (pair i) (firing h (S k) rest)))%nat).
    { simpl. destruct (near h orb); [| reflexivity].
      cbn [map]. rewrite collectionsOf_cons. reflexivity. }
    rewrite Hhead, Hrest.
    destruct (decide (k <= j)%nat) as [Hle | Hgt].
    + destruct (decide (k = j)) as [-> | Hne].
      * replace (j - j)%nat with 0%nat by lia. simpl.
        destruct (decide (j < j)%nat); [lia |]. destruct (near h orb); reflexivity.
      * destruct (decide (k < j)%nat); [| lia].
        replace (j - k)%nat with (S (j - S k)) by lia. simpl.
        destruct (near h orb); reflexivity.
    + destruct (decide (k = j)); [lia |]. destruct (decide (k < j)%nat); [lia |].
      destruct (near h orb); reflexivity.
Qed.

Section PickupCount.
Variable j : nat.

(** An orb that is at the sentinel, or absent, is collected by nobody. *)
Lemma pickupEvents_sentinel hs : forall orbs i,
  Forall (fun h => inPlayfield (Horseman.position h)) hs ->
  (forall o, orbs !! j = Some o -> atSentinel o) ->
  collectionsOf j (pickupEvents i hs orbs) = 0%nat.
Proof.
  induction hs as [| h rest IH]; intros orbs i Hin Hs; [reflexivity |].
  inversion Hin as [| ? ? Hh Hrest]; subst.
  cbn [pickupEvents]. rewrite collectionsOf_app, collectionsOf_firing.
  rewrite (IH _ _ Hrest).
  - destruct (decide (0 <= j)%nat); [| reflexivity].
    replace (j - 0)%nat with j by lia.
    destruct (orbs !! j) as [o |] eqn:Eo; [| reflexivity].
    rewrite (near_sentinel h o Hh (Hs o eq_refl)). reflexivity.
  - intros o' Ho'.
    destruct (Forall2_lookup_r _ _ _ _ _ (collectOrbs_orbs h orbs) Ho')
      as [o [Ho [-> | ->]]].
    + apply Hs. exact Ho.
    + apply parked_atSentinel, parked_capture.
Qed.

(** Nobody collects an orb after somebody else did. *)
Lemma pickupEvents_once hs : forall orbs i,
  Forall (fun h => inPlayfield (Horseman.position h)) hs ->
  (collectionsOf j (pickupEvents i hs orbs) <= 1)%nat.
Proof.
  induction hs as [| h rest IH]; intros orbs i Hin.
  - cbn. lia.
  - inversion Hin as [| ? ? Hh Hrest]; subst.
    cbn [pickupEvents]. rewrite collectionsOf_app, collectionsOf_firing.
    destruct (decide (0 <= j)%nat); [| lia].
    replace (j - 0)%nat with j by lia.
    specialize (IH (snd (collectOrbs h orbs)) (S i) Hrest).
    destruct (orbs !! j) as [o |] eqn:Eo; [| lia].
    destruct (near h o) eqn:En; [| lia].
    rewrite (pickupEvents_sentinel rest _ _ Hrest); [lia |].
    intros o' Ho'.
    destruct (collectOrbs_spec orbs h 0%nat) as [_ [_ [_ Emap]]].
    rewrite Emap, list_lookup_fmap, Eo in Ho'. simpl in Ho'.
    rewrite En in Ho'. inversion Ho'. apply parked_atSentinel, parked_capture.
Qed.
End PickupCount.


(** ** What [updateOrbs] returns *)

Lemma updateOrbs_quiet delta timer c hs orbs :
  Qgtb timer ORB_RESPAWN_TIME = false ->
  updateOrbs random delta timer c hs orbs =
    (fst (pickup hs (map (orbMotion delta) orbs)),
     snd (pickup hs (map (orbMotion delta) orbs)), timer, c).
Proof.
  intros H. unfold updateOrbs.
  destruct (pickup hs (map (orbMotion delta) orbs)) as [hs2 orbs2].
  rewrite H. reflexivity.
Qed.

Lemma updateOrbs_sweep delta timer c hs orbs :
  Qgtb timer ORB_RESPAWN_TIME = true ->
  updateOrbs random delta timer c hs orbs =
    (fst (pickup hs (map (orbMotion delta) orbs)),
     fst (respawnAll random c (snd (pickup hs (map (orbMotion delta) orbs)))),
     0,
     snd (respawnAll random c (snd (pickup hs (map (orbMotion delta) orbs))))).
Proof.
  intros H. unfold updateOrbs.
  destruct (pickup hs (map (orbMotion delta) orbs)) as [hs2 orbs2].
  rewrite H. simpl. destruct (respawnAll random c orbs2). reflexivity.
Qed.

Lemma updateOrbs_horsemen delta timer c hs orbs :
  fst (fst (fst (updateOrbs random delta timer c hs orbs)))
    = fst (pickup hs (map (orbMotion delta) orbs)).
Proof.
  destruct (Qgtb timer ORB_RESPAWN_TIME) eqn:E.
  - rewrite updateOrbs_sweep by exact E. reflexivity.
  - rewrite updateOrbs_quiet by exact E. reflexivity.
Qed.

(** ** The horsemen after a whole tick *)

Lemma updateHorsemen_scores pressedKeys activeHorseman wander delta hs hs' :
  updateHorsemen pressedKeys activeHorseman wander delta hs = Some hs' ->
  map Horseman.score hs' = map Horseman.score hs.
Proof.
  unfold updateHorsemen.
  set (hs1 := alter _ activeHorseman hs).
  assert (E1 : map Horseman.score hs1 = map Horseman.score hs).
  { unfold hs1. apply list_eq. intros i.
    rewrite !list_lookup_fmap.
    destruct (decide (i = activeHorseman)) as [-> | Hne].
    - rewrite list_lookup_alter_eq. destruct (hs !! activeHorseman) as [h |]; [| reflexivity].
      simpl. f_equal. unfold steer.
      destruct (truthy _ || truthy _); reflexivity.
    - rewrite list_lookup_alter_ne by congruence. reflexivity. }
  rewrite <- E1. generalize (seq 0 (length hs1)). clear E1. generalize hs1. clear hs1.
  intros hs1 indices. revert hs1.
  induction indices as [| i rest IH]; intros hs1 H; simpl in H.
  - congruence.
  - destruct (visit delta wander activeHorseman hs1 i) as [hs2 |] eqn:Ev; [| discriminate].
    rewrite (IH _ H). clear IH H.
    unfold visit in Ev.
    destruct (hs1 !! i) as [h |] eqn:Ei; [| congruence].
    assert (Hid : forall h', Horseman.score h' = Horseman.score h ->
               map Horseman.score (<[i := h']> hs1) = map Horseman.score hs1).
    { intros h' Es. rewrite list_fmap_insert, Es. apply list_insert_id.
      rewrite list_lookup_fmap, Ei. reflexivity. }
    destruct (Nat.eqb i activeHorseman).
    + inversion Ev. apply Hid. apply integrate_score.
    + destruct (hs1 !! activeHorseman); inversion Ev.
      apply Hid. rewrite integrate_score. reflexivity.
Qed.

(** The horsemen a tick ends with are those [updateHorsemen] made, but
    for their scores. *)
Lemma step_horsemen timestamp wander g :
  (Game.activeHorseman g < length (Game.horsemen g))%nat ->
  exists g' hs,
    step random timestamp wander g = Some g' /\
    updateHorsemen (Game.pressedKeys g) (Game.activeHorseman g) wander
      (timestamp - Game.lastTime g) (Game.horsemen g) = Some hs /\
    length hs = length (Game.horsemen g) /\
    Forall (integrated (timestamp - Game.lastTime g)) hs /\
    Game.horsemen g'
      = fst (pickup hs (map (orbMotion (timestamp - Game.lastTime g)) (Game.orbs g))).
Proof.
  intros Hlt. rewrite step_unfold. cbv zeta.
  destruct (updateHorsemen_total (Game.pressedKeys g) (Game.activeHorseman g)
              wander (timestamp - Game.lastTime g) (Game.horsemen g) Hlt) as [hs Eh].
  rewrite Eh. eexists. exists hs. split; [reflexivity |].
  destruct (updateHorsemen_integrated _ _ _ _ _ _ Eh) as [Hlen Hint].
  repeat split; try assumption.
  unfold afterTick. cbn [Game.horsemen]. apply updateOrbs_horsemen.
Qed.

Lemma pickup_length hs orbs : length (fst (pickup hs orbs)) = length hs.
Proof.
  destruct (pickup_horsemen hs orbs 0%nat) as [Ep _].
  apply (f_equal (@length _)) in Ep. rewrite !length_map in Ep. exact Ep.
Qed.

(** C1: after every tick each horseman stands inside the inset rectangle
    [40, 920] x [50, 460] (960 - 40 and 560 - 100), and the tick does
    produce a state whenever the controlled index names a horseman. *)
Theorem agents_stay_in_playfield timestamp wander g :
  (Game.activeHorseman g < length (Game.horsemen g))%nat ->
  exists g',
    step random timestamp wander g = Some g' /\
    length (Game.horsemen g') = length (Game.horsemen g) /\
    forall i h, Game.horsemen g' !! i = Some h ->
      (40 <= Vec.x (Horseman.position h) <= CANVAS_WIDTH - 40) /\
      (50 <= Vec.y (Horseman.position h) <= CANVAS_HEIGHT - 100).
Proof.
  intros Hlt.
  destruct (step_horsemen timestamp wander g Hlt) as [g' [hs [Es [_ [Hlen [Hint Eg]]]]]].
  exists g'. split; [exact Es |]. rewrite Eg. split.
  - rewrite pickup_length. exact Hlen.
  - intros i h Hi.
    destruct (pickup_horsemen hs
                (map (orbMotion (timestamp - Game.lastTime g)) (Game.orbs g)) 0%nat)
      as [Ep _].
    assert (Hp : map Horseman.position hs !! i = Some (Horseman.position h)).
    { rewrite <- Ep, list_lookup_fmap, Hi. reflexivity. }
    rewrite list_lookup_fmap in Hp.
    destruct (hs !! i) as [h0 |] eqn:E0; [| discriminate].
    simpl in Hp. inversion Hp as [Hp'].
    rewrite Forall_lookup in Hint. destruct (Hint i h0 E0) as [h1 ->].
    pose proof (integrate_position (timestamp - Game.lastTime g) h1) as Hin.
    unfold inPlayfield, CANVAS_WIDTH, CANVAS_HEIGHT in *. lra.
Qed.

Lemma Qabs_cases a : (0 <= a /\ Qabs a == a) \/ (a < 0 /\ Qabs a == - a).
Proof.
  destruct (Qlt_le_dec a 0) as [H | H].
  - right. split; [exact H |]. apply Qabs_neg. lra.
  - left. split; [exact H |]. apply Qabs_pos. exact H.
Qed.

(** Friction and the reflection at a wall only shrink a component. *)
Lemma bounce_friction_shrinks p c lo hi :
  Qabs (snd (bounce p (c * HORSEMAN_FRICTION) lo hi)) <= Qabs c.
Proof.
  unfold bounce, HORSEMAN_FRICTION.
  destruct (Qabs_cases c) as [[Hc Ec] | [Hc Ec]]; rewrite Ec;
    destruct (Qltb p lo || Qgtb p hi); cbn [snd];
    apply (proj2 (Qabs_Qle_condition _ _)); lra.
Qed.

Lemma integrate_shrinks delta h :
  let cx := clamp (Vec.x (Horseman.velocity h)) (- HORSEMAN_MAX_SPEED) HORSEMAN_MAX_SPEED in
  let cy := clamp (Vec.y (Horseman.velocity h)) (- HORSEMAN_MAX_SPEED) HORSEMAN_MAX_SPEED in
  Qabs (Vec.x (Horseman.velocity (integrate delta h))) <= Qabs cx /\
  Qabs (Vec.y (Horseman.velocity (integrate delta h))) <= Qabs cy /\
  Qabs cx <= HORSEMAN_MAX_SPEED /\ Qabs cy <= HORSEMAN_MAX_SPEED.
Proof.
  intros cx cy. unfold integrate. fold cx cy.
  pose proof (bounce_friction_shrinks
                (Vec.x (Horseman.position h) + cx * (delta / 16)) cx
                40 (CANVAS_WIDTH - 40)) as Hx.
  pose proof (bounce_friction_shrinks
                (Vec.y (Horseman.position h) + cy * (delta / 16)) cy
                50 (CANVAS_HEIGHT - 100)) as Hy.
  destruct (bounce (Vec.x _ + _) _ 40 _) as [px' vx'].
  destruct (bounce (Vec.y _ + _) _ 50 _) as [py' vy'].
  cbn [Horseman.velocity setTilt setPosition setVelocity Vec.x Vec.y snd] in *.
  repeat split; try assumption;
    apply (proj2 (Qabs_Qle_condition _ _)); apply clamp_bounds;
    unfold HORSEMAN_MAX_SPEED; lra.
Qed.

(** The speed limit after a tick, read on the horsemen the tick ends
    with, and the effect of friction and reflection in [integrate]. *)
Lemma step_within_speed timestamp wander g :
  (Game.activeHorseman g < length (Game.horsemen g))%nat ->
  (exists g',
     step random timestamp wander g = Some g' /\
     forall i h, Game.horsemen g' !! i = Some h ->
       Qabs (Vec.x (Horseman.velocity h)) <= HORSEMAN_MAX_SPEED /\
       Qabs (Vec.y (Horseman.velocity h)) <= HORSEMAN_MAX_SPEED) /\
  (forall delta h,
     let cx := clamp (Vec.x (Horseman.velocity h))
                 (- HORSEMAN_MAX_SPEED) HORSEMAN_MAX_SPEED in
     let cy := clamp (Vec.y (Horseman.velocity h))
                 (- HORSEMAN_MAX_SPEED) HORSEMAN_MAX_SPEED in
     Qabs (Vec.x (Horseman.velocity (integrate delta h))) <= Qabs cx /\
     Qabs (Vec.y (Horseman.velocity (integrate delta h))) <= Qabs cy /\
     Qabs cx <= HORSEMAN_MAX_SPEED /\ Qabs cy <= HORSEMAN_MAX_SPEED).
Proof.
  intros Hlt. split; [| apply integrate_shrinks].
  destruct (step_horsemen timestamp wander g Hlt) as [g' [hs [Es [_ [Hlen [Hint Eg]]]]]].
  exists g'. split; [exact Es |]. rewrite Eg.
  intros i h Hi.
  destruct (pickup_horsemen hs
              (map (orbMotion (timestamp - Game.lastTime g)) (Game.orbs g)) 0%nat)
    as [_ [Ev _]].
  assert (Hp : map Horseman.velocity hs !! i = Some (Horseman.velocity h)).
  { rewrite <- Ev, list_lookup_fmap, Hi. reflexivity. }
  rewrite list_lookup_fmap in Hp.
  destruct (hs !! i) as [h0 |] eqn:E0; [| discriminate].
  simpl in Hp. inversion Hp as [Hp'].
  rewrite Forall_lookup in Hint. destruct (Hint i h0 E0) as [h1 ->].
  apply integrate_velocity.
Qed.

(** C2: in every tick each orb is collected by at most one horseman, an
    orb that starts the tick parked is collected by none, and the scores
    grow by exactly the number of collections. *)
Theorem one_collector_per_orb timestamp wander g :
  (Game.activeHorseman g < length (Game.horsemen g))%nat ->
  exists g',
    step random timestamp wander g = Some g' /\
    (forall j, (collectionsOf j (tickEvents timestamp wander g) <= 1)%nat) /\
    (forall j orb, Game.orbs g !! j = Some orb -> parked orb ->
       collectionsOf j (tickEvents timestamp wander g) = 0%nat) /\
    totalScore (Game.horsemen g')
      = (totalScore (Game.horsemen g) + length (tickEvents timestamp wander g))%nat.
Proof.
  intros Hlt.
  destruct (step_horsemen timestamp wander g Hlt) as [g' [hs [Es [Eh [Hlen [Hint Eg]]]]]].
  exists g'. split; [exact Es |].
  unfold tickEvents. cbv zeta. rewrite Eh.
  assert (Hin : Forall (fun h => inPlayfield (Horseman.position h)) hs).
  { eapply Forall_impl; [exact Hint |]. intros h [h0 ->]. apply integrate_position. }
  split; [| split].
  - intros j. apply pickupEvents_once. exact Hin.
  - intros j orb Hj Hp. apply pickupEvents_sentinel; [exact Hin |].
    intros o Ho. rewrite list_lookup_fmap, Hj in Ho. inversion Ho.
    apply parked_atSentinel, orbMotion_parked. exact Hp.
  - rewrite Eg.
    destruct (pickup_horsemen hs
                (map (orbMotion (timestamp - Game.lastTime g)) (Game.orbs g)) 0%nat)
      as [_ [_ Et]].
    rewrite Et. unfold totalScore.
    rewrite (updateHorsemen_scores _ _ _ _ _ _ Eh). reflexivity.
Qed.


(** ** Parked orbs across events *)

(** An orb somebody collected in a pickup pass ends the pass parked. *)
Lemma pickup_collected_parked j hs : forall orbs i,
  (1 <= collectionsOf j (pickupEvents i hs orbs))%nat ->
  exists o', snd (pickup hs orbs) !! j = Some o' /\ parked o'.
Proof.
  induction hs as [| h rest IH]; intros orbs i Hc.
  - cbn in Hc. lia.
  - rewrite pickup_cons. cbn [snd].
    cbn [pickupEvents] in Hc.
    rewrite collectionsOf_app, collectionsOf_firing in Hc.
    destruct (decide (0 <= j)%nat); [| lia].
    replace (j - 0)%nat with j in Hc by lia.
    destruct (collectOrbs_spec orbs h 0%nat) as [_ [_ [_ Emap]]].
    destruct (orbs !! j) as [o |] eqn:Eo.
    + destruct (near h o) eqn:En.
      * assert (E1 : snd (collectOrbs h orbs) !! j = Some (capture o)).
        { rewrite Emap, list_lookup_fmap, Eo. simpl. rewrite En. reflexivity. }
        destruct (Forall2_lookup_l _ _ _ _ _ (pickup_orbs rest (snd (collectOrbs h orbs))) E1)
          as [o' [Ho' Hk]].
        exists o'. split; [exact Ho' |].
        eapply keptOrParked_parked; [exact Hk | apply parked_capture].
      * apply (IH _ (S i)). lia.
    + apply (IH _ (S i)). lia.
Qed.

Lemma pickup_parked j hs orbs o :
  orbs !! j = Some o -> parked o ->
  exists o', snd (pickup hs orbs) !! j = Some o' /\ parked o'.
Proof.
  intros Ho Hp.
  destruct (Forall2_lookup_l _ _ _ _ _ (pickup_orbs hs orbs) Ho) as [o' [Ho' Hk]].
  exists o'. split; [exact Ho' |]. eapply keptOrParked_parked; eassumption.
Qed.

(** The orbs after a frame that does not sweep. *)
Lemma step_quiet_orbs timestamp wander g g' :
  step random timestamp wander g = Some g' ->
  sweeps (Frame timestamp wander) g = false ->
  exists hs,
    updateHorsemen (Game.pressedKeys g) (Game.activeHorseman g) wander
      (timestamp - Game.lastTime g) (Game.horsemen g) = Some hs /\
    Game.orbs g'
      = snd (pickup hs (map (orbMotion (timestamp - Game.lastTime g)) (Game.orbs g))) /\
    Game.orbTimer g' = Game.orbTimer g + (timestamp - Game.lastTime g).
Proof.
  rewrite step_unfold. cbv zeta. intros Es Hq. cbn [sweeps] in Hq.
  destruct (updateHorsemen _ _ _ _ _) as [hs |]; [| discriminate].
  exists hs. split; [reflexivity |].
  rewrite updateOrbs_quiet in Es by exact Hq.
  inversion Es. unfold afterTick. cbn [Game.orbs Game.orbTimer fst snd].
  split; reflexivity.
Qed.

Lemma setActiveHorseman_world now idx g :
  world (setActiveHorseman now idx g) = world g.
Proof.
  unfold setActiveHorseman. destruct (Nat.eqb idx (Game.activeHorseman g)); reflexivity.
Qed.

Lemma handleKeyDown_world now key g g' :
  handleKeyDown now key g = Some g' -> world g' = world g.
Proof.
  unfold handleKeyDown. intros H.
  destruct (String.leb "1" key && String.leb key "4").
  - destruct (Number key); inversion H. rewrite setActiveHorseman_world. reflexivity.
  - inversion H. reflexivity.
Qed.

Lemma world_orbs g g' : world g' = world g -> Game.orbs g' = Game.orbs g.
Proof. unfold world. intros H. inversion H. reflexivity. Qed.

Lemma react_quiet_parked e g g' j o :
  react random e g = Some g' -> sweeps e g = false ->
  Game.orbs g !! j = Some o -> parked o ->
  exists o', Game.orbs g' !! j = Some o' /\ parked o'.
Proof.
  intros Hr Hq Ho Hp. destruct e as [timestamp wander | now key | key]; cbn [react] in Hr.
  - destruct (step_quiet_orbs _ _ _ _ Hr Hq) as [hs [_ [-> _]]].
    apply pickup_parked with (o := orbMotion (timestamp - Game.lastTime g) o).
    + rewrite list_lookup_fmap, Ho. reflexivity.
    + apply orbMotion_parked. exact Hp.
  - rewrite (world_orbs _ _ (handleKeyDown_world _ _ _ _ Hr)). eauto.
  - inversion Hr. cbn. eauto.
Qed.

Lemma run_quiet_parked events : forall g g' j o,
  run random events g = Some g' -> quiet random events g ->
  Game.orbs g !! j = Some o -> parked o ->
  exists o', Game.orbs g' !! j = Some o' /\ parked o'.
Proof.
  induction events as [| e rest IH]; intros g g' j o Hr Hq Ho Hp.
  - inversion Hr. subst. eauto.
  - cbn [run] in Hr. cbn [quiet] in Hq. destruct Hq as [Hs Hq].
    destruct (react random e g) as [g1 |] eqn:Er; [| discriminate].
    destruct (react_quiet_parked _ _ _ _ _ Er Hs Ho Hp) as [o1 [Ho1 Hp1]].
    eapply IH; eassumption.
Qed.

Lemma parked_isSentinel o : parked o -> isSentinel o = true.
Proof.
  intros [Hx _]. unfold isSentinel. apply Qeq_bool_iff. exact Hx.
Qed.

(** C8: an orb collected in a frame is parked at the sentinel
    (-999, -999) with velocity (0, 0) after that frame and after every
    later event up to the next sweep; the sentinel test then holds for it
    and the painter skips it. *)
Theorem collected_orb_stays_parked e events g g' j :
  run random (e :: events) g = Some g' ->
  quiet random (e :: events) g ->
  collectedIn e g j ->
  exists orb',
    Game.orbs g' !! j = Some orb' /\
    Vec.x (Orb.position orb') == -999 /\ Vec.y (Orb.position orb') == -999 /\
    Vec.x (Orb.velocity orb') == 0 /\ Vec.y (Orb.velocity orb') == 0 /\
    isSentinel orb' = true /\ drawOrb orb' = [].
Proof.
  intros Hr Hq Hc. cbn [run] in Hr. cbn [quiet] in Hq. destruct Hq as [Hs Hq].
  destruct (react random e g) as [g1 |] eqn:Er; [| discriminate].
  assert (H1 : exists o1, Game.orbs g1 !! j = Some o1 /\ parked o1).
  { destruct e as [timestamp wander | now key | key]; cbn [collectedIn] in Hc;
      try contradiction.
    cbn [react] in Er.
    destruct (step_quiet_orbs _ _ _ _ Er Hs) as [hs [Eh [-> _]]].
    unfold tickEvents in Hc. cbv zeta in Hc. rewrite Eh in Hc.
    eapply pickup_collected_parked. exact Hc. }
  destruct H1 as [o1 [Ho1 Hp1]].
  destruct (run_quiet_parked _ _ _ _ _ Hr Hq Ho1 Hp1) as [o' [Ho' Hp']].
  exists o'. split; [exact Ho' |].
  pose proof (parked_isSentinel _ Hp') as Hsent.
  destruct Hp' as [Hx [Hy [Hvx Hvy]]]. unfold SENTINEL in *.
  repeat split; try assumption.
  unfold drawOrb. rewrite Hsent. reflexivity.
Qed.


(** ** The respawn sweep *)

(** [Math.random()] returns a number in [0, 1). *)
Hypothesis random_unit : forall n, 0 <= random n < 1.

Lemma randomRange_bounds u lo hi :
  0 <= u < 1 -> lo < hi -> lo <= randomRange u lo hi < hi.
Proof.
  intros [H0 H1] Hlt. unfold randomRange.
  assert (Ha : 0 <= u * (hi - lo)) by (apply Qmult_le_0_compat; lra).
  assert (Hb : 0 < (1 - u) * (hi - lo)) by (apply Qmult_lt_0_compat; lra).
  split; [lra |].
  assert (Hc : (1 - u) * (hi - lo) == (hi - lo) - u * (hi - lo)) by ring.
  lra.
Qed.

Lemma respawnOrb_sentinel c orb :
  isSentinel orb = true -> respawned (fst (respawnOrb random c orb)).
Proof.
  intros Hs. unfold respawnOrb. rewrite Hs.
  unfold respawned, CANVAS_WIDTH, CANVAS_HEIGHT.
  cbn [fst Orb.position Orb.velocity Vec.x Vec.y].
  pose proof (randomRange_bounds (random c) 80 (960 - 80) (random_unit _)) as H1.
  pose proof (randomRange_bounds (random (c + 1)) 80 (560 - 160) (random_unit _)) as H2.
  pose proof (randomRange_bounds (random (c + 2)) (-0.5) 0.5 (random_unit _)) as H3.
  pose proof (randomRange_bounds (random (c + 3)) (-0.4) 0.4 (random_unit _)) as H4.
  repeat split;
    first [apply H1 | apply H2 | apply H3 | apply H4]; lra.
Qed.

Lemma respawnOrb_other c orb :
  isSentinel orb = false -> respawnOrb random c orb = (orb, c).
Proof. intros Hs. unfold respawnOrb. rewrite Hs. reflexivity. Qed.

(** The sweep, orb by orb. *)
Lemma respawnAll_orbs orbs : forall c,
  Forall2 (fun o o' => if isSentinel o then respawned o' else o' = o)
    orbs (fst (respawnAll random c orbs)).
Proof.
  induction orbs as [| orb rest IH]; intros c; simpl.
  - constructor.
  - destruct (isSentinel orb) eqn:Es.
    + pose proof (respawnOrb_sentinel c orb Es) as Hr.
      destruct (respawnOrb random c orb) as [orb1 c1].
      specialize (IH c1). destruct (respawnAll random c1 rest) as [rest2 c2].
      simpl in *. constructor; [rewrite Es; exact Hr | exact IH].
    + rewrite (respawnOrb_other c orb Es).
      specialize (IH c). destruct (respawnAll random c rest) as [rest2 c2].
      simpl in *. constructor; [rewrite Es; reflexivity | exact IH].
Qed.

Lemma respawned_not_sentinel o : respawned o -> isSentinel o = false.
Proof.
  intros [[Hx _] _]. unfold isSentinel, SENTINEL.
  destruct (Qeq_bool (Vec.x (Orb.position o)) (-999)) eqn:E; [| reflexivity].
  apply Qeq_bool_iff in E. lra.
Qed.

(** The orbs after a frame that sweeps. *)
Lemma step_sweep_orbs timestamp wander g g' :
  step random timestamp wander g = Some g' ->
  sweeps (Frame timestamp wander) g = true ->
  Game.orbTimer g' = 0 /\
  exists hs c,
    Game.orbs g' =
      fst (respawnAll random c
             (snd (pickup hs (map (orbMotion (timestamp - Game.lastTime g))
                                (Game.orbs g))))).
Proof.
  rewrite step_unfold. cbv zeta. intros Es Hq. cbn [sweeps] in Hq.
  destruct (updateHorsemen _ _ _ _ _) as [hs |]; [| discriminate].
  rewrite updateOrbs_sweep in Es by exact Hq.
  inversion Es. unfold afterTick. cbn [Game.orbs Game.orbTimer fst snd].
  split; [reflexivity |]. eauto.
Qed.

(** Every orb of a sweeping frame: respawned if it was parked before the
    frame or collected in it, merely moved otherwise. *)
Lemma step_sweep_each timestamp wander g g' :
  step random timestamp wander g = Some g' ->
  sweeps (Frame timestamp wander) g = true ->
  forall j o, Game.orbs g !! j = Some o ->
    exists o', Game.orbs g' !! j = Some o' /\
      (parked o -> respawned o') /\
      (respawned o' \/
       (o' = orbMotion (timestamp - Game.lastTime g) o /\ isSentinel o' = false)).
Proof.
  intros Es Hq j o Ho.
  destruct (step_sweep_orbs _ _ _ _ Es Hq) as [_ [hs [c Eo]]].
  set (delta := timestamp - Game.lastTime g) in *.
  assert (H1 : map (orbMotion delta) (Game.orbs g) !! j = Some (orbMotion delta o)).
  { rewrite list_lookup_fmap, Ho. reflexivity. }
  destruct (Forall2_lookup_l _ _ _ _ _ (pickup_orbs hs _) H1) as [o2 [Ho2 Hk]].
  destruct (Forall2_lookup_l _ _ _ _ _ (respawnAll_orbs _ c) Ho2) as [o3 [Ho3 Hr]].
  exists o3. rewrite Eo. split; [exact Ho3 |]. split.
  - intros Hp.
    assert (Hp2 : parked o2).
    { eapply keptOrParked_parked; [exact Hk | apply orbMotion_parked; exact Hp]. }
    rewrite (parked_isSentinel _ Hp2) in Hr. exact Hr.
  - destruct (isSentinel o2) eqn:E2; [left; exact Hr |].
    subst o3. destruct Hk as [-> | ->].
    + right. split; [reflexivity | exact E2].
    + rewrite (parked_isSentinel _ (parked_capture _)) in E2. discriminate.
Qed.

(** Two orbs parked at different moments of a run without sweep are both
    still parked when the frame arrives whose accumulated timer exceeds
    12000 ms; that frame puts both into the spawn ranges, leaves no orb
    at the sentinel, and resets the timer to 0. *)
Lemma sweep_after_quiet_runs events1 events2 timestamp wander g g1 g2 g3 a b orbA orbB :
  run random events1 g = Some g1 -> quiet random events1 g ->
  run random events2 g1 = Some g2 -> quiet random events2 g1 ->
  Game.orbTimer g2 + (timestamp - Game.lastTime g2) > ORB_RESPAWN_TIME ->
  step random timestamp wander g2 = Some g3 ->
  Game.orbs g !! a = Some orbA -> parked orbA ->
  Game.orbs g1 !! b = Some orbB -> parked orbB ->
  (exists oa ob, Game.orbs g2 !! a = Some oa /\ Game.orbs g2 !! b = Some ob /\
     parked oa /\ parked ob) /\
  (exists oa ob, Game.orbs g3 !! a = Some oa /\ Game.orbs g3 !! b = Some ob /\
     respawned oa /\ respawned ob) /\
  Forall (fun o => isSentinel o = false) (Game.orbs g3) /\
  Game.orbTimer g3 = 0.
Proof.
  intros Hr1 Hq1 Hr2 Hq2 Hgt Hs Ha Hpa Hb Hpb.
  assert (Hsw : sweeps (Frame timestamp wander) g2 = true).
  { cbn [sweeps]. apply Qgtb_gt. exact Hgt. }
  destruct (run_quiet_parked _ _ _ _ _ Hr1 Hq1 Ha Hpa) as [oa1 [Ha1 Hpa1]].
  destruct (run_quiet_parked _ _ _ _ _ Hr2 Hq2 Ha1 Hpa1) as [oa2 [Ha2 Hpa2]].
  destruct (run_quiet_parked _ _ _ _ _ Hr2 Hq2 Hb Hpb) as [ob2 [Hb2 Hpb2]].
  destruct (step_sweep_each _ _ _ _ Hs Hsw a oa2 Ha2) as [oa3 [Ha3 [Hra _]]].
  destruct (step_sweep_each _ _ _ _ Hs Hsw b ob2 Hb2) as [ob3 [Hb3 [Hrb _]]].
  split; [exists oa2, ob2; auto |].
  split; [exists oa3, ob3; auto |].
  split; [| apply (step_sweep_orbs _ _ _ _ Hs Hsw)].
  apply Forall_lookup. intros j o3 Hj.
  assert (Hlen : exists o2, Game.orbs g2 !! j = Some o2).
  { destruct (step_sweep_orbs _ _ _ _ Hs Hsw) as [_ [hs [c Eo]]].
    rewrite Eo in Hj.
    destruct (Forall2_lookup_r _ _ _ _ _ (respawnAll_orbs _ c) Hj) as [o2' [Ho2' _]].
    destruct (Forall2_lookup_r _ _ _ _ _ (pickup_orbs hs _) Ho2') as [o1' [Ho1' _]].
    rewrite list_lookup_fmap in Ho1'.
    destruct (Game.orbs g2 !! j) as [o2 |]; [eauto | discriminate]. }
  destruct Hlen as [o2 Ho2].
  destruct (step_sweep_each _ _ _ _ Hs Hsw j o2 Ho2) as [o3' [Hj' [_ Hcase]]].
  rewrite Hj in Hj'. inversion Hj'. subst o3'.
  destruct Hcase as [Hres | [_ Hns]]; [apply respawned_not_sentinel; exact Hres | exact Hns].
Qed.


(** ** The order of painting and updating within a tick *)






Lemma step_canvas timestamp wander g g' :
  step random timestamp wander g = Some g' -> Game.canvas g' = render g'.
Proof.
  rewrite step_unfold. cbv zeta.
  destruct (updateHorsemen _ _ _ _ _) as [hs |]; [| discriminate].
  intros H. inversion H. clear H. unfold afterTick, render.
  cbn [Game.canvas Game.seenElapsed Game.clouds Game.horsemen Game.orbs
       Game.activeHorseman fst snd].
  rewrite updateClouds_canvas. cbn [app]. rewrite <- !app_assoc. reflexivity.
Qed.



(** ** Switching the controlled horseman *)

(** What a digit key does to the loop: when it selects another horseman
    the effect of lines 171-209 runs again.  The world, the elapsed time
    and the random stream carry over and a new frame is requested, but
    the respawn timer starts again at 0 and the previous-frame timestamp
    is the time of the key press; the next frame measures its delta from
    there.  The digit of the horseman already controlled leaves the loop
    alone. *)
Lemma loop_restarts_on_switch now key n g :
  String.leb "1" key && String.leb key "4" = true ->
  Number key = Some n ->
  exists g',
    handleKeyDown now key g = Some g' /\
    Game.activeHorseman g' = (n - 1)%nat /\
    world g' = world g /\
    Game.elapsed g' = Game.elapsed g /\
    Game.cursor g' = Game.cursor g /\
    (if Nat.eqb (n - 1) (Game.activeHorseman g)
     then Game.orbTimer g' = Game.orbTimer g /\
          Game.lastTime g' = Game.lastTime g /\
          Game.raf g' = Game.raf g
     else Game.orbTimer g' = 0 /\
          Game.lastTime g' = now /\
          Game.raf g' = S (Game.raf g)) /\
    (forall timestamp wander,
       (n - 1 < length (Game.horsemen g))%nat ->
       exists g'',
         step random timestamp wander g' = Some g'' /\
         Game.lastTime g'' = timestamp /\
         Game.elapsed g'' = Game.elapsed g + (timestamp - Game.lastTime g')).
Proof.
  intros Hk Hn. unfold handleKeyDown. rewrite Hk, Hn.
  eexists. split; [reflexivity |].
  set (g1 := setPressedKeys g _).
  assert (Hact : Game.activeHorseman (setActiveHorseman now (n - 1) g1) = (n - 1)%nat).
  { unfold setActiveHorseman.
    destruct (Nat.eqb (n - 1) (Game.activeHorseman g1)) eqn:E; [| reflexivity].
    apply Nat.eqb_eq in E. symmetry. exact E. }
  assert (Hel : Game.elapsed (setActiveHorseman now (n - 1) g1) = Game.elapsed g).
  { unfold setActiveHorseman.
    destruct (Nat.eqb (n - 1) (Game.activeHorseman g1)); reflexivity. }
  split; [exact Hact |].
  split; [rewrite setActiveHorseman_world; reflexivity |].
  split; [exact Hel |].
  split.
  { unfold setActiveHorseman.
    destruct (Nat.eqb (n - 1) (Game.activeHorseman g1)); reflexivity. }
  split.
  { unfold setActiveHorseman. change (Game.activeHorseman g1) with (Game.activeHorseman g).
    destruct (Nat.eqb (n - 1) (Game.activeHorseman g)); repeat split; reflexivity. }
  intros timestamp wander Hlt.
  set (g' := setActiveHorseman now (n - 1) g1) in *.
  assert (Hlt' : (Game.activeHorseman g' < length (Game.horsemen g'))%nat).
  { rewrite Hact. replace (Game.horsemen g') with (Game.horsemen g); [exact Hlt |].
    pose proof (setActiveHorseman_world now (n - 1) g1) as Hw.
    apply (f_equal (fun w => fst (fst w))) in Hw. symmetry. exact Hw. }
  destruct (step_horsemen timestamp wander g' Hlt') as [g'' [hs [Es _]]].
  exists g''. split; [exact Es |].
  rewrite step_unfold in Es. cbv zeta in Es.
  destruct (updateHorsemen _ _ _ _ _); [| discriminate].
  inversion Es. unfold afterTick. cbn [Game.lastTime Game.elapsed].
  rewrite Hel. split; reflexivity.
Qed.


(** ** The controlled horseman with the right arrow held *)

Lemma visit_active delta wander a hs h :
  hs !! a = Some h ->
  visit delta wander a hs a = Some (<[a := integrate delta h]> hs).
Proof. intros E. unfold visit. rewrite E, Nat.eqb_refl. reflexivity. Qed.

(** The loop integrates the controlled horseman once and lets no other
    visit touch it. *)
Lemma visitAll_active delta wander a indices : forall hs hs' h,
  NoDup indices ->
  visitAll delta wander a indices hs = Some hs' ->
  hs !! a = Some h ->
  hs' !! a = Some (if decide (a ∈ indices) then integrate delta h else h).
Proof.
  induction indices as [| i rest IH]; intros hs hs' h Hnd H Ha; simpl in H.
  - inversion H. subst. rewrite Ha. destruct (decide (a ∈ [])) as [Hin |]; [| reflexivity].
    inversion Hin.
  - apply NoDup_cons in Hnd. destruct Hnd as [Hni Hnd].
    destruct (visit delta wander a hs i) as [hs1 |] eqn:Ev; [| discriminate].
    destruct (decide (i = a)) as [-> | Hne].
    + rewrite (visit_active _ _ _ _ _ Ha) in Ev. inversion Ev. subst hs1.
      assert (Ha1 : <[a := integrate delta h]> hs !! a = Some (integrate delta h)).
      { apply list_lookup_insert_eq. eapply lookup_lt_Some. exact Ha. }
      rewrite (IH _ _ _ Hnd H Ha1).
      destruct (decide (a ∈ rest)) as [Hin | _]; [contradiction |].
      destruct (decide (a ∈ a :: rest)) as [_ | Hout]; [reflexivity |].
      exfalso. apply Hout. left.
    + assert (Ha1 : hs1 !! a = Some h).
      { rewrite (visit_other _ _ _ _ _ _ _ Ev); [exact Ha | congruence]. }
      rewrite (IH _ _ _ Hnd H Ha1).
      destruct (decide (a ∈ rest)) as [Hin | Hout];
        destruct (decide (a ∈ i :: rest)) as [Hin' | Hout']; try reflexivity.
      * exfalso. apply Hout'. right. exact Hin.
      * exfalso. apply elem_of_cons in Hin'. destruct Hin' as [-> | Hin']; tauto.
Qed.

Lemma updateHorsemen_active pressedKeys a wander delta hs hs' h :
  hs !! a = Some h ->
  updateHorsemen pressedKeys a wander delta hs = Some hs' ->
  hs' !! a = Some (controlledTick pressedKeys delta h).
Proof.
  intros Ha H. unfold updateHorsemen in H.
  set (f := steer _ _ _) in H.
  assert (Ha1 : alter f a hs !! a = Some (f h)).
  { rewrite list_lookup_alter_eq, Ha. reflexivity. }
  rewrite (visitAll_active _ _ _ _ _ _ _ (NoDup_seq _ _) H Ha1).
  destruct (decide (a ∈ seq 0 (length (alter f a hs)))) as [_ | Hout]; [reflexivity |].
  exfalso. apply Hout. apply elem_of_seq. rewrite length_alter.
  apply lookup_lt_Some in Ha. lia.
Qed.

Lemma rightHeld_reads :
  horizontalOf rightHeld = 1 /\ verticalOf rightHeld = 0 /\ boostOf rightHeld = 1.
Proof. repeat split; vm_compute; reflexivity. Qed.

(** On the x axis the scenario tick is [axisTick]. *)
Lemma controlledTick_axis h :
  (px (controlledTick rightHeld 16 h), vx (controlledTick rightHeld 16 h))
    = axisTick (px h, vx h).
Proof.
  unfold controlledTick.
  destruct rightHeld_reads as [-> [-> ->]].
  unfold steer. replace (truthy 1 || truthy 0) with true by reflexivity.
  unfold integrate, axisTick, px, vx.
  cbn [Horseman.velocity Horseman.position Horseman.tilt Horseman.targetTilt
       setTargetTilt setVelocity setPosition setTilt Vec.x Vec.y].
  destruct (bounce (Vec.x (Horseman.position h) + _) _ 40 _) as [p1 v1].
  destruct (bounce (Vec.y (Horseman.position h) + _) _ 50 _) as [p2 v2].
  reflexivity.
Qed.

Lemma scenario_axis start n :
  Horseman.position start = Vec.mk 500 280 ->
  Horseman.velocity start = Vec.mk 0 0 ->
  (px (scenarioAfter n start), vx (scenarioAfter n start))
    = Nat.iter n axisTick (500, 0).
Proof.
  intros Hp Hv. induction n as [| n IH].
  - unfold scenarioAfter, px, vx. simpl. rewrite Hp, Hv. reflexivity.
  - unfold scenarioAfter in *. rewrite !Nat.iter_succ.
    rewrite controlledTick_axis, IH. reflexivity.
Qed.

Lemma clamp_proper v v' lo hi : v == v' -> clamp v lo hi == clamp v' lo hi.
Proof. intros E. unfold clamp. rewrite E. reflexivity. Qed.

Lemma Qltb_proper a a' b : a == a' -> Qltb a b = Qltb a' b.
Proof. intros E. unfold Qltb. rewrite E. reflexivity. Qed.

Lemma Qgtb_proper a a' b : a == a' -> Qgtb a b = Qgtb a' b.
Proof. intros E. unfold Qgtb, Qltb. rewrite E. reflexivity. Qed.

Lemma bounce_proper p p' v v' lo hi :
  p == p' -> v == v' -> axisEq (bounce p v lo hi) (bounce p' v' lo hi).
Proof.
  intros Ep Ev. unfold bounce.
  rewrite (Qltb_proper _ _ lo Ep), (Qgtb_proper _ _ hi Ep).
  destruct (Qltb p' lo || Qgtb p' hi); split; simpl.
  - apply clamp_proper. exact Ep.
  - rewrite Ev. reflexivity.
  - exact Ep.
  - exact Ev.
Qed.

Lemma axisTick_proper s s' : axisEq s s' -> axisEq (axisTick s) (axisTick s').
Proof.
  destruct s as [p v], s' as [p' v']. intros [Ep Ev]. simpl in Ep, Ev.
  unfold axisTick.
  assert (E1 : clamp (v + 1 * (HORSEMAN_ACCEL * 1)) (- HORSEMAN_MAX_SPEED) HORSEMAN_MAX_SPEED
            == clamp (v' + 1 * (HORSEMAN_ACCEL * 1)) (- HORSEMAN_MAX_SPEED) HORSEMAN_MAX_SPEED).
  { apply clamp_proper. rewrite Ev. reflexivity. }
  apply bounce_proper.
  - rewrite Ep, E1. reflexivity.
  - rewrite E1. reflexivity.
Qed.

Lemma axisAfter_iter n : axisEq (Nat.iter n axisTick (500, 0)) (axisAfter n).
Proof.
  induction n as [| n IH].
  - split; reflexivity.
  - unfold axisAfter in *. rewrite !Nat.iter_succ.
    destruct (axisTick_proper _ _ IH) as [E1 E2].
    unfold axisTickR. split; cbn [fst snd]; rewrite Qred_correct; assumption.
Qed.

(** The scenario, read on the reduced states. *)
Lemma scenario_reduced start n :
  Horseman.position start = Vec.mk 500 280 ->
  Horseman.velocity start = Vec.mk 0 0 ->
  px (scenarioAfter n start) == fst (axisAfter n) /\
  vx (scenarioAfter n start) == snd (axisAfter n).
Proof.
  intros Hp Hv. pose proof (axisAfter_iter n) as [E1 E2].
  rewrite <- (scenario_axis start n Hp Hv) in E1, E2. split; assumption.
Qed.

Lemma checkTrail_each kinds : forall s k kind,
  checkTrail kinds s = true -> kinds !! k = Some kind ->
  kind (Nat.iter k axisTickR s) (Nat.iter (S k) axisTickR s) = true.
Proof.
  induction kinds as [| kind0 rest IH]; intros s k kind H Hk; [inversion Hk |].
  cbn [checkTrail] in H. cbv zeta in H.
  apply andb_true_iff in H. destruct H as [H0 Hrest].
  destruct k as [| k].
  - inversion Hk. subst. exact H0.
  - rewrite (Nat.iter_succ_r (S k) axisTickR s), (Nat.iter_succ_r k axisTickR s).
    apply IH; [exact Hrest | exact Hk].
Qed.

Lemma scenario_checks : checkTrail scenarioKinds (500, 0) = true.
Proof. vm_compute. reflexivity. Qed.

Lemma scenario_cruise n :
  (n < 74)%nat -> cruise (axisAfter n) (axisAfter (S n)) = true.
Proof.
  intros Hn. apply (checkTrail_each scenarioKinds (500, 0) n cruise scenario_checks).
  unfold scenarioKinds. rewrite lookup_app_l by (rewrite length_replicate; exact Hn).
  apply lookup_replicate_2. exact Hn.
Qed.

Lemma scenario_hitWall : hitWall (axisAfter 74) (axisAfter 75) = true.
Proof.
  apply (checkTrail_each scenarioKinds (500, 0) 74 hitWall scenario_checks).
  reflexivity.
Qed.

Lemma scenario_retreat : retreat (axisAfter 76) (axisAfter 77) = true.
Proof.
  apply (checkTrail_each scenarioKinds (500, 0) 76 retreat scenario_checks).
  reflexivity.
Qed.

Lemma cruise_spec s s' :
  cruise s s' = true ->
  snd s <= snd s' /\ fst s < fst s' /\ fst s < CANVAS_WIDTH - 40.
Proof.
  unfold cruise. intros H.
  apply andb_true_iff in H. destruct H as [H H3].
  apply andb_true_iff in H. destruct H as [H1 H2].
  apply Qle_bool_iff in H1. apply Qltb_lt in H2. apply Qltb_lt in H3. auto.
Qed.

Lemma hitWall_spec s s' :
  hitWall s s' = true ->
  fst s < fst s' /\ fst s < CANVAS_WIDTH - 40 /\ fst s' == CANVAS_WIDTH - 40 /\
  snd s' < snd s /\ snd s' < 0.
Proof.
  unfold hitWall. intros H.
  apply andb_true_iff in H. destruct H as [H H5].
  apply andb_true_iff in H. destruct H as [H H4].
  apply andb_true_iff in H. destruct H as [H H3].
  apply andb_true_iff in H. destruct H as [H1 H2].
  apply Qltb_lt in H1. apply Qltb_lt in H2. apply Qeq_bool_iff in H3.
  apply Qltb_lt in H4. apply Qltb_lt in H5. auto.
Qed.

Lemma retreat_spec s s' :
  retreat s s' = true -> fst s < CANVAS_WIDTH - 40 /\ fst s' < fst s.
Proof.
  unfold retreat. intros H.
  apply andb_true_iff in H. destruct H as [H1 H2].
  apply Qltb_lt in H1. apply Qltb_lt in H2. auto.
Qed.

Lemma scenario_speed start n :
  Horseman.velocity start = Vec.mk 0 0 ->
  vx (scenarioAfter n start) <= HORSEMAN_MAX_SPEED.
Proof.
  intros Hv. destruct n as [| n].
  - unfold scenarioAfter, vx. simpl. rewrite Hv. unfold HORSEMAN_MAX_SPEED. simpl. lra.
  - unfold scenarioAfter. rewrite Nat.iter_succ. unfold controlledTick at 1.
    destruct (integrate_velocity 16
                (steer (horizontalOf rightHeld) (verticalOf rightHeld) (boostOf rightHeld)
                   (Nat.iter n (controlledTick rightHeld 16) start))) as [Hx _].
    unfold vx. eapply Qle_trans; [apply Qle_Qabs | exact Hx].
Qed.

(** C7, as the code has it: a tick of [updateHorsemen] with only the
    right arrow held moves the controlled horseman by [controlledTick];
    from (500, 280) at rest with 16 ms frames, velocity.x does not fall
    during the first 74 ticks, position.x grows strictly on each of the
    first 75 ticks, staying left of 920 before each of them, and never
    does velocity.x exceed 7.4; the 75th tick puts the horseman on the
    wall at 920 and reflects its velocity to a negative value. *)
Theorem steering_right_until_wall start :
  Horseman.position start = Vec.mk 500 280 ->
  Horseman.velocity start = Vec.mk 0 0 ->
  (forall hs a wander hs' h,
     hs !! a = Some h ->
     updateHorsemen rightHeld a wander 16 hs = Some hs' ->
     hs' !! a = Some (controlledTick rightHeld 16 h)) /\
  (forall n, (n < 74)%nat ->
     vx (scenarioAfter n start) <= vx (scenarioAfter (S n) start)) /\
  (forall n, (n < 75)%nat ->
     px (scenarioAfter n start) < px (scenarioAfter (S n) start) /\
     px (scenarioAfter n start) < CANVAS_WIDTH - 40) /\
  (forall n, vx (scenarioAfter n start) <= HORSEMAN_MAX_SPEED) /\
  px (scenarioAfter 75 start) == CANVAS_WIDTH - 40 /\
  vx (scenarioAfter 75 start) < 0.
Proof.
  intros Hp Hv.
  destruct (hitWall_spec _ _ scenario_hitWall) as [W1 [W2 [W3 [W4 W5]]]].
  split; [| split; [| split; [| split; [| split]]]].
  - intros hs a wander hs' h Hh Hu. eapply updateHorsemen_active; eassumption.
  - intros n Hn.
    destruct (cruise_spec _ _ (scenario_cruise n Hn)) as [C1 _].
    destruct (scenario_reduced start n Hp Hv) as [_ E1].
    destruct (scenario_reduced start (S n) Hp Hv) as [_ E2]. lra.
  - intros n Hn.
    destruct (scenario_reduced start n Hp Hv) as [E1 _].
    destruct (scenario_reduced start (S n) Hp Hv) as [E2 _].
    destruct (decide (n < 74)%nat) as [Hlt | Hge].
    + destruct (cruise_spec _ _ (scenario_cruise n Hlt)) as [_ [C2 C3]]. split; lra.
    + assert (n = 74%nat) as -> by lia. split; lra.
  - intros n. apply scenario_speed. exact Hv.
  - destruct (scenario_reduced start 75 Hp Hv) as [E1 _]. lra.
  - destruct (scenario_reduced start 75 Hp Hv) as [_ E1]. lra.
Qed.

(** C7, as stated, fails: tick 75 takes velocity.x from about 7.29 to
    about -5.10, and tick 77 lowers position.x although the horseman is
    left of 920. *)
Lemma scenario_claim_fails :
  ~ scenarioClaim scenarioStart /\
  vx (scenarioAfter 75 scenarioStart) < vx (scenarioAfter 74 scenarioStart) /\
  px (scenarioAfter 76 scenarioStart) < CANVAS_WIDTH - 40 /\
  px (scenarioAfter 77 scenarioStart) < px (scenarioAfter 76 scenarioStart).
Proof.
  destruct (hitWall_spec _ _ scenario_hitWall) as [_ [_ [_ [W4 _]]]].
  destruct (retreat_spec _ _ scenario_retreat) as [R1 R2].
  destruct (scenario_reduced scenarioStart 74 eq_refl eq_refl) as [_ E74].
  destruct (scenario_reduced scenarioStart 75 eq_refl eq_refl) as [_ E75].
  destruct (scenario_reduced scenarioStart 76 eq_refl eq_refl) as [E76 _].
  destruct (scenario_reduced scenarioStart 77 eq_refl eq_refl) as [E77 _].
  split; [| split; [| split]]; try lra.
  intros H. destruct (H 74%nat) as [Hv _]. lra.
Qed.


(** ** Orbs at the edge of their band *)

(** C9: the motion pass integrates an orb's position without clamping
    it and negates a velocity component whenever the new coordinate is
    outside [50, 910] (x) or [50, 510] (y), whatever the direction.  In
    the game mounted with the all-zero random stream, a first frame of
    1600 ms leaves orb 0 at x = 40, outside the band and turned inward;
    the next frame of 16 ms finds it at x = 40.4, still outside, and
    turns its velocity outward again. *)
Theorem orbs_are_not_clamped :
  (forall delta orb,
     let x' := Vec.x (Orb.position orb) + Vec.x (Orb.velocity orb) * (delta / 16) in
     let y' := Vec.y (Orb.position orb) + Vec.y (Orb.velocity orb) * (delta / 16) in
     Orb.position (orbMotion delta orb) = Vec.mk x' y' /\
     Orb.velocity (orbMotion delta orb) =
       Vec.mk (if outsideBandX x' then Vec.x (Orb.velocity orb) * -1
               else Vec.x (Orb.velocity orb))
              (if outsideBandY y' then Vec.y (Orb.velocity orb) * -1
               else Vec.y (Orb.velocity orb))) /\
  (exists g g' orb orb',
     run zeroRandom [Frame 1600 sampleWander] zeroMount = Some g /\
     step zeroRandom 1616 sampleWander g = Some g' /\
     Game.orbs g !! 0%nat = Some orb /\
     Game.orbs g' !! 0%nat = Some orb' /\
     outsideBandX (Vec.x (Orb.position orb)) = true /\
     Vec.x (Orb.position orb) < 50 /\
     0 < Vec.x (Orb.velocity orb) /\
     outsideBandX (Vec.x (Orb.position orb')) = true /\
     Vec.x (Orb.position orb') < 50 /\
     Vec.x (Orb.velocity orb') < 0).
Proof.
  split.
  - intros delta orb. split; reflexivity.
  - do 4 eexists.
    split; [vm_compute; reflexivity |].
    split; [vm_compute; reflexivity |].
    split; [vm_compute; reflexivity |].
    split; [vm_compute; reflexivity |].
    split; [vm_compute; reflexivity |].
    split; [vm_compute; reflexivity |].
    split; [vm_compute; reflexivity |].
    split; [vm_compute; reflexivity |].
    split; vm_compute; reflexivity.
Qed.

End Facts.


Section MoreFacts.
Variable random : nat -> Q.
Hypothesis random_unit : forall n, 0 <= random n < 1.

(** ** [randomRange] *)

(** X1: for a draw [u] in [0, 1) and bounds [lo <= hi], [randomRange]
    lies in [lo, hi], does not fall when the draw grows, and the draw 0
    gives [lo]. *)
Theorem randomRange_in_range u lo hi :
  0 <= u < 1 -> lo <= hi ->
  lo <= randomRange u lo hi <= hi /\
  (forall u', u <= u' -> randomRange u lo hi <= randomRange u' lo hi) /\
  randomRange 0 lo hi == lo.
Proof.
  intros Hu Hle. unfold randomRange.
  assert (Ha : 0 <= u * (hi - lo)) by (apply Qmult_le_0_compat; lra).
  assert (Hb : 0 <= (1 - u) * (hi - lo)) by (apply Qmult_le_0_compat; lra).
  assert (Hc : (1 - u) * (hi - lo) == (hi - lo) - u * (hi - lo)) by ring.
  split; [split; lra |]. split; [| ring].
  intros u' Hu'.
  assert (Hd : 0 <= (u' - u) * (hi - lo)) by (apply Qmult_le_0_compat; lra).
  assert (He : (u' - u) * (hi - lo) == u' * (hi - lo) - u * (hi - lo)) by ring.
  lra.
Qed.

(** ** When [updateHorsemen] throws *)

(** X4: [updateHorsemen] throws exactly when there are horsemen and the
    controlled index names none of them; with no horsemen at all it
    returns normally. *)
Theorem updateHorsemen_throws_iff pressedKeys a wander delta hs :
  updateHorsemen pressedKeys a wander delta hs = None <->
  (hs <> [] /\ (length hs <= a)%nat).
Proof.
  split.
  - intros H. destruct hs as [| h rest]; [discriminate H |].
    split; [discriminate |].
    destruct (le_lt_dec (length (h :: rest)) a) as [Hle | Hlt]; [exact Hle |].
    destruct (updateHorsemen_total pressedKeys a wander delta (h :: rest) Hlt) as [hs' E].
    congruence.
  - intros [Hne Hle]. destruct hs as [| h rest]; [congruence |].
    unfold updateHorsemen. simpl in Hle.
    set (hs1 := alter _ a (h :: rest)).
    assert (Hlen : length hs1 = S (length rest)) by (unfold hs1; rewrite length_alter; reflexivity).
    assert (H0 : hs1 !! 0%nat = Some h).
    { unfold hs1. rewrite list_lookup_alter_ne by lia. reflexivity. }
    assert (Ha : hs1 !! a = None) by (apply lookup_ge_None_2; lia).
    rewrite Hlen. cbn [seq visitAll]. unfold visit. rewrite H0.
    destruct (Nat.eqb 0 a) eqn:E0; [apply Nat.eqb_eq in E0; lia |].
    rewrite Ha.
    reflexivity.
Qed.

(** ** The order in which the horsemen are visited *)

Lemma steer_position hz vt b h :
  Horseman.position (steer hz vt b h) = Horseman.position h.
Proof. unfold steer. destruct (truthy hz || truthy vt); reflexivity. Qed.

Section FlockOrder.
Variables (pressedKeys : gmap string bool) (delta : Q) (wander : nat -> Q).
Variables (a : nat) (hs : list Horseman) (ha : Horseman).
Hypothesis active_there : hs !! a = Some ha.

Lemma visitAll_order n : forall k cur cur',
  length cur = length hs ->
  (forall j h,
     alter (steer (horizontalOf pressedKeys) (verticalOf pressedKeys)
              (boostOf pressedKeys)) a hs !! j = Some h ->
     cur !! j = Some (if (j <? k)%nat then visited pressedKeys delta wander a ha j h else h)) ->
  visitAll delta wander a (seq k n) cur = Some cur' ->
  forall j h,
    alter (steer (horizontalOf pressedKeys) (verticalOf pressedKeys)
             (boostOf pressedKeys)) a hs !! j = Some h ->
    cur' !! j = Some (if (j <? k + n)%nat then visited pressedKeys delta wander a ha j h else h).
Proof.
  set (st := steer _ _ _).
  induction n as [| n IH]; intros k cur cur' Hlen Hinv H j h Hj.
  - simpl in H. inversion H. subst cur'. rewrite Nat.add_0_r. apply Hinv. exact Hj.
  - cbn [seq visitAll] in H.
    destruct (visit delta wander a cur k) as [cur1 |] eqn:Ev; [| discriminate].
    replace (k + S n)%nat with (S k + n)%nat by lia.
    apply (IH (S k) cur1 cur'); [| | exact H | exact Hj].
    { rewrite <- Hlen. eapply visit_length. exact Ev. }
    clear j h Hj. intros j h Hj.
    destruct (decide (j = k)) as [-> | Hne].
    + pose proof (Hinv k h Hj) as Hk. rewrite Nat.ltb_irrefl in Hk.
      assert (Hlt : (k <? S k)%nat = true) by (apply Nat.ltb_lt; lia).
      rewrite Hlt. unfold visit in Ev. rewrite Hk in Ev.
      assert (Hkl : (k < length cur)%nat) by (eapply lookup_lt_Some; exact Hk).
      unfold visited. destruct (Nat.eqb k a) eqn:Eka.
      * inversion Ev. apply list_lookup_insert_eq. exact Hkl.
      * apply Nat.eqb_neq in Eka.
        assert (Hsa : alter st a hs !! a = Some (st ha)).
        { rewrite list_lookup_alter_eq, active_there. reflexivity. }
        pose proof (Hinv a (st ha) Hsa) as Hcur. rewrite Hcur in Ev.
        inversion Ev. rewrite list_lookup_insert_eq by exact Hkl.
        f_equal. f_equal. f_equal. unfold chased, visited.
        rewrite Nat.eqb_refl.
        destruct (a <? k)%nat eqn:Eak.
        -- apply Nat.ltb_lt in Eak.
           assert (Hka : (k <? a)%nat = false) by (apply Nat.ltb_ge; lia).
           rewrite Hka. reflexivity.
        -- apply Nat.ltb_ge in Eak.
           assert (Hka : (k <? a)%nat = true) by (apply Nat.ltb_lt; lia).
           rewrite Hka. unfold st. apply steer_position.
    + rewrite (visit_other _ _ _ _ _ _ _ Ev Hne).
      rewrite (Hinv j h Hj).
      assert (E : (j <? S k)%nat = (j <? k)%nat).
      { destruct (j <? k)%nat eqn:E1.
        - apply Nat.ltb_lt in E1. apply Nat.ltb_lt. lia.
        - apply Nat.ltb_ge in E1. apply Nat.ltb_ge. lia. }
      rewrite E. reflexivity.
Qed.
End FlockOrder.

(** X5: a free horseman is pulled towards the controlled one as the
    store holds it when the loop reaches him: its position before the
    tick for the horsemen placed before the controlled one, its position
    of this tick for those placed after. *)
Theorem free_horsemen_chase_in_visit_order pressedKeys a wander delta hs hs' ha i hi :
  hs !! a = Some ha -> hs !! i = Some hi -> i <> a ->
  updateHorsemen pressedKeys a wander delta hs = Some hs' ->
  hs' !! i =
    Some (integrate delta
            (flock (chased pressedKeys delta a i ha) (wander i) hi)).
Proof.
  intros Ha Hi Hne H. unfold updateHorsemen in H.
  assert (Hb : alter (steer (horizontalOf pressedKeys) (verticalOf pressedKeys)
                        (boostOf pressedKeys)) a hs !! i = Some hi).
  { rewrite list_lookup_alter_ne by congruence. exact Hi. }
  pose proof (visitAll_order pressedKeys delta wander a hs ha Ha _ 0%nat _ hs'
                (length_alter _ _ _)
                (fun j h Hj => Hj) H i hi Hb) as Hres.
  assert (Hlt : (i <? 0 + length (alter (steer (horizontalOf pressedKeys)
                   (verticalOf pressedKeys) (boostOf pressedKeys)) a hs))%nat = true).
  { apply Nat.ltb_lt. rewrite length_alter. apply lookup_lt_Some in Hi. lia. }
  rewrite Hlt in Hres. rewrite Hres. unfold visited.
  assert (E : Nat.eqb i a = false) by (apply Nat.eqb_neq; exact Hne).
  rewrite E. reflexivity.
Qed.

(** ** What the pickup pass does to a horseman *)

Lemma setScore_self h : setScore h (Horseman.score h) = h.
Proof. destruct h. reflexivity. Qed.

Lemma collect_rescored h orb :
  exists s, fst (collect h orb) = setScore h s /\ (Horseman.score h <= s)%nat.
Proof.
  unfold collect. destruct (near h orb); simpl.
  - eexists. split; [reflexivity | lia].
  - exists (Horseman.score h). split; [symmetry; apply setScore_self | lia].
Qed.

Lemma collectOrbs_rescored orbs : forall h,
  exists s, fst (collectOrbs h orbs) = setScore h s /\ (Horseman.score h <= s)%nat.
Proof.
  induction orbs as [| orb rest IH]; intros h; simpl.
  - exists (Horseman.score h). split; [symmetry; apply setScore_self | lia].
  - destruct (collect_rescored h orb) as [s1 [E1 H1]].
    destruct (collect h orb) as [h1 orb1]. simpl in E1. subst h1.
    destruct (IH (setScore h s1)) as [s2 [E2 H2]].
    destruct (collectOrbs (setScore h s1) rest) as [h2 rest2]. simpl in *.
    exists s2. split; [rewrite E2; reflexivity | lia].
Qed.

Lemma pickup_rescored hs : forall orbs,
  Forall2 (fun h h' => exists s, h' = setScore h s /\ (Horseman.score h <= s)%nat)
    hs (fst (pickup hs orbs)).
Proof.
  induction hs as [| h rest IH]; intros orbs.
  - simpl. constructor.
  - rewrite pickup_cons. cbn [fst]. constructor; [| apply IH].
    apply collectOrbs_rescored.
Qed.

(** The horsemen at the end of a frame, whenever there is one. *)
Lemma step_some_horsemen timestamp wander g g' :
  step random timestamp wander g = Some g' ->
  exists hs,
    updateHorsemen (Game.pressedKeys g) (Game.activeHorseman g) wander
      (timestamp - Game.lastTime g) (Game.horsemen g) = Some hs /\
    Game.horsemen g'
      = fst (pickup hs (map (orbMotion (timestamp - Game.lastTime g)) (Game.orbs g))).
Proof.
  rewrite step_unfold. cbv zeta.
  destruct (updateHorsemen _ _ _ _ _) as [hs |]; [| discriminate].
  intros H. inversion H. exists hs. split; [reflexivity |].
  unfold afterTick. cbn [Game.horsemen]. apply updateOrbs_horsemen.
Qed.

(** ** The tilt stays within the lean limit *)

Lemma steer_tiltOK hz vt b h : tiltOK h -> tiltOK (steer hz vt b h).
Proof.
  intros [[T1 T2] Ht]. unfold steer, tiltOK.
  destruct (truthy hz || truthy vt);
    cbn [Horseman.targetTilt Horseman.tilt setTargetTilt setVelocity].
  - split; [apply clamp_bounds; lra | exact Ht].
  - split; [lra | exact Ht].
Qed.

Lemma flock_tiltOK p w h : tiltOK h -> tiltOK (flock p w h).
Proof.
  intros [_ Ht]. unfold flock, tiltOK.
  cbn [Horseman.targetTilt Horseman.tilt setTargetTilt setVelocity].
  split; [apply clamp_bounds; lra | exact Ht].
Qed.

Lemma integrate_tiltOK delta h : tiltOK h -> tiltOK (integrate delta h).
Proof.
  intros [[T1 T2] [T3 T4]]. unfold integrate.
  destruct (bounce _ _ 40 _) as [px' vx'].
  destruct (bounce _ _ 50 _) as [py' vy'].
  unfold tiltOK.
  cbn [Horseman.targetTilt Horseman.tilt setTilt setPosition setVelocity].
  split; split; lra.
Qed.

Lemma visitAll_tiltOK delta wander a indices : forall hs hs',
  Forall tiltOK hs ->
  visitAll delta wander a indices hs = Some hs' -> Forall tiltOK hs'.
Proof.
  induction indices as [| i rest IH]; intros hs hs' Hall H; simpl in H.
  - inversion H. subst. exact Hall.
  - destruct (visit delta wander a hs i) as [hs1 |] eqn:Ev; [| discriminate].
    apply (IH hs1 hs'); [| exact H].
    unfold visit in Ev. destruct (hs !! i) as [h |] eqn:Ei.
    + pose proof (Forall_lookup_1 _ _ _ _ Hall Ei) as Hh.
      destruct (Nat.eqb i a).
      * inversion Ev. apply Forall_insert; [exact Hall |].
        apply integrate_tiltOK. exact Hh.
      * destruct (hs !! a); inversion Ev.
        apply Forall_insert; [exact Hall |].
        apply integrate_tiltOK, flock_tiltOK. exact Hh.
    + inversion Ev. subst. exact Hall.
Qed.

(** X6: when every horseman's tilt and target tilt are within
    [-0.45, 0.45] before a frame, they are after it. *)
Theorem tilt_stays_within_limit timestamp wander g :
  Forall tiltOK (Game.horsemen g) ->
  (Game.activeHorseman g < length (Game.horsemen g))%nat ->
  exists g',
    step random timestamp wander g = Some g' /\
    Forall tiltOK (Game.horsemen g').
Proof.
  intros Hall Hlt.
  destruct (step_horsemen random timestamp wander g Hlt) as [g' [hs [Es [Eh [_ [_ Eg]]]]]].
  exists g'. split; [exact Es |]. rewrite Eg.
  assert (H1 : Forall tiltOK hs).
  { unfold updateHorsemen in Eh.
    eapply visitAll_tiltOK; [| exact Eh].
    apply Forall_alter; [exact Hall |].
    intros h _ Hh. apply steer_tiltOK. exact Hh. }
  apply Forall_lookup. intros i h' Hi.
  destruct (Forall2_lookup_r _ _ _ _ _ (pickup_rescored hs _) Hi) as [h [Hh [s [-> _]]]].
  pose proof (Forall_lookup_1 _ _ _ _ H1 Hh) as Ht. exact Ht.
Qed.

(** ** Riders and scores *)

Lemma updateHorsemen_keeps {A} (f : Horseman -> A)
    pressedKeys a wander delta hs hs' :
  (forall d h, f (integrate d h) = f h) ->
  (forall p w h, f (flock p w h) = f h) ->
  (forall hz vt b h, f (steer hz vt b h) = f h) ->
  updateHorsemen pressedKeys a wander delta hs = Some hs' ->
  map f hs' = map f hs.
Proof.
  intros Fi Ff Fs. unfold updateHorsemen.
  set (hs1 := alter _ a hs).
  assert (E1 : map f hs1 = map f hs).
  { unfold hs1. apply list_eq. intros i. rewrite !list_lookup_fmap.
    destruct (decide (i = a)) as [-> | Hne].
    - rewrite list_lookup_alter_eq. destruct (hs !! a) as [h |]; [| reflexivity].
      simpl. f_equal. apply Fs.
    - rewrite list_lookup_alter_ne by congruence. reflexivity. }
  rewrite <- E1. generalize (seq 0 (length hs1)). clear E1. generalize hs1. clear hs1.
  intros hs1 indices. revert hs1.
  induction indices as [| i rest IH]; intros hs1 H; simpl in H.
  - congruence.
  - destruct (visit delta wander a hs1 i) as [hs2 |] eqn:Ev; [| discriminate].
    rewrite (IH _ H). clear IH H.
    unfold visit in Ev.
    destruct (hs1 !! i) as [h |] eqn:Ei; [| congruence].
    assert (Hid : forall h', f h' = f h -> map f (<[i := h']> hs1) = map f hs1).
    { intros h' Es. rewrite list_fmap_insert, Es. apply list_insert_id.
      rewrite list_lookup_fmap, Ei. reflexivity. }
    destruct (Nat.eqb i a).
    + inversion Ev. apply Hid. apply Fi.
    + destruct (hs1 !! a); inversion Ev. apply Hid. rewrite Fi. apply Ff.
Qed.

Lemma integrate_rider d h :
  (rider (integrate d h), Horseman.score (integrate d h)) = (rider h, Horseman.score h).
Proof.
  unfold integrate.
  destruct (bounce _ _ 40 _) as [px' vx'].
  destruct (bounce _ _ 50 _) as [py' vy']. reflexivity.
Qed.

Lemma steer_rider hz vt b h :
  (rider (steer hz vt b h), Horseman.score (steer hz vt b h))
    = (rider h, Horseman.score h).
Proof. unfold steer. destruct (truthy hz || truthy vt); reflexivity. Qed.

Lemma grownFrom_refl h : grownFrom h h.
Proof. split; [reflexivity | lia]. Qed.

Lemma grownFrom_trans h1 h2 h3 : grownFrom h1 h2 -> grownFrom h2 h3 -> grownFrom h1 h3.
Proof. intros [E1 L1] [E2 L2]. split; [congruence | lia]. Qed.

Lemma step_grownFrom timestamp wander g g' i h :
  step random timestamp wander g = Some g' ->
  Game.horsemen g !! i = Some h ->
  exists h', Game.horsemen g' !! i = Some h' /\ grownFrom h h'.
Proof.
  intros Es Hi. destruct (step_some_horsemen _ _ _ _ Es) as [hs [Eh Eg]].
  pose proof (updateHorsemen_keeps (fun x => (rider x, Horseman.score x))
                _ _ _ _ _ _ integrate_rider (fun p w x => eq_refl) steer_rider Eh) as Ek.
  assert (H1 : exists h1, hs !! i = Some h1 /\
                 (rider h1, Horseman.score h1) = (rider h, Horseman.score h)).
  { apply (f_equal (fun l => l !! i)) in Ek. rewrite !list_lookup_fmap, Hi in Ek.
    destruct (hs !! i) as [h1 |]; [| discriminate].
    exists h1. split; [reflexivity |]. simpl in Ek. congruence. }
  destruct H1 as [h1 [Hh1 E1]].
  destruct (Forall2_lookup_l _ _ _ _ _ (pickup_rescored hs
              (map (orbMotion (timestamp - Game.lastTime g)) (Game.orbs g))) Hh1)
    as [h' [Hh' [s [-> Hs]]]].
  exists (setScore h1 s). rewrite Eg. split; [exact Hh' |].
  unfold rider in E1. inversion E1. split.
  - unfold rider. simpl. congruence.
  - simpl. lia.
Qed.

Lemma world_horsemen g g' : world g' = world g -> Game.horsemen g' = Game.horsemen g.
Proof. intros H. apply (f_equal (fun w => fst (fst w))) in H. exact H. Qed.

(** X7: over every run of frames and key events each horseman keeps its
    id, name and colours, and its score never goes down. *)
Theorem riders_keep_identity_and_never_lose_score events : forall g g' i h,
  run random events g = Some g' ->
  Game.horsemen g !! i = Some h ->
  exists h', Game.horsemen g' !! i = Some h' /\ grownFrom h h'.
Proof.
  induction events as [| e rest IH]; intros g g' i h Hr Hi.
  - inversion Hr. subst. exists h. split; [exact Hi | apply grownFrom_refl].
  - cbn [run] in Hr.
    destruct (react random e g) as [g1 |] eqn:Er; [| discriminate].
    assert (H1 : exists h1, Game.horsemen g1 !! i = Some h1 /\ grownFrom h h1).
    { destruct e as [timestamp wander | now key | key]; cbn [react] in Er.
      - eapply step_grownFrom; eassumption.
      - rewrite (world_horsemen _ _ (handleKeyDown_world _ _ _ _ Er)).
        exists h. split; [exact Hi | apply grownFrom_refl].
      - inversion Er. exists h. split; [exact Hi | apply grownFrom_refl]. }
    destruct H1 as [h1 [Hh1 G1]].
    destruct (IH g1 g' i h1 Hr Hh1) as [h' [Hh' G2]].
    exists h'. split; [exact Hh' | eapply grownFrom_trans; eassumption].
Qed.

(** ** The pulse and the speed of the orbs *)






(** The orbs at the end of a frame. *)
Lemma step_some_orbs timestamp wander g g' :
  step random timestamp wander g = Some g' ->
  exists hs c,
    Game.orbs g' =
      if sweeps (Frame timestamp wander) g
      then fst (respawnAll random c
                  (snd (pickup hs (map (orbMotion (timestamp - Game.lastTime g))
                                     (Game.orbs g)))))
      else snd (pickup hs (map (orbMotion (timestamp - Game.lastTime g)) (Game.orbs g))).
Proof.
  intros Es. destruct (sweeps (Frame timestamp wander) g) eqn:Esw.
  - destruct (step_sweep_orbs random _ _ _ _ Es Esw) as [_ [hs [c E]]]. eauto.
  - destruct (step_quiet_orbs random _ _ _ _ Es Esw) as [hs [_ [E _]]].
    exists hs, 0%nat. exact E.
Qed.


(** X9: the motion pass changes no orb's speed: each velocity component
    keeps its magnitude (the turn at the band edge loses nothing), and
    the orb keeps its id. *)
Theorem orbs_turn_without_loss delta orb :
  Qabs (Vec.x (Orb.velocity (orbMotion delta orb))) == Qabs (Vec.x (Orb.velocity orb)) /\
  Qabs (Vec.y (Orb.velocity (orbMotion delta orb))) == Qabs (Vec.y (Orb.velocity orb)) /\
  Orb.id (orbMotion delta orb) = Orb.id orb.
Proof.
  unfold orbMotion. cbn [Orb.velocity Orb.id Vec.x Vec.y].
  assert (Hneg : forall v, Qabs (v * -1) == Qabs v).
  { intros v. assert (E : v * -1 == - v) by ring. rewrite E. apply Qabs_opp. }
  split; [| split; [| reflexivity]].
  - destruct (Qltb _ 50 || Qgtb _ (CANVAS_WIDTH - 50)); [apply Hneg | reflexivity].
  - destruct (Qltb _ 50 || Qgtb _ (CANVAS_HEIGHT - 50)); [apply Hneg | reflexivity].
Qed.

(** ** After the pickup pass nobody is within reach of an orb *)

Lemma near_setScore h s o : near (setScore h s) o = near h o.
Proof. reflexivity. Qed.

Lemma pickup_none_in_reach hs : forall orbs i h j o',
  Forall (fun h => inPlayfield (Horseman.position h)) hs ->
  hs !! i = Some h ->
  snd (pickup hs orbs) !! j = Some o' ->
  near h o' = false.
Proof.
  induction hs as [| h0 rest IH]; intros orbs i h j o' Hin Hi Hj; [inversion Hi |].
  inversion Hin as [| ? ? Hh0 Hrest]; subst.
  rewrite pickup_cons in Hj. cbn [snd] in Hj.
  destruct i as [| i].
  - inversion Hi. subst h0.
    destruct (Forall2_lookup_r _ _ _ _ _ (pickup_orbs rest _) Hj) as [o1 [Ho1 Hk]].
    destruct Hk as [-> | ->].
    + destruct (collectOrbs_spec orbs h 0%nat) as [_ [_ [_ Emap]]].
      rewrite Emap, list_lookup_fmap in Ho1.
      destruct (orbs !! j) as [o |]; [| discriminate]. simpl in Ho1.
      destruct (near h o) eqn:En; inversion Ho1; subst.
      * apply near_sentinel; [exact Hh0 | apply parked_atSentinel, parked_capture].
      * exact En.
    + apply near_sentinel; [exact Hh0 | apply parked_atSentinel, parked_capture].
  - eapply IH; [exact Hrest | exact Hi | exact Hj].
Qed.

(** X10: after a frame that does not sweep, no orb is within the pickup
    radius of any horseman: whatever was in reach has been collected. *)
Theorem no_orb_left_within_reach timestamp wander g :
  (Game.activeHorseman g < length (Game.horsemen g))%nat ->
  Game.orbTimer g + (timestamp - Game.lastTime g) <= ORB_RESPAWN_TIME ->
  exists g',
    step random timestamp wander g = Some g' /\
    forall i h j o,
      Game.horsemen g' !! i = Some h -> Game.orbs g' !! j = Some o ->
      near h o = false.
Proof.
  intros Hlt Hq.
  destruct (step_horsemen random timestamp wander g Hlt)
    as [g' [hs [Es [Eh [_ [Hint Eg]]]]]].
  exists g'. split; [exact Es |].
  assert (Hsw : sweeps (Frame timestamp wander) g = false).
  { cbn [sweeps]. apply Qgtb_le. exact Hq. }
  destruct (step_quiet_orbs random _ _ _ _ Es Hsw) as [hs0 [Eh0 [Eo _]]].
  rewrite Eh in Eh0. inversion Eh0. subst hs0.
  intros i h j o Hi Hj. rewrite Eg in Hi. rewrite Eo in Hj.
  destruct (Forall2_lookup_r _ _ _ _ _ (pickup_rescored hs _) Hi) as [h1 [Hh1 [s [-> _]]]].
  rewrite near_setScore.
  eapply pickup_none_in_reach; [| exact Hh1 | exact Hj].
  eapply Forall_impl; [exact Hint |]. intros x [x0 ->]. apply integrate_position.
Qed.

(** ** The clock of the loop *)

(** X11: after every frame the respawn timer is at most 12000: it is
    either 0 or the old timer plus the frame's delta; the frame sets the
    previous-frame timestamp, adds the delta to the elapsed time,
    requests one new callback and leaves the controlled index and the
    held keys alone. *)
Theorem frame_keeps_timer_below_threshold timestamp wander g :
  (Game.activeHorseman g < length (Game.horsemen g))%nat ->
  exists g',
    step random timestamp wander g = Some g' /\
    Game.orbTimer g' <= ORB_RESPAWN_TIME /\
    (Game.orbTimer g' = 0 \/
     Game.orbTimer g' = Game.orbTimer g + (timestamp - Game.lastTime g)) /\
    Game.lastTime g' = timestamp /\
    Game.elapsed g' = Game.elapsed g + (timestamp - Game.lastTime g) /\
    Game.raf g' = S (Game.raf g) /\
    Game.activeHorseman g' = Game.activeHorseman g /\
    Game.pressedKeys g' = Game.pressedKeys g.
Proof.
  intros Hlt.
  destruct (step_horsemen random timestamp wander g Hlt) as [g' [hs [Es [Eh _]]]].
  exists g'. split; [exact Es |].
  rewrite step_unfold in Es. cbv zeta in Es. rewrite Eh in Es.
  inversion Es as [Eg]. clear Es. unfold afterTick.
  cbn [Game.orbTimer Game.lastTime Game.elapsed Game.raf Game.activeHorseman
       Game.pressedKeys].
  destruct (Qgtb (Game.orbTimer g + (timestamp - Game.lastTime g)) ORB_RESPAWN_TIME) eqn:E.
  - rewrite updateOrbs_sweep by exact E. cbn [fst snd].
    repeat split; try reflexivity; [unfold ORB_RESPAWN_TIME; lra | left; reflexivity].
  - rewrite updateOrbs_quiet by exact E. cbn [fst snd].
    apply Qgtb_le in E.
    repeat split; try reflexivity; [exact E | right; reflexivity].
Qed.

(** ** The table of held keys *)

Lemma setActiveHorseman_keys now idx g :
  Game.pressedKeys (setActiveHorseman now idx g) = Game.pressedKeys g.
Proof.
  unfold setActiveHorseman. destruct (Nat.eqb idx (Game.activeHorseman g)); reflexivity.
Qed.

Lemma handleKeyDown_keys now key g g1 :
  handleKeyDown now key g = Some g1 ->
  Game.pressedKeys g1 = <[toLowerCase key := true]> (Game.pressedKeys g).
Proof.
  unfold handleKeyDown. intros H.
  destruct (String.leb "1" key && String.leb key "4").
  - destruct (Number key); inversion H. rewrite setActiveHorseman_keys. reflexivity.
  - inversion H. reflexivity.
Qed.

(** X12: a key press marks the lower-cased key as held, the release
    marks it as not held, no other key's entry changes, and after the
    pair the world is as before. *)
Theorem key_down_then_up now key g g1 :
  handleKeyDown now key g = Some g1 ->
  held (Game.pressedKeys g1) (toLowerCase key) = true /\
  held (Game.pressedKeys (handleKeyUp key g1)) (toLowerCase key) = false /\
  (forall k, k <> toLowerCase key ->
     held (Game.pressedKeys g1) k = held (Game.pressedKeys g) k /\
     held (Game.pressedKeys (handleKeyUp key g1)) k = held (Game.pressedKeys g) k) /\
  world (handleKeyUp key g1) = world g.
Proof.
  intros H. pose proof (handleKeyDown_keys _ _ _ _ H) as Ek.
  unfold held, handleKeyUp. cbn [Game.pressedKeys setPressedKeys]. rewrite Ek.
  split; [rewrite lookup_insert_eq; reflexivity |].
  split; [rewrite lookup_insert_eq; reflexivity |].
  split.
  - intros k Hk. rewrite !lookup_insert_ne by congruence. split; reflexivity.
  - rewrite <- (handleKeyDown_world _ _ _ _ H). reflexivity.
Qed.

(** X14: the arrow keys, space and shift never switch the rider nor
    touch the loop, and the physics reads them: an arrow sets its side of
    the direction reading (the opposite arrow still cancels it), space
    and shift give the boost 1.4. *)
Theorem control_keys_reach_the_physics now key g :
  In key controlKeys ->
  exists g1,
    handleKeyDown now key g = Some g1 /\
    Game.activeHorseman g1 = Game.activeHorseman g /\
    Game.orbTimer g1 = Game.orbTimer g /\
    Game.lastTime g1 = Game.lastTime g /\
    Game.raf g1 = Game.raf g /\
    world g1 = world g /\
    (key = "ArrowRight"%string ->
     horizontalOf (Game.pressedKeys g1)
       = 1 - bit (held (Game.pressedKeys g) "arrowleft")) /\
    (key = "ArrowLeft"%string ->
     horizontalOf (Game.pressedKeys g1)
       = bit (held (Game.pressedKeys g) "arrowright") - 1) /\
    (key = "ArrowDown"%string ->
     verticalOf (Game.pressedKeys g1)
       = 1 - bit (held (Game.pressedKeys g) "arrowup")) /\
    (key = "ArrowUp"%string ->
     verticalOf (Game.pressedKeys g1)
       = bit (held (Game.pressedKeys g) "arrowdown") - 1) /\
    (key = " "%string \/ key = "Shift"%string ->
     boostOf (Game.pressedKeys g1) = 1.4).
Proof.
  intros Hin.
  assert (Hk : String.leb "1" key && String.leb key "4" = false).
  { unfold controlKeys in Hin. simpl in Hin.
    destruct Hin as [<- | [<- | [<- | [<- | [<- | [<- | []]]]]]]; reflexivity. }
  unfold handleKeyDown. rewrite Hk. eexists. split; [reflexivity |].
  cbn [Game.activeHorseman Game.orbTimer Game.lastTime Game.raf Game.pressedKeys
       setPressedKeys].
  repeat (split; [reflexivity |]).
  unfold horizontalOf, verticalOf, boostOf, held.
  repeat split; intros E; try (destruct E as [E | E]); subst key;
    cbn [toLowerCase lowerAscii];
    repeat first [ rewrite lookup_insert_eq
                 | rewrite lookup_insert_ne by discriminate ];
    cbn [default bit orb]; try reflexivity.
  destruct (default false (Game.pressedKeys g !! " "%string)); reflexivity.
Qed.

(** ** Runs that cannot throw *)

Lemma digit_key_number key :
  (String.length key <= 1)%nat ->
  String.leb "1" key && String.leb key "4" = true ->
  exists n, Number key = Some n /\ (1 <= n <= 4)%nat.
Proof.
  intros Hlen H. destruct key as [| c rest]; [discriminate H |].
  destruct rest as [| c' rest']; [| simpl in Hlen; lia].
  destruct c as [b0 b1 b2 b3 b4 b5 b6 b7].
  destruct b0, b1, b2, b3, b4, b5, b6, b7;
    vm_compute in H; try discriminate H;
    eexists; (split; [vm_compute; reflexivity | lia]).
Qed.

Lemma updateClouds_length delta : forall cs c canvas,
  length (fst (fst (updateClouds random delta c cs canvas))) = length cs.
Proof.
  induction cs as [| cloud rest IH]; intros c canvas; simpl; [reflexivity |].
  destruct (cloudMotion random delta c cloud) as [cloud1 c1].
  specialize (IH c1 (canvas ++ [drawCloud cloud1])).
  destruct (updateClouds random delta c1 rest (canvas ++ [drawCloud cloud1]))
    as [[rest2 c2] canvas2].
  simpl in *. rewrite IH. reflexivity.
Qed.

Lemma step_shape timestamp wander g g' :
  step random timestamp wander g = Some g' ->
  length (Game.horsemen g') = length (Game.horsemen g) /\
  length (Game.orbs g') = length (Game.orbs g) /\
  length (Game.clouds g') = length (Game.clouds g) /\
  Game.activeHorseman g' = Game.activeHorseman g.
Proof.
  intros Es.
  destruct (step_some_horsemen _ _ _ _ Es) as [hs [Eh Eg]].
  destruct (step_some_orbs _ _ _ _ Es) as [hs0 [c Eo]].
  split; [| split; [| split]].
  - rewrite Eg, pickup_length.
    apply (updateHorsemen_integrated _ _ _ _ _ _ Eh).
  - rewrite Eo.
    assert (L1 : forall hsx, length (snd (pickup hsx
                  (map (orbMotion (timestamp - Game.lastTime g)) (Game.orbs g))))
                = length (Game.orbs g)).
    { intros hsx. rewrite <- (Forall2_length _ _ _ (pickup_orbs hsx _)).
      apply length_map. }
    destruct (sweeps (Frame timestamp wander) g); [| apply L1].
    rewrite <- (Forall2_length _ _ _ (respawnAll_orbs random random_unit _ c)).
    apply L1.
  - rewrite step_unfold in Es. cbv zeta in Es.
    destruct (updateHorsemen _ _ _ _ _); [| discriminate].
    inversion Es. unfold afterTick. cbn [Game.clouds]. apply updateClouds_length.
  - rewrite step_unfold in Es. cbv zeta in Es.
    destruct (updateHorsemen _ _ _ _ _); [| discriminate].
    inversion Es. reflexivity.
Qed.

Lemma handleKeyDown_plain now key g :
  plainKey key ->
  (4 <= length (Game.horsemen g))%nat ->
  (Game.activeHorseman g < length (Game.horsemen g))%nat ->
  exists g1,
    handleKeyDown now key g = Some g1 /\
    world g1 = world g /\
    (Game.activeHorseman g1 < length (Game.horsemen g))%nat.
Proof.
  intros Hp H4 Hlt. unfold handleKeyDown.
  destruct (String.leb "1" key && String.leb key "4") eqn:Ek.
  - destruct Hp as [Hlen | Hno]; [| congruence].
    destruct (digit_key_number key Hlen Ek) as [n [-> Hn]].
    eexists. split; [reflexivity |].
    split; [rewrite setActiveHorseman_world; reflexivity |].
    unfold setActiveHorseman, setPressedKeys. simpl.
    destruct (Nat.eqb (n - 1) (Game.activeHorseman g)); simpl; lia.
  - eexists. split; [reflexivity |]. split; [reflexivity | exact Hlt].
Qed.

Lemma world_lengths g g' :
  world g' = world g ->
  length (Game.horsemen g') = length (Game.horsemen g) /\
  length (Game.orbs g') = length (Game.orbs g) /\
  length (Game.clouds g') = length (Game.clouds g).
Proof.
  intros H. unfold world in H. inversion H as [[Hh Ho Hc]].
  repeat split; reflexivity.
Qed.

(** X3: with at least four horsemen and a controlled index that names
    one, a run of frames, key releases and presses of plain keys (a
    single character, or a key not between "1" and "4") never throws, and
    keeps the numbers of horsemen, orbs and clouds and a valid controlled
    index. *)
Theorem plain_runs_never_throw events : forall g,
  (4 <= length (Game.horsemen g))%nat ->
  (Game.activeHorseman g < length (Game.horsemen g))%nat ->
  Forall plainEvent events ->
  exists g',
    run random events g = Some g' /\
    length (Game.horsemen g') = length (Game.horsemen g) /\
    length (Game.orbs g') = length (Game.orbs g) /\
    length (Game.clouds g') = length (Game.clouds g) /\
    (Game.activeHorseman g' < length (Game.horsemen g'))%nat.
Proof.
  induction events as [| e rest IH]; intros g H4 Hlt Hall.
  - exists g. split; [reflexivity |]. repeat (split; [reflexivity |]). exact Hlt.
  - inversion Hall as [| ? ? He Hrest]; subst.
    assert (H1 : exists g1, react random e g = Some g1 /\
               length (Game.horsemen g1) = length (Game.horsemen g) /\
               length (Game.orbs g1) = length (Game.orbs g) /\
               length (Game.clouds g1) = length (Game.clouds g) /\
               (Game.activeHorseman g1 < length (Game.horsemen g1))%nat).
    { destruct e as [timestamp wander | now key | key]; cbn [react].
      - destruct (step_horsemen random timestamp wander g Hlt) as [g1 [hs [Es _]]].
        exists g1. split; [exact Es |].
        destruct (step_shape _ _ _ _ Es) as [L1 [L2 [L3 L4]]].
        split; [exact L1 |]. split; [exact L2 |]. split; [exact L3 |].
        rewrite L1, L4. exact Hlt.
      - destruct (handleKeyDown_plain now key g He H4 Hlt) as [g1 [E1 [Hw Ha]]].
        exists g1. split; [exact E1 |].
        destruct (world_lengths _ _ Hw) as [L1 [L2 L3]].
        split; [exact L1 |]. split; [exact L2 |]. split; [exact L3 |].
        rewrite L1. exact Ha.
      - eexists. split; [reflexivity |]. repeat (split; [reflexivity |]). exact Hlt. }
    destruct H1 as [g1 [Er [L1 [L2 [L3 La]]]]].
    assert (H4' : (4 <= length (Game.horsemen g1))%nat) by lia.
    destruct (IH g1 H4' La Hrest) as [g' [Hr [M1 [M2 [M3 Ma]]]]].
    exists g'. cbn [run]. rewrite Er. split; [exact Hr |].
    split; [congruence |]. split; [congruence |]. split; [congruence |]. exact Ma.
Qed.

(** X13: over a run of frames only, the elapsed time grows by exactly
    the time between the first previous-frame timestamp and the last
    one, and one callback is requested per frame. *)
Theorem frames_accumulate_elapsed events : forall g g',
  Forall isFrame events ->
  run random events g = Some g' ->
  Game.elapsed g' - Game.elapsed g == Game.lastTime g' - Game.lastTime g /\
  Game.raf g' = (Game.raf g + length events)%nat.
Proof.
  induction events as [| e rest IH]; intros g g' Hall Hr.
  - inversion Hr. subst. split; [ring | simpl; lia].
  - inversion Hall as [| ? ? He Hrest]; subst.
    cbn [run] in Hr.
    destruct (react random e g) as [g1 |] eqn:Er; [| discriminate].
    destruct (IH g1 g' Hrest Hr) as [E1 E2].
    destruct e as [timestamp wander | now key | key]; try contradiction.
    cbn [react] in Er. rewrite step_unfold in Er. cbv zeta in Er.
    destruct (updateHorsemen _ _ _ _ _); [| discriminate].
    inversion Er as [Eg]. subst g1. unfold afterTick in E1, E2.
    cbn [Game.elapsed Game.lastTime Game.raf] in E1, E2.
    split; [lra | simpl; lia].
Qed.

(** ** The world at mount time *)

Lemma inject_nat_bounds n k :
  (n <= k)%nat -> 0 <= inject_Z (Z.of_nat n) <= inject_Z (Z.of_nat k).
Proof.
  intros H. unfold Qle. simpl. lia.
Qed.

Lemma newHorseman_fresh index colors :
  (index < 4)%nat -> freshHorseman (newHorseman random index colors).
Proof.
  intros Hi. unfold newHorseman. destruct colors as [[[color trail] accent] name].
  unfold freshHorseman, inPlayfield.
  cbn [Horseman.position Horseman.velocity Horseman.score Horseman.targetTilt
       Horseman.tilt Vec.x Vec.y].
  pose proof (randomRange_bounds (random (2 * index)) (-1) 1 (random_unit _)) as H1.
  pose proof (randomRange_bounds (random (2 * index + 1)) (-1) 1 (random_unit _)) as H2.
  assert (Hx : 300 <= CANVAS_WIDTH / 2 + (inject_Z (Z.of_nat index) - 1.5) * 120 <= 660).
  { destruct (inject_nat_bounds index 3 ltac:(lia)) as [B1 B2].
    change (inject_Z (Z.of_nat 3)) with 3 in B2.
    assert (E : CANVAS_WIDTH / 2 == 480) by reflexivity.
    rewrite E. lra. }
  assert (Hy : 220 <= CANVAS_HEIGHT / 2 + (if Nat.even index then -60 else 60) <= 340).
  { assert (E : CANVAS_HEIGHT / 2 == 280) by reflexivity.
    rewrite E. destruct (Nat.even index); lra. }
  repeat split; try lra; try (apply H1; lra); try (apply H2; lra).
Qed.

Lemma newOrb_fresh base idx : freshOrb (newOrb random base idx).
Proof.
  unfold newOrb, freshOrb, pulseOK, isSentinel, outsideBandX, outsideBandY, SENTINEL,
    CANVAS_WIDTH, CANVAS_HEIGHT.
  cbn [Orb.position Orb.velocity Orb.pulse Orb.pulseDir Vec.x Vec.y].
  set (c := (base + 6 * idx)%nat).
  pose proof (randomRange_bounds (random c) 80 (960 - 80) (random_unit _)) as H1.
  pose proof (randomRange_bounds (random (c + 1)) 80 (560 - 80) (random_unit _)) as H2.
  pose proof (randomRange_bounds (random (c + 2)) (-0.4) 0.4 (random_unit _)) as H3.
  pose proof (randomRange_bounds (random (c + 3)) (-0.3) 0.3 (random_unit _)) as H4.
  pose proof (randomRange_bounds (random (c + 4)) 0.5 1 (random_unit _)) as H5.
  specialize (H1 ltac:(lra)). specialize (H2 ltac:(lra)). specialize (H3 ltac:(lra)).
  specialize (H4 ltac:(lra)). specialize (H5 ltac:(lra)).
  split; [lra |]. split; [lra |]. split; [lra |]. split; [lra |].
  split; [lra |].
  split.
  { split; [lra |]. split.
    - destruct (Qgtb (random (c + 5)) 0.5); [left | right]; reflexivity.
    - split; intros ?; lra. }
  split.
  { destruct (Qeq_bool _ (-999)) eqn:E; [| reflexivity].
    apply Qeq_bool_iff in E. lra. }
  split; apply orb_false_iff; split;
    first [apply Qltb_ge; lra | apply Qgtb_le; lra].
Qed.

Lemma newCloud_fresh base idx : freshCloud (newCloud random base idx).
Proof.
  unfold newCloud, freshCloud, CANVAS_WIDTH, CANVAS_HEIGHT.
  cbn [Cloud.position Cloud.size Cloud.speed Cloud.opacity Vec.x Vec.y].
  set (c := (base + 5 * idx)%nat).
  pose proof (randomRange_bounds (random c) 0 960 (random_unit _)) as H1.
  pose proof (randomRange_bounds (random (c + 1)) 0 560 (random_unit _)) as H2.
  pose proof (randomRange_bounds (random (c + 2)) 120 240 (random_unit _)) as H3.
  pose proof (randomRange_bounds (random (c + 3)) 0.2 0.6 (random_unit _)) as H4.
  pose proof (randomRange_bounds (random (c + 4)) 0.05 0.14 (random_unit _)) as H5.
  specialize (H1 ltac:(lra)). specialize (H2 ltac:(lra)). specialize (H3 ltac:(lra)).
  specialize (H4 ltac:(lra)). specialize (H5 ltac:(lra)).
  repeat split; lra.
Qed.

(** X2: the mounted game has 4 horsemen, 6 orbs and 12 clouds, horseman
    0 controlled and the timer at 0; every horseman starts inside the
    playfield with velocity components in [-1, 1), score 0, and tilt and
    target tilt 0; every orb starts inside the band, not at the
    sentinel, with a pulse in [0.5, 1] and a pulse direction of 1 or -1;
    every cloud starts on the canvas with a size in [120, 240], a speed
    in [0.2, 0.6) and an opacity in [0.05, 0.14]. *)
Theorem mount_is_well_formed now :
  length (Game.horsemen (mount random now)) = 4%nat /\
  length (Game.orbs (mount random now)) = 6%nat /\
  length (Game.clouds (mount random now)) = 12%nat /\
  Game.activeHorseman (mount random now) = 0%nat /\
  Game.orbTimer (mount random now) = 0 /\
  Game.lastTime (mount random now) = now /\
  Forall freshHorseman (Game.horsemen (mount random now)) /\
  Forall freshOrb (Game.orbs (mount random now)) /\
  Forall freshCloud (Game.clouds (mount random now)).
Proof.
  unfold mount. cbn [Game.horsemen Game.orbs Game.clouds Game.activeHorseman
                     Game.orbTimer Game.lastTime].
  split; [reflexivity |]. split; [reflexivity |]. split; [reflexivity |].
  split; [reflexivity |]. split; [reflexivity |]. split; [reflexivity |].
  split; [| split].
  - apply Forall_lookup. intros i h Hi.
    rewrite list_lookup_imap in Hi.
    destruct (palette !! i) as [colors |] eqn:Ec; [| discriminate].
    inversion Hi. apply newHorseman_fresh.
    apply lookup_lt_Some in Ec. exact Ec.
  - apply Forall_fmap, Forall_forall. intros idx _. apply newOrb_fresh.
  - apply Forall_fmap, Forall_forall. intros idx _. apply newCloud_fresh.
Qed.

(** ** Clouds *)

Lemma cloudMotion_drifted delta c cloud :
  driftedFrom delta cloud (fst (cloudMotion random delta c cloud)) /\
  (c <= snd (cloudMotion random delta c cloud) <= c + 1)%nat.
Proof.
  unfold cloudMotion, driftedFrom. cbv zeta.
  destruct (Qgtb (Vec.x (Cloud.position cloud) + Cloud.speed cloud * (delta / 16)
                  - Cloud.size cloud) CANVAS_WIDTH) eqn:E;
    cbn [fst snd Cloud.id Cloud.size Cloud.speed Cloud.opacity Cloud.position
         Vec.x Vec.y].
  - apply Qgtb_gt in E.
    pose proof (randomRange_bounds (random c) 0 CANVAS_HEIGHT (random_unit _)
                  ltac:(unfold CANVAS_HEIGHT; lra)) as Hy.
    split; [| lia]. repeat (split; [reflexivity |]).
    right. split; [reflexivity |]. split; [exact Hy | exact E].
  - apply Qgtb_le in E.
    split; [| lia]. repeat (split; [reflexivity |]).
    left. split; [reflexivity |]. split; [reflexivity | exact E].
Qed.

Lemma cloudMotion_cursor delta c cloud :
  snd (cloudMotion random delta c cloud)
    = (c + (if wraps delta cloud then 1 else 0))%nat /\
  (wraps delta cloud = true ->
   Vec.y (Cloud.position (fst (cloudMotion random delta c cloud)))
     = randomRange (random c) 0 CANVAS_HEIGHT).
Proof.
  unfold cloudMotion, wraps. cbv zeta.
  destruct (Qgtb (Vec.x (Cloud.position cloud) + Cloud.speed cloud * (delta / 16)
                  - Cloud.size cloud) CANVAS_WIDTH);
    cbn [fst snd Cloud.position Vec.y]; split; try lia; try reflexivity.
Qed.

Lemma reentries_cons delta cloud rest :
  length (filter (fun cl => wraps delta cl = true) (cloud :: rest))
    = ((if wraps delta cloud then 1 else 0)
       + length (filter (fun cl => wraps delta cl = true) rest))%nat.
Proof.
  rewrite filter_cons. destruct (wraps delta cloud) eqn:E.
  - destruct (decide (true = true)) as [_ | Hd]; [reflexivity | congruence].
  - destruct (decide (false = true)) as [Hd | _]; [discriminate Hd | reflexivity].
Qed.

(** X15: [updateClouds] keeps every cloud's id, size, speed and opacity;
    a cloud drifts right by speed * delta / 16 at its height, or, when
    that would put its whole disc past the right edge, re-enters at
    x = -size at a new height in [0, 560); exactly one random number is
    drawn per re-entering cloud and none for a cloud that drifts, the
    new height of a re-entering cloud being the draw that follows those
    of the re-entering clouds before it; and one disc is painted per
    cloud, at its new place. *)
Theorem clouds_drift_and_wrap delta : forall cs c canvas,
  Forall2 (driftedFrom delta) cs (fst (fst (updateClouds random delta c cs canvas))) /\
  snd (fst (updateClouds random delta c cs canvas))
    = (c + length (filter (fun cloud => wraps delta cloud = true) cs))%nat /\
  (forall i cloud, cs !! i = Some cloud -> wraps delta cloud = true ->
     exists cloud',
       fst (fst (updateClouds random delta c cs canvas)) !! i = Some cloud' /\
       Vec.y (Cloud.position cloud')
         = randomRange (random (c + reentriesBefore delta i cs)) 0 CANVAS_HEIGHT) /\
  snd (updateClouds random delta c cs canvas)
    = canvas ++ map drawCloud (fst (fst (updateClouds random delta c cs canvas))).
Proof.
  intros cs c canvas.
  split; [| split; [| split; [| apply updateClouds_canvas]]]; revert c canvas.
  - induction cs as [| cloud rest IH]; intros c canvas; simpl; [constructor |].
    pose proof (cloudMotion_drifted delta c cloud) as [Hd _].
    destruct (cloudMotion random delta c cloud) as [cloud1 c1].
    specialize (IH c1 (canvas ++ [drawCloud cloud1])).
    destruct (updateClouds random delta c1 rest (canvas ++ [drawCloud cloud1]))
      as [[rest2 c2] canvas2].
    simpl in *. constructor; assumption.
  - induction cs as [| cloud rest IH]; intros c canvas.
    + simpl. lia.
    + rewrite reentries_cons. cbn [updateClouds].
      pose proof (cloudMotion_cursor delta c cloud) as [Hc _].
      destruct (cloudMotion random delta c cloud) as [cloud1 c1].
      specialize (IH c1 (canvas ++ [drawCloud cloud1])).
      destruct (updateClouds random delta c1 rest (canvas ++ [drawCloud cloud1]))
        as [[rest2 c2] canvas2].
      cbn [fst snd] in *. lia.
  - induction cs as [| cloud rest IH]; intros c canvas i cl Hi Hw.
    + discriminate Hi.
    + cbn [updateClouds].
      pose proof (cloudMotion_cursor delta c cloud) as [Hc Hy].
      destruct (cloudMotion random delta c cloud) as [cloud1 c1].
      specialize (IH c1 (canvas ++ [drawCloud cloud1])).
      destruct (updateClouds random delta c1 rest (canvas ++ [drawCloud cloud1]))
        as [[rest2 c2] canvas2].
      cbn [fst snd] in *.
      destruct i as [| i].
      * inversion Hi. subst cl. exists cloud1. split; [reflexivity |].
        unfold reentriesBefore. cbn [take]. rewrite filter_nil. cbn [length].
        rewrite Nat.add_0_r. apply Hy. exact Hw.
      * cbn [lookup list_lookup] in Hi.
        destruct (IH i cl Hi Hw) as [cloud' [Hl Ey]].
        exists cloud'. split; [exact Hl |]. rewrite Ey.
        unfold reentriesBefore. cbn [take]. rewrite reentries_cons, Hc.
        f_equal. f_equal. lia.
Qed.

(** ** What is painted *)

(** X16: every horseman is painted at a scale between 1 and 1.4, which
    is 1.4 from 20 points on, and the ring is drawn around the controlled
    horseman and no other. *)
Theorem sprite_scale_is_capped_and_ring_marks_the_controlled a hs i cmd :
  drawHorsemen a hs !! i = Some cmd ->
  exists h s,
    hs !! i = Some h /\
    spriteScale cmd = Some s /\
    1 <= s <= 1.4 /\
    ((20 <= Horseman.score h)%nat -> s == 1.4) /\
    spriteRing cmd = Some (Nat.eqb i a).
Proof.
  unfold drawHorsemen. rewrite list_lookup_imap. intros H.
  destruct (hs !! i) as [h |]; [| discriminate]. inversion H. clear H.
  exists h. eexists. split; [reflexivity |]. unfold drawHorseman.
  cbn [spriteScale spriteRing]. split; [reflexivity |].
  set (n := inject_Z (Z.of_nat (Horseman.score h))).
  assert (Hn : 0 <= n) by (unfold n, Qle; simpl; lia).
  split; [| split; [| reflexivity]].
  - destruct (Qmin_cases n 20) as [[M1 ->] | [M1 ->]]; lra.
  - intros H20.
    assert (Hge : 20 <= n).
    { unfold n, Qle. simpl. lia. }
    destruct (Qmin_cases n 20) as [[M1 ->] | [M1 ->]]; lra.
Qed.

Lemma drawOrbs_shown orbs :
  eachShown (fun _ => showsOrb) (filter (fun o => isSentinel o = false) orbs)
    (drawOrbs orbs).
Proof.
  unfold drawOrbs. induction orbs as [| o rest [IHl IHs]].
  - split; [reflexivity |]. intros i x Hi. discriminate Hi.
  - cbn [map concat]. rewrite filter_cons. unfold drawOrb at 1.
    destruct (isSentinel o) eqn:E.
    + destruct (decide (true = false)) as [Hd | _]; [discriminate Hd |].
      cbn [app]. split; assumption.
    + destruct (decide (false = false)) as [_ | Hd]; [| congruence].
      cbn [app]. split; [cbn [length]; rewrite IHl; reflexivity |].
      intros [| i] x Hi.
      * inversion Hi. subst x. eexists. split; [reflexivity |].
        cbn [showsOrb]. repeat split.
      * apply (IHs i x Hi).
Qed.

Lemma imap_shown {A} (shows : nat -> A -> DrawCmd -> Prop) (draw : nat -> A -> DrawCmd)
    (l : list A) :
  (forall i x, shows i x (draw i x)) -> eachShown shows l (imap draw l).
Proof.
  intros H. split; [apply length_imap |].
  intros i x Hi. exists (draw i x). split; [| apply H].
  rewrite list_lookup_imap, Hi. reflexivity.
Qed.

(** X17: a finished frame holds, in this order, the sky, one disc per
    cloud at the cloud's place with its size and opacity, one sprite per
    horseman at his place with his tilt and colours (the ring on the
    controlled one), one glow per orb that is not at the sentinel, at
    the orb's place with its pulse, the hint line, and one score panel
    per horseman with his name, score and accent; nothing else. *)
Theorem frame_paints_each_entity_once timestamp wander g :
  (Game.activeHorseman g < length (Game.horsemen g))%nat ->
  exists g' discs sprites glows panels,
    step random timestamp wander g = Some g' /\
    Game.canvas g'
      = Backdrop (Game.seenElapsed g')
          :: discs ++ sprites ++ glows ++ Hint :: panels /\
    eachShown (fun _ => showsCloud) (Game.clouds g') discs /\
    eachShown (showsHorseman (Game.activeHorseman g')) (Game.horsemen g') sprites /\
    eachShown (fun _ => showsOrb)
      (filter (fun o => isSentinel o = false) (Game.orbs g')) glows /\
    eachShown (showsScore (Game.activeHorseman g')) (Game.horsemen g') panels.
Proof.
  intros Hlt.
  destruct (step_horsemen random timestamp wander g Hlt) as [g' [hs [Es _]]].
  exists g', (map drawCloud (Game.clouds g')),
    (drawHorsemen (Game.activeHorseman g') (Game.horsemen g')),
    (drawOrbs (Game.orbs g')),
    (imap (drawPanel (Game.activeHorseman g')) (Game.horsemen g')).
  split; [exact Es |].
  split; [rewrite (step_canvas random _ _ _ _ Es); reflexivity |].
  split.
  { split; [apply length_map |]. intros i cloud Hi.
    exists (drawCloud cloud). split; [rewrite list_lookup_fmap, Hi; reflexivity |].
    cbn [drawCloud showsCloud]. repeat split. }
  split.
  { apply imap_shown. intros i h. cbn [drawHorseman showsHorseman]. repeat split. }
  split; [apply drawOrbs_shown |].
  apply imap_shown. intros i h. cbn [drawPanel showsScore]. repeat split.
Qed.

(** ** The rider just selected *)

(** X18: after a digit key selects a horseman, the next frame moves that
    horseman by the steering of the held keys alone (no flocking, no
    wander), with the delta measured from the loop's previous-frame
    timestamp; only its score may be higher. *)
Theorem selected_rider_is_steered_on_the_next_frame
    now key n g g1 timestamp wander g2 h :
  String.leb "1" key && String.leb key "4" = true ->
  Number key = Some n ->
  Game.horsemen g !! (n - 1)%nat = Some h ->
  handleKeyDown now key g = Some g1 ->
  step random timestamp wander g1 = Some g2 ->
  exists s,
    Game.horsemen g2 !! (n - 1)%nat =
      Some (setScore
              (controlledTick (Game.pressedKeys g1)
                 (timestamp - Game.lastTime g1) h) s) /\
    (Horseman.score h <= s)%nat.
Proof.
  intros Hk Hn Hh Hd Es.
  assert (Ha : Game.activeHorseman g1 = (n - 1)%nat).
  { unfold handleKeyDown in Hd. rewrite Hk, Hn in Hd. inversion Hd.
    unfold setActiveHorseman.
    destruct (Nat.eqb (n - 1) (Game.activeHorseman (setPressedKeys g _))) eqn:E;
      [| reflexivity].
    apply Nat.eqb_eq in E. symmetry. exact E. }
  assert (Hh1 : Game.horsemen g1 !! (n - 1)%nat = Some h).
  { rewrite (world_horsemen _ _ (handleKeyDown_world _ _ _ _ Hd)). exact Hh. }
  destruct (step_some_horsemen _ _ _ _ Es) as [hs [Eh Eg]].
  rewrite Ha in Eh.
  pose proof (updateHorsemen_active _ _ _ _ _ _ _ Hh1 Eh) as Hact.
  destruct (Forall2_lookup_l _ _ _ _ _ (pickup_rescored hs
              (map (orbMotion (timestamp - Game.lastTime g1)) (Game.orbs g1))) Hact)
    as [h' [Hh' [s [-> Hs]]]].
  exists s. rewrite Eg. split; [exact Hh' |].
  assert (Esc : Horseman.score (controlledTick (Game.pressedKeys g1)
                  (timestamp - Game.lastTime g1) h) = Horseman.score h).
  { unfold controlledTick.
    pose proof (integrate_rider (timestamp - Game.lastTime g1)
      (steer (horizontalOf (Game.pressedKeys g1)) (verticalOf (Game.pressedKeys g1))
         (boostOf (Game.pressedKeys g1)) h)) as E1.
    pose proof (steer_rider (horizontalOf (Game.pressedKeys g1))
      (verticalOf (Game.pressedKeys g1)) (boostOf (Game.pressedKeys g1)) h) as E2.
    inversion E1. inversion E2. congruence. }
  rewrite Esc in Hs. exact Hs.
Qed.

(** ** Who collects an orb *)

Lemma firing_elem h orbs : forall m j o,
  orbs !! j = Some o -> near h o = true -> (m + j)%nat ∈ firing h m orbs.
Proof.
  induction orbs as [| o0 rest IH]; intros m j o Hj Hn; [inversion Hj |].
  destruct j as [| j]; simpl.
  - inversion Hj. subst o0. rewrite Hn, Nat.add_0_r. left.
  - simpl in Hj. replace (m + S j)%nat with (S m + j)%nat by lia.
    destruct (near h o0); [right |]; eapply IH; eassumption.
Qed.

Lemma pickupEvents_first hs : forall orbs k i j h o,
  hs !! i = Some h -> orbs !! j = Some o -> near h o = true ->
  (forall i' h', (i' < i)%nat -> hs !! i' = Some h' -> near h' o = false) ->
  ((k + i)%nat, j) ∈ pickupEvents k hs orbs.
Proof.
  induction hs as [| h0 rest IH]; intros orbs k i j h o Hi Hj Hn Hfirst;
    [inversion Hi |].
  cbn [pickupEvents]. apply elem_of_app.
  destruct i as [| i].
  - left. inversion Hi. subst h0. rewrite Nat.add_0_r.
    apply list_elem_of_fmap. exists j. split; [reflexivity |].
    apply (firing_elem h orbs 0%nat j o Hj Hn).
  - right. simpl in Hi. replace (k + S i)%nat with (S k + i)%nat by lia.
    apply (IH _ (S k) i j h o Hi); [| exact Hn |].
    + destruct (collectOrbs_spec orbs h0 0%nat) as [_ [_ [_ ->]]].
      rewrite list_lookup_fmap, Hj. simpl.
      rewrite (Hfirst 0%nat h0 ltac:(lia) eq_refl). reflexivity.
    + intros i' h' Hlt Hi'. apply (Hfirst (S i') h'); [lia | exact Hi'].
Qed.

Lemma two_elements_length {A} (l : list A) x y :
  x ∈ l -> y ∈ l -> x <> y -> (2 <= length l)%nat.
Proof.
  intros Hx Hy Hne. destruct l as [| a [| b l']]; simpl; try lia.
  - inversion Hx.
  - apply list_elem_of_singleton in Hx. apply list_elem_of_singleton in Hy. congruence.
Qed.

(** X19: when horsemen are inside the playfield, an orb within reach of
    some of them is collected by the first of them in index order and by
    nobody else, and ends the pass parked. *)
Theorem first_horseman_in_reach_collects hs orbs i j h o :
  Forall (fun h => inPlayfield (Horseman.position h)) hs ->
  hs !! i = Some h -> orbs !! j = Some o -> near h o = true ->
  (forall i' h', (i' < i)%nat -> hs !! i' = Some h' -> near h' o = false) ->
  (i, j) ∈ pickupEvents 0 hs orbs /\
  (forall i', (i', j) ∈ pickupEvents 0 hs orbs -> i' = i) /\
  exists o', snd (pickup hs orbs) !! j = Some o' /\ parked o'.
Proof.
  intros Hin Hi Hj Hn Hfirst.
  pose proof (pickupEvents_first hs orbs 0%nat i j h o Hi Hj Hn Hfirst) as Hev.
  simpl in Hev. split; [exact Hev |]. split.
  - intros i' Hi'. destruct (decide (i' = i)) as [E | Hne]; [exact E | exfalso].
    pose proof (pickupEvents_once j hs orbs 0%nat Hin) as Honce.
    unfold collectionsOf in Honce.
    assert (H2 : (2 <= length (filter (fun e : nat * nat => snd e = j)
                                 (pickupEvents 0 hs orbs)))%nat).
    { apply (two_elements_length _ (i, j) (i', j)).
      - apply list_elem_of_filter. split; [reflexivity | exact Hev].
      - apply list_elem_of_filter. split; [reflexivity | exact Hi'].
      - congruence. }
    lia.
  - apply (pickup_collected_parked j hs orbs 0%nat).
    unfold collectionsOf.
    assert (Hf : (i, j) ∈ filter (fun e : nat * nat => snd e = j) (pickupEvents 0 hs orbs)).
    { apply list_elem_of_filter. split; [reflexivity | exact Hev]. }
    destruct (filter _ (pickupEvents 0 hs orbs)); [inversion Hf | simpl; lia].
Qed.

(** ** Bounds over whole runs *)

Lemma step_inBounds timestamp wander g g' :
  step random timestamp wander g = Some g' -> Forall inBounds (Game.horsemen g').
Proof.
  intros Es. destruct (step_some_horsemen _ _ _ _ Es) as [hs [Eh ->]].
  destruct (updateHorsemen_integrated _ _ _ _ _ _ Eh) as [_ Hint].
  apply Forall_lookup. intros i h' Hi.
  destruct (Forall2_lookup_r _ _ _ _ _ (pickup_rescored hs _) Hi) as [h [Hh [s [-> _]]]].
  destruct (Forall_lookup_1 _ _ _ _ Hint Hh) as [h0 ->].
  split; [apply integrate_position | apply integrate_velocity].
Qed.

(** X20: horsemen that are inside the playfield and under the speed
    limit stay so over every run of frames and key events. *)
Theorem horsemen_stay_in_bounds_over_runs events : forall g g',
  Forall inBounds (Game.horsemen g) ->
  run random events g = Some g' ->
  Forall inBounds (Game.horsemen g').
Proof.
  induction events as [| e rest IH]; intros g g' Hall Hr.
  - inversion Hr. subst. exact Hall.
  - cbn [run] in Hr.
    destruct (react random e g) as [g1 |] eqn:Er; [| discriminate].
    apply (IH g1 g'); [| exact Hr].
    destruct e as [timestamp wander | now key | key]; cbn [react] in Er.
    + eapply step_inBounds. exact Er.
    + rewrite (world_horsemen _ _ (handleKeyDown_world _ _ _ _ Er)). exact Hall.
    + inversion Er. exact Hall.
Qed.

(** ** What a sweep leaves alone *)

(** X21: in a frame whose timer exceeds 12000, every orb either gets a
    fresh place in the spawn ranges or is merely moved by the motion
    pass; the second happens only to orbs whose x is not the sentinel,
    and an orb parked before the frame always gets the first. *)
Theorem sweep_only_relocates_orbs_at_the_sentinel timestamp wander g g' j o :
  Game.orbTimer g + (timestamp - Game.lastTime g) > ORB_RESPAWN_TIME ->
  step random timestamp wander g = Some g' ->
  Game.orbs g !! j = Some o ->
  exists o',
    Game.orbs g' !! j = Some o' /\
    (parked o -> respawned o') /\
    (respawned o' \/
     (o' = orbMotion (timestamp - Game.lastTime g) o /\ isSentinel o' = false)).
Proof.
  intros Hgt Es Hj.
  assert (Hsw : sweeps (Frame timestamp wander) g = true).
  { cbn [sweeps]. apply Qgtb_gt. exact Hgt. }
  exact (step_sweep_each random random_unit _ _ _ _ Es Hsw j o Hj).
Qed.

(** ** Distances *)

(** X22: the distance test does not depend on the order of the two
    points, and a point is within every positive radius of itself. *)
Theorem distance_test_is_symmetric a b r :
  distanceLt a b r = distanceLt b a r /\
  (0 < r -> distanceLt a a r = true).
Proof.
  unfold distanceLt, distanceSq. split.
  - apply Qltb_proper. ring.
  - intros Hr. apply Qltb_lt.
    assert (H0 : (Vec.x a - Vec.x a) * (Vec.x a - Vec.x a)
                 + (Vec.y a - Vec.y a) * (Vec.y a - Vec.y a) == 0) by ring.
    assert (H1 : 0 < r * r) by (apply Qmult_lt_0_compat; exact Hr).
    lra.
Qed.

End MoreFacts.


(** * Speed, sweep and order of a tick, in full *)

Section TickFacts.
Variable random : nat -> Q.
Hypothesis random_unit : forall n, 0 <= random n < 1.

(** ** The move of a horseman uses the clamped velocity *)

Lemma bounce_clamps p v lo hi : lo <= hi -> fst (bounce p v lo hi) = clamp p lo hi.
Proof.
  intros Hb. unfold bounce.
  destruct (Qltb p lo || Qgtb p hi) eqn:E; cbn [fst]; [reflexivity |].
  apply orb_false_iff in E. destruct E as [E1 E2].
  apply Qltb_ge in E1. apply Qgtb_le in E2.
  symmetry. apply clamp_inside; assumption.
Qed.

(** Where [integrate] puts a horseman: the old place moved by the
    clamped velocity, brought back between the walls. *)
Lemma integrate_moves delta h :
  let cx := clamp (Vec.x (Horseman.velocity h)) (- HORSEMAN_MAX_SPEED) HORSEMAN_MAX_SPEED in
  let cy := clamp (Vec.y (Horseman.velocity h)) (- HORSEMAN_MAX_SPEED) HORSEMAN_MAX_SPEED in
  Vec.x (Horseman.position (integrate delta h))
    = clamp (Vec.x (Horseman.position h) + cx * (delta / 16)) 40 (CANVAS_WIDTH - 40) /\
  Vec.y (Horseman.position (integrate delta h))
    = clamp (Vec.y (Horseman.position h) + cy * (delta / 16)) 50 (CANVAS_HEIGHT - 100).
Proof.
  intros cx cy. unfold integrate. fold cx cy.
  pose proof (bounce_clamps (Vec.x (Horseman.position h) + cx * (delta / 16))
                (cx * HORSEMAN_FRICTION) 40 (CANVAS_WIDTH - 40)
                ltac:(unfold CANVAS_WIDTH; lra)) as Hx.
  pose proof (bounce_clamps (Vec.y (Horseman.position h) + cy * (delta / 16))
                (cy * HORSEMAN_FRICTION) 50 (CANVAS_HEIGHT - 100)
                ltac:(unfold CANVAS_HEIGHT; lra)) as Hy.
  destruct (bounce (Vec.x _ + _) _ 40 _) as [px' vx'].
  destruct (bounce (Vec.y _ + _) _ 50 _) as [py' vy'].
  cbn [Horseman.position setTilt setPosition setVelocity Vec.x Vec.y fst] in *.
  split; assumption.
Qed.

Section MovedLoop.
Variables (delta : Q) (wander : nat -> Q) (a : nat) (orig : list Horseman).

(** What a visit leaves at its index: the horseman found there, moved by
    [integrate] from the place he had. *)
Lemma visit_at cur k cur' h :
  visit delta wander a cur k = Some cur' -> cur' !! k = Some h ->
  exists hk h0,
    cur !! k = Some hk /\ h = integrate delta h0 /\
    Horseman.position h0 = Horseman.position hk.
Proof.
  unfold visit. intros Hv Hl.
  destruct (cur !! k) as [hk |] eqn:Ek.
  - assert (Hlt : (k < length cur)%nat) by (eapply lookup_lt_Some; exact Ek).
    destruct (Nat.eqb k a).
    + inversion Hv. subst cur'. rewrite list_lookup_insert_eq in Hl by exact Hlt.
      inversion Hl. exists hk, hk. repeat split.
    + destruct (cur !! a) as [active |]; [| discriminate].
      inversion Hv. subst cur'. rewrite list_lookup_insert_eq in Hl by exact Hlt.
      inversion Hl. exists hk. eexists. repeat split.
  - inversion Hv. subst cur'. congruence.
Qed.

(** The loop over the indices [k, k+n): those below [k+n] end up moved by
    [integrate] from the place the tick found them at, provided those
    below [k] already are and the others still stand where they stood. *)
Lemma visitAll_moved n : forall k cur cur',
  visitAll delta wander a (seq k n) cur = Some cur' ->
  (forall j h, (j < k)%nat -> cur !! j = Some h ->
     exists h0 ho, h = integrate delta h0 /\ orig !! j = Some ho /\
       Horseman.position h0 = Horseman.position ho) ->
  (forall j h, (k <= j)%nat -> cur !! j = Some h ->
     exists ho, orig !! j = Some ho /\ Horseman.position h = Horseman.position ho) ->
  forall j h, (j < k + n)%nat -> cur' !! j = Some h ->
    exists h0 ho, h = integrate delta h0 /\ orig !! j = Some ho /\
      Horseman.position h0 = Horseman.position ho.
Proof.
  induction n as [| n IH]; intros k cur cur' H Hdone Hpend; simpl in H.
  - inversion H. subst. intros j h Hj. apply Hdone. lia.
  - destruct (visit delta wander a cur k) as [cur1 |] eqn:Ev; [| discriminate].
    intros j h Hj. apply (IH (S k) cur1 cur' H); [| | lia].
    + intros j1 h1 Hj1 Hl.
      destruct (decide (j1 = k)) as [-> | Hne].
      * destruct (visit_at _ _ _ _ Ev Hl) as [hk [h0 [Ek [-> Ep]]]].
        destruct (Hpend k hk (Nat.le_refl k) Ek) as [ho [Ho Epo]].
        exists h0, ho. split; [reflexivity |]. split; [exact Ho | congruence].
      * rewrite (visit_other _ _ _ _ _ _ _ Ev Hne) in Hl.
        apply (Hdone j1 h1); [lia | exact Hl].
    + intros j1 h1 Hj1 Hl.
      assert (Hne : j1 <> k) by lia.
      rewrite (visit_other _ _ _ _ _ _ _ Ev Hne) in Hl.
      apply (Hpend j1 h1); [lia | exact Hl].
Qed.
End MovedLoop.

Lemma updateHorsemen_moved pressedKeys a wander delta hs hs' :
  updateHorsemen pressedKeys a wander delta hs = Some hs' ->
  forall i h, hs !! i = Some h ->
    exists h0, hs' !! i = Some (integrate delta h0) /\
      Horseman.position h0 = Horseman.position h.
Proof.
  intros Eh i h Hi.
  destruct (updateHorsemen_integrated _ _ _ _ _ _ Eh) as [Hlen _].
  assert (Hlt : (i < length hs)%nat) by (eapply lookup_lt_Some; exact Hi).
  destruct (lookup_lt_is_Some_2 hs' i ltac:(lia)) as [h' Hi'].
  unfold updateHorsemen in Eh.
  pose proof (visitAll_moved delta wander a hs _ 0 _ _ Eh) as Hm.
  destruct (Hm ltac:(intros; lia)) with (j := i) (h := h') as [h0 [ho [-> [Ho Ep]]]].
  - intros j hj _ Hj.
    destruct (decide (j = a)) as [-> | Hne].
    + rewrite list_lookup_alter_eq in Hj.
      destruct (hs !! a) as [ha |] eqn:Ea; [| discriminate].
      inversion Hj. exists ha. split; [reflexivity | apply steer_position].
    + rewrite list_lookup_alter_ne in Hj by congruence.
      exists hj. split; [exact Hj | reflexivity].
  - rewrite length_alter. simpl. exact Hlt.
  - exact Hi'.
  - exists h0. split; [exact Hi' | congruence].
Qed.

(** C6: every horseman the tick finds is still there after it (the tick
    does produce a state when the controlled index names a horseman),
    and each of his velocity components then has magnitude at most the
    maximum speed 7.4.  The clamp comes before the integration: he has
    moved by a velocity [c] within the limit, from the place he had to
    the place the walls allow, and friction and reflection have left him
    a velocity no larger than [c].  In [integrate] itself [c] is the
    clamped velocity. *)
Theorem agents_within_speed timestamp wander g :
  (Game.activeHorseman g < length (Game.horsemen g))%nat ->
  (exists g',
     step random timestamp wander g = Some g' /\
     length (Game.horsemen g') = length (Game.horsemen g) /\
     forall i h, Game.horsemen g !! i = Some h ->
       exists h' c,
         Game.horsemen g' !! i = Some h' /\
         withinSpeed c /\
         Vec.x (Horseman.position h')
           = clamp (Vec.x (Horseman.position h)
                    + Vec.x c * ((timestamp - Game.lastTime g) / 16))
               40 (CANVAS_WIDTH - 40) /\
         Vec.y (Horseman.position h')
           = clamp (Vec.y (Horseman.position h)
                    + Vec.y c * ((timestamp - Game.lastTime g) / 16))
               50 (CANVAS_HEIGHT - 100) /\
         Qabs (Vec.x (Horseman.velocity h')) <= Qabs (Vec.x c) /\
         Qabs (Vec.y (Horseman.velocity h')) <= Qabs (Vec.y c) /\
         Qabs (Vec.x (Horseman.velocity h')) <= HORSEMAN_MAX_SPEED /\
         Qabs (Vec.y (Horseman.velocity h')) <= HORSEMAN_MAX_SPEED) /\
  (forall delta h,
     let cx := clamp (Vec.x (Horseman.velocity h))
                 (- HORSEMAN_MAX_SPEED) HORSEMAN_MAX_SPEED in
     let cy := clamp (Vec.y (Horseman.velocity h))
                 (- HORSEMAN_MAX_SPEED) HORSEMAN_MAX_SPEED in
     Vec.x (Horseman.position (integrate delta h))
       = clamp (Vec.x (Horseman.position h) + cx * (delta / 16))
           40 (CANVAS_WIDTH - 40) /\
     Vec.y (Horseman.position (integrate delta h))
       = clamp (Vec.y (Horseman.position h) + cy * (delta / 16))
           50 (CANVAS_HEIGHT - 100) /\
     Qabs (Vec.x (Horseman.velocity (integrate delta h))) <= Qabs cx /\
     Qabs (Vec.y (Horseman.velocity (integrate delta h))) <= Qabs cy /\
     Qabs cx <= HORSEMAN_MAX_SPEED /\ Qabs cy <= HORSEMAN_MAX_SPEED).
Proof.
  intros Hlt. split.
  - destruct (step_horsemen random timestamp wander g Hlt)
      as [g' [hs [Es [Eh [Hlen [_ Eg]]]]]].
    set (delta := timestamp - Game.lastTime g) in *.
    exists g'. split; [exact Es |]. rewrite Eg.
    split; [rewrite pickup_length; exact Hlen |].
    intros i h Hi.
    destruct (updateHorsemen_moved _ _ _ _ _ _ Eh i h Hi) as [h0 [Hi0 Ep0]].
    destruct (pickup_horsemen hs (map (orbMotion delta) (Game.orbs g)) 0%nat)
      as [Ep [Ev _]].
    assert (Hh' : exists h', fst (pickup hs (map (orbMotion delta) (Game.orbs g))) !! i
                              = Some h' /\
                    Horseman.position h' = Horseman.position (integrate delta h0) /\
                    Horseman.velocity h' = Horseman.velocity (integrate delta h0)).
    { apply (f_equal (fun l => l !! i)) in Ep. apply (f_equal (fun l => l !! i)) in Ev.
      rewrite !list_lookup_fmap, Hi0 in Ep, Ev.
      destruct (fst (pickup hs _) !! i) as [h' |]; [| discriminate].
      exists h'. simpl in Ep, Ev. split; [reflexivity |]. split; congruence. }
    destruct Hh' as [h' [Hl [Ep' Ev']]].
    destruct (integrate_moves delta h0) as [Mx My].
    destruct (integrate_shrinks delta h0) as [Sx [Sy [Cx Cy]]].
    destruct (integrate_velocity delta h0) as [Vx Vy].
    exists h'.
    exists (Vec.mk (clamp (Vec.x (Horseman.velocity h0))
                      (- HORSEMAN_MAX_SPEED) HORSEMAN_MAX_SPEED)
                   (clamp (Vec.y (Horseman.velocity h0))
                      (- HORSEMAN_MAX_SPEED) HORSEMAN_MAX_SPEED)).
    rewrite Ep', Ev', <- Ep0. cbn [Vec.x Vec.y].
    split; [exact Hl |]. split; [split; assumption |].
    split; [exact Mx |]. split; [exact My |].
    split; [exact Sx |]. split; [exact Sy |]. split; assumption.
  - intros delta h cx cy.
    destruct (integrate_moves delta h) as [Mx My].
    destruct (integrate_shrinks delta h) as [Sx [Sy [Cx Cy]]].
    split; [exact Mx |]. split; [exact My |].
    split; [exact Sx |]. split; [exact Sy |]. split; assumption.
Qed.

(** ** The draws of a sweep *)

Lemma updateClouds_cursor delta : forall cs c canvas,
  (c <= snd (fst (updateClouds random delta c cs canvas)))%nat.
Proof.
  induction cs as [| cloud rest IH]; intros c canvas; simpl; [lia |].
  pose proof (cloudMotion_cursor random delta c cloud) as [Hc _].
  destruct (cloudMotion random delta c cloud) as [cloud1 c1].
  specialize (IH c1 (canvas ++ [drawCloud cloud1])).
  destruct (updateClouds random delta c1 rest (canvas ++ [drawCloud cloud1]))
    as [[rest2 c2] canvas2].
  cbn [fst snd] in *. destruct (wraps delta cloud); lia.
Qed.

Lemma sentinels_cons orb rest :
  length (filter (fun o => isSentinel o = true) (orb :: rest))
    = ((if isSentinel orb then 1 else 0)
       + length (filter (fun o => isSentinel o = true) rest))%nat.
Proof.
  rewrite filter_cons. destruct (isSentinel orb) eqn:E.
  - destruct (decide (true = true)) as [_ | Hd]; [reflexivity | congruence].
  - destruct (decide (false = true)) as [Hd | _]; [discriminate Hd | reflexivity].
Qed.

(** A parked orb counts among the parked ones of the whole list, after
    those before it. *)
Lemma sentinelsBefore_lt orbs j o :
  orbs !! j = Some o -> isSentinel o = true ->
  (sentinelsBefore j orbs < length (filter (fun o => isSentinel o = true) orbs))%nat.
Proof.
  intros Hj Hs. unfold sentinelsBefore.
  rewrite <- (take_drop_middle orbs j o Hj) at 2.
  rewrite filter_app, length_app, sentinels_cons, Hs. lia.
Qed.

Lemma sentinelsBefore_mono orbs a b o :
  (a < b)%nat -> orbs !! a = Some o -> isSentinel o = true ->
  (sentinelsBefore a orbs < sentinelsBefore b orbs)%nat.
Proof.
  intros Hab Ha Hs.
  assert (Ht : take b orbs !! a = Some o) by (rewrite lookup_take_lt by exact Hab; exact Ha).
  pose proof (sentinelsBefore_lt (take b orbs) a o Ht Hs) as H.
  unfold sentinelsBefore in *. rewrite take_take in H.
  replace (a `min` b)%nat with a in H by lia. exact H.
Qed.

Lemma respawnAll_cursor orbs : forall c,
  snd (respawnAll random c orbs)
    = (c + 4 * length (filter (fun o => isSentinel o = true) orbs))%nat.
Proof.
  induction orbs as [| orb rest IH]; intros c.
  - simpl. lia.
  - rewrite sentinels_cons. cbn [respawnAll]. unfold respawnOrb.
    destruct (isSentinel orb).
    + specialize (IH (c + 4)%nat).
      destruct (respawnAll random (c + 4) rest) as [rest2 c2]. cbn [snd] in *. lia.
    + specialize (IH c).
      destruct (respawnAll random c rest) as [rest2 c2]. cbn [snd] in *. lia.
Qed.

(** The sweep gives a parked orb the four draws that follow those of the
    parked orbs before it. *)
Lemma respawnAll_at orbs : forall c j o,
  orbs !! j = Some o -> isSentinel o = true ->
  exists o',
    fst (respawnAll random c orbs) !! j = Some o' /\
    spawnedAt random (c + 4 * sentinelsBefore j orbs) o'.
Proof.
  induction orbs as [| orb rest IH]; intros c j o Hj Hs; [discriminate Hj |].
  cbn [respawnAll]. destruct j as [| j].
  - inversion Hj. subst orb. unfold respawnOrb. rewrite Hs.
    destruct (respawnAll random (c + 4) rest) as [rest2 c2]. cbn [fst].
    eexists. split; [reflexivity |].
    unfold sentinelsBefore. cbn [take]. rewrite filter_nil. cbn [length].
    replace (c + 4 * 0)%nat with c by lia.
    split; reflexivity.
  - cbn [lookup list_lookup] in Hj.
    unfold sentinelsBefore. cbn [take]. rewrite sentinels_cons.
    unfold respawnOrb. destruct (isSentinel orb).
    + destruct (IH (c + 4)%nat j o Hj Hs) as [o' [Hl Hsp]].
      destruct (respawnAll random (c + 4) rest) as [rest2 c2]. cbn [fst] in *.
      exists o'. split; [exact Hl |].
      unfold sentinelsBefore in Hsp.
      replace (c + 4 * (1 + length (filter (fun o0 => isSentinel o0 = true) (take j rest))))%nat
        with (c + 4 + 4 * length (filter (fun o0 => isSentinel o0 = true) (take j rest)))%nat
        by lia.
      exact Hsp.
    + destruct (IH c j o Hj Hs) as [o' [Hl Hsp]].
      destruct (respawnAll random c rest) as [rest2 c2]. cbn [fst] in *.
      exists o'. split; [exact Hl |]. exact Hsp.
Qed.

(** The orbs and the random cursor after a frame that sweeps: the sweep
    starts at the cursor the cloud pass of the same frame has left. *)
Lemma step_sweep_draws timestamp wander g g' :
  step random timestamp wander g = Some g' ->
  sweeps (Frame timestamp wander) g = true ->
  exists hs c,
    (Game.cursor g <= c)%nat /\
    Game.orbs g' =
      fst (respawnAll random c
             (snd (pickup hs (map (orbMotion (timestamp - Game.lastTime g))
                                (Game.orbs g))))) /\
    Game.cursor g' =
      snd (respawnAll random c
             (snd (pickup hs (map (orbMotion (timestamp - Game.lastTime g))
                                (Game.orbs g))))).
Proof.
  rewrite step_unfold. cbv zeta. intros Es Hq. cbn [sweeps] in Hq.
  destruct (updateHorsemen _ _ _ _ _) as [hs |]; [| discriminate].
  rewrite updateOrbs_sweep in Es by exact Hq.
  inversion Es. unfold afterTick. cbn [Game.orbs Game.cursor fst snd].
  exists hs. eexists. split; [| split; reflexivity].
  apply updateClouds_cursor.
Qed.

(** C3: respawn is batched.  Two orbs parked at different moments of a
    run without sweep are both still parked when the frame arrives whose
    accumulated timer exceeds 12000 ms.  That frame gives each of them a
    new position and velocity: four numbers of the random stream that
    nothing has drawn before and no other orb gets, scaled into
    [80, 880) x [80, 400) and [-0.5, 0.5) x [-0.4, 0.4).  It leaves no
    orb at the sentinel and resets the timer to 0. *)
Theorem respawn_batched events1 events2 timestamp wander g g1 g2 g3 a b orbA orbB :
  run random events1 g = Some g1 -> quiet random events1 g ->
  run random events2 g1 = Some g2 -> quiet random events2 g1 ->
  Game.orbTimer g2 + (timestamp - Game.lastTime g2) > ORB_RESPAWN_TIME ->
  step random timestamp wander g2 = Some g3 ->
  Game.orbs g !! a = Some orbA -> parked orbA ->
  Game.orbs g1 !! b = Some orbB -> parked orbB ->
  (exists oa ob, Game.orbs g2 !! a = Some oa /\ Game.orbs g2 !! b = Some ob /\
     parked oa /\ parked ob) /\
  (exists oa ob ka kb,
     Game.orbs g3 !! a = Some oa /\ Game.orbs g3 !! b = Some ob /\
     respawned oa /\ respawned ob /\
     spawnedAt random ka oa /\ spawnedAt random kb ob /\
     (Game.cursor g2 <= ka)%nat /\ (ka + 4 <= Game.cursor g3)%nat /\
     (Game.cursor g2 <= kb)%nat /\ (kb + 4 <= Game.cursor g3)%nat /\
     ((a < b)%nat -> (ka + 4 <= kb)%nat) /\
     ((b < a)%nat -> (kb + 4 <= ka)%nat)) /\
  Forall (fun o => isSentinel o = false) (Game.orbs g3) /\
  Game.orbTimer g3 = 0.
Proof.
  intros Hr1 Hq1 Hr2 Hq2 Hgt Hs Ha Hpa Hb Hpb.
  destruct (sweep_after_quiet_runs random random_unit events1 events2 timestamp wander
              g g1 g2 g3 a b orbA orbB Hr1 Hq1 Hr2 Hq2 Hgt Hs Ha Hpa Hb Hpb)
    as [Hparked [Hresp [Hall Ht]]].
  split; [exact Hparked |]. split; [| split; assumption].
  destruct Hparked as [oa2 [ob2 [Ha2 [Hb2 [Hpa2 Hpb2]]]]].
  destruct Hresp as [oa3 [ob3 [Ha3 [Hb3 [Hra Hrb]]]]].
  assert (Hsw : sweeps (Frame timestamp wander) g2 = true).
  { cbn [sweeps]. apply Qgtb_gt. exact Hgt. }
  destruct (step_sweep_draws _ _ _ _ Hs Hsw) as [hs [c [Hc [Eo Ec]]]].
  set (delta := timestamp - Game.lastTime g2) in *.
  set (orbs2 := snd (pickup hs (map (orbMotion delta) (Game.orbs g2)))) in *.
  assert (Hstill : forall j o, Game.orbs g2 !! j = Some o -> parked o ->
            exists o2, orbs2 !! j = Some o2 /\ isSentinel o2 = true).
  { intros j o Hj Hp.
    assert (H1 : map (orbMotion delta) (Game.orbs g2) !! j = Some (orbMotion delta o)).
    { rewrite list_lookup_fmap, Hj. reflexivity. }
    destruct (Forall2_lookup_l _ _ _ _ _ (pickup_orbs hs _) H1) as [o2 [Ho2 Hk]].
    exists o2. split; [exact Ho2 |].
    apply parked_isSentinel. eapply keptOrParked_parked; [exact Hk |].
    apply orbMotion_parked. exact Hp. }
  destruct (Hstill a oa2 Ha2 Hpa2) as [oa' [Ha' Hsa]].
  destruct (Hstill b ob2 Hb2 Hpb2) as [ob' [Hb' Hsb]].
  destruct (respawnAll_at orbs2 c a oa' Ha' Hsa) as [oa4 [Ha4 Hspa]].
  destruct (respawnAll_at orbs2 c b ob' Hb' Hsb) as [ob4 [Hb4 Hspb]].
  rewrite <- Eo in Ha4, Hb4.
  assert (oa4 = oa3) by congruence. assert (ob4 = ob3) by congruence. subst oa4 ob4.
  pose proof (sentinelsBefore_lt orbs2 a oa' Ha' Hsa) as La.
  pose proof (sentinelsBefore_lt orbs2 b ob' Hb' Hsb) as Lb.
  pose proof (respawnAll_cursor orbs2 c) as Ecur. rewrite <- Ec in Ecur.
  exists oa3, ob3, (c + 4 * sentinelsBefore a orbs2)%nat,
    (c + 4 * sentinelsBefore b orbs2)%nat.
  split; [exact Ha3 |]. split; [exact Hb3 |].
  split; [exact Hra |]. split; [exact Hrb |].
  split; [exact Hspa |]. split; [exact Hspb |].
  split; [lia |]. split; [lia |]. split; [lia |]. split; [lia |].
  split.
  - intros Hab. pose proof (sentinelsBefore_mono orbs2 a b oa' Hab Ha' Hsa). lia.
  - intros Hba. pose proof (sentinelsBefore_mono orbs2 b a ob' Hba Hb' Hsb). lia.
Qed.

(** ** Sky and clouds come before the updates, and the keys are read once *)















End TickFacts.

(** ** The respawn timer across a switch *)

(** C5: on the code the claim fails.  In the sample game after its first frame the
    respawn timer stands at 16 and the previous-frame timestamp at 1016;
    the key "2", pressed at 1020, selects horseman 1 and with that sets
    the timer back to 0 and the timestamp to 1020.  A frame at 13020
    would have swept; after the key press it does not. *)
Theorem switch_resets_respawn_timer :
  exists g',
    handleKeyDown 1020 "2" afterFirstFrame = Some g' /\
    Game.activeHorseman afterFirstFrame = 0%nat /\ Game.activeHorseman g' = 1%nat /\
    Game.orbTimer afterFirstFrame == 16 /\ Game.orbTimer g' == 0 /\
    Game.lastTime afterFirstFrame == 1016 /\ Game.lastTime g' == 1020 /\
    sweeps (Frame 13020 sampleWander) afterFirstFrame = true /\
    sweeps (Frame 13020 sampleWander) g' = false.
Proof.
  destruct (handleKeyDown 1020 "2" afterFirstFrame) as [g' |] eqn:E;
    [| vm_compute in E; discriminate E].
  exists g'. split; [reflexivity |].
  vm_compute in E. injection E as <-.
  split; [vm_compute; reflexivity |]. split; [reflexivity |].
  split; [vm_compute; reflexivity |]. split; [vm_compute; reflexivity |].
  split; [vm_compute; reflexivity |]. split; [vm_compute; reflexivity |].
  split; [vm_compute; reflexivity |]. vm_compute; reflexivity.
Qed.


(** ** The statements at the sample inputs *)

Lemma sampleRandom_unit : forall n, 0 <= sampleRandom n < 1.
Proof.
  intros n. unfold sampleRandom.
  pose proof (Nat.mod_upper_bound (n * 37 + 11) 100) as Hm.
  set (m := ((n * 37 + 11) mod 100)%nat) in *.
  assert (Hz : (0 <= Z.of_nat m < 100)%Z) by lia.
  unfold Qdiv, Qle, Qlt. simpl. lia.
Defined.

Lemma agents_stay_in_playfield_witness :
  (Game.activeHorseman sampleMount < length (Game.horsemen sampleMount))%nat /\
  exists g',
    step sampleRandom 1016 sampleWander sampleMount = Some g' /\
    length (Game.horsemen g') = length (Game.horsemen sampleMount) /\
    forall i h, Game.horsemen g' !! i = Some h ->
      (40 <= Vec.x (Horseman.position h) <= CANVAS_WIDTH - 40) /\
      (50 <= Vec.y (Horseman.position h) <= CANVAS_HEIGHT - 100).
Proof.
  assert (H : (Game.activeHorseman sampleMount < length (Game.horsemen sampleMount))%nat)
    by (vm_compute; lia).
  split; [exact H |].
  exact (agents_stay_in_playfield sampleRandom 1016 sampleWander sampleMount H).
Defined.

Lemma one_collector_per_orb_witness :
  (Game.activeHorseman pickupGame < length (Game.horsemen pickupGame))%nat /\
  exists g',
    step sampleRandom 1016 sampleWander pickupGame = Some g' /\
    (forall j, (collectionsOf j (tickEvents 1016 sampleWander pickupGame) <= 1)%nat) /\
    (forall j orb, Game.orbs pickupGame !! j = Some orb -> parked orb ->
       collectionsOf j (tickEvents 1016 sampleWander pickupGame) = 0%nat) /\
    totalScore (Game.horsemen g')
      = (totalScore (Game.horsemen pickupGame)
         + length (tickEvents 1016 sampleWander pickupGame))%nat.
Proof.
  assert (H : (Game.activeHorseman pickupGame < length (Game.horsemen pickupGame))%nat)
    by (vm_compute; lia).
  split; [exact H |].
  exact (one_collector_per_orb sampleRandom 1016 sampleWander pickupGame H).
Defined.

Lemma steering_right_until_wall_witness :
  Horseman.position scenarioStart = Vec.mk 500 280 /\
  Horseman.velocity scenarioStart = Vec.mk 0 0 /\
  px (scenarioAfter 75 scenarioStart) == CANVAS_WIDTH - 40 /\
  vx (scenarioAfter 75 scenarioStart) < 0.
Proof.
  split; [reflexivity |]. split; [reflexivity |].
  exact (proj2 (proj2 (proj2 (proj2
           (steering_right_until_wall scenarioStart eq_refl eq_refl))))).
Defined.

Lemma collected_orb_stays_parked_witness :
  quiet sampleRandom (Frame 1016 sampleWander :: laterEvents) pickupGame /\
  collectedIn (Frame 1016 sampleWander) pickupGame 0 /\
  exists g' orb',
    run sampleRandom (Frame 1016 sampleWander :: laterEvents) pickupGame = Some g' /\
    Game.orbs g' !! 0%nat = Some orb' /\
    isSentinel orb' = true /\ drawOrb orb' = [].
Proof.
  assert (Hq : quiet sampleRandom (Frame 1016 sampleWander :: laterEvents) pickupGame).
  { vm_compute. repeat split. }
  assert (Hc : collectedIn (Frame 1016 sampleWander) pickupGame 0).
  { vm_compute. apply le_n. }
  split; [exact Hq |]. split; [exact Hc |].
  destruct (run sampleRandom (Frame 1016 sampleWander :: laterEvents) pickupGame)
    as [g' |] eqn:E; [| vm_compute in E; discriminate E].
  destruct (collected_orb_stays_parked sampleRandom (Frame 1016 sampleWander)
              laterEvents pickupGame g' 0 E Hq Hc)
    as [orb' [Ho [_ [_ [_ [_ [Hs Hd]]]]]]].
  exists g', orb'. repeat split; assumption.
Defined.


(** ** The further statements at sample inputs *)

Lemma tinyGame_steerable :
  (Game.activeHorseman tinyGame < length (Game.horsemen tinyGame))%nat.
Proof. simpl. lia. Defined.

Lemma randomRange_in_range_witness :
  0 <= 0.5 < 1 /\ 80 <= 880 /\ 80 <= randomRange 0.5 80 880 <= 880.
Proof.
  assert (H1 : 0 <= 0.5 < 1) by lra.
  assert (H2 : 80 <= 880) by lra.
  split; [exact H1 |]. split; [exact H2 |].
  exact (proj1 (randomRange_in_range 0.5 80 880 H1 H2)).
Defined.

Lemma mount_is_well_formed_witness :
  (forall n, 0 <= sampleRandom n < 1) /\
  length (Game.horsemen sampleMount) = 4%nat /\
  Forall freshOrb (Game.orbs sampleMount).
Proof.
  split; [exact sampleRandom_unit |].
  destruct (mount_is_well_formed sampleRandom sampleRandom_unit 1000)
    as [H1 [_ [_ [_ [_ [_ [_ [H2 _]]]]]]]].
  split; [exact H1 | exact H2].
Defined.

Lemma plain_runs_never_throw_witness :
  Forall plainEvent
    [KeyDown 1005 "3"; Frame 1016 sampleWander; KeyDown 1020 "ArrowUp"; KeyUp "3"] /\
  exists g',
    run sampleRandom
      [KeyDown 1005 "3"; Frame 1016 sampleWander; KeyDown 1020 "ArrowUp"; KeyUp "3"]
      sampleMount = Some g' /\
    (Game.activeHorseman g' < length (Game.horsemen g'))%nat.
Proof.
  assert (Hp : Forall plainEvent
            [KeyDown 1005 "3"; Frame 1016 sampleWander; KeyDown 1020 "ArrowUp"; KeyUp "3"]).
  { constructor; [left; simpl; lia |]. constructor; [exact I |].
    constructor; [right; reflexivity |]. constructor; [exact I | constructor]. }
  split; [exact Hp |].
  assert (H4 : (4 <= length (Game.horsemen sampleMount))%nat) by (simpl; lia).
  assert (Hlt : (Game.activeHorseman sampleMount < length (Game.horsemen sampleMount))%nat)
    by (simpl; lia).
  destruct (plain_runs_never_throw sampleRandom sampleRandom_unit _ sampleMount H4 Hlt Hp)
    as [g' [Hr [_ [_ [_ Ha]]]]].
  exists g'. split; [exact Hr | exact Ha].
Defined.

Lemma free_horsemen_chase_in_visit_order_witness :
  exists h1 h0 hs',
    Game.horsemen tinyGame !! 1%nat = Some h1 /\
    Game.horsemen tinyGame !! 0%nat = Some h0 /\
    updateHorsemen ∅ 1 sampleWander 16 (Game.horsemen tinyGame) = Some hs' /\
    hs' !! 0%nat =
      Some (integrate 16 (flock (Horseman.position h1) (sampleWander 0%nat) h0)).
Proof.
  destruct (updateHorsemen_total ∅ 1 sampleWander 16 (Game.horsemen tinyGame)
              tinyGame_steerable) as [hs' E].
  eexists. eexists. exists hs'.
  split; [reflexivity |]. split; [reflexivity |]. split; [exact E |].
  exact (free_horsemen_chase_in_visit_order ∅ 1 sampleWander 16
           (Game.horsemen tinyGame) hs' _ 0 _ eq_refl eq_refl ltac:(discriminate) E).
Defined.

Lemma tinyGame_tilts : Forall tiltOK (Game.horsemen tinyGame).
Proof.
  apply List.Forall_cons; [| apply List.Forall_cons; [| apply List.Forall_nil]];
    unfold tiltOK; simpl; split; split; lra.
Defined.

Lemma tilt_stays_within_limit_witness :
  Forall tiltOK (Game.horsemen tinyGame) /\
  exists g',
    step sampleRandom 1016 sampleWander tinyGame = Some g' /\
    Forall tiltOK (Game.horsemen g').
Proof.
  split; [exact tinyGame_tilts |].
  exact (tilt_stays_within_limit sampleRandom 1016 sampleWander tinyGame
           tinyGame_tilts tinyGame_steerable).
Defined.

Lemma tinyGame_frame :
  exists g', step sampleRandom 1016 sampleWander tinyGame = Some g'.
Proof.
  destruct (step_horsemen sampleRandom 1016 sampleWander tinyGame tinyGame_steerable)
    as [g' [hs [Es _]]].
  exists g'. exact Es.
Defined.

Lemma riders_keep_identity_and_never_lose_score_witness :
  exists g' h h',
    run sampleRandom [Frame 1016 sampleWander; KeyUp "a"] tinyGame = Some g' /\
    Game.horsemen tinyGame !! 1%nat = Some h /\
    Game.horsemen g' !! 1%nat = Some h' /\
    grownFrom h h'.
Proof.
  destruct tinyGame_frame as [g1 Es].
  assert (Hr : run sampleRandom [Frame 1016 sampleWander; KeyUp "a"] tinyGame
               = Some (handleKeyUp "a" g1)).
  { cbn [run react]. rewrite Es. reflexivity. }
  destruct (riders_keep_identity_and_never_lose_score sampleRandom _ tinyGame _ 1 _
              Hr eq_refl) as [h' [Hh' Hg]].
  eexists. eexists. exists h'.
  split; [exact Hr |]. split; [reflexivity |]. split; [exact Hh' | exact Hg].
Defined.



Lemma no_orb_left_within_reach_witness :
  Game.orbTimer tinyGame + (1016 - Game.lastTime tinyGame) <= ORB_RESPAWN_TIME /\
  exists g',
    step sampleRandom 1016 sampleWander tinyGame = Some g' /\
    forall i h j o,
      Game.horsemen g' !! i = Some h -> Game.orbs g' !! j = Some o ->
      near h o = false.
Proof.
  assert (Hq : Game.orbTimer tinyGame + (1016 - Game.lastTime tinyGame)
               <= ORB_RESPAWN_TIME).
  { unfold Qle. simpl. lia. }
  split; [exact Hq |].
  exact (no_orb_left_within_reach sampleRandom 1016 sampleWander tinyGame
           tinyGame_steerable Hq).
Defined.

Lemma frame_keeps_timer_below_threshold_witness :
  exists g',
    step sampleRandom 14000 sampleWander tinyGame = Some g' /\
    Game.orbTimer g' <= ORB_RESPAWN_TIME /\
    Game.lastTime g' = 14000.
Proof.
  destruct (frame_keeps_timer_below_threshold sampleRandom 14000 sampleWander tinyGame
              tinyGame_steerable) as [g' [Es [Hle [_ [Hl _]]]]].
  exists g'. split; [exact Es |]. split; [exact Hle | exact Hl].
Defined.

Lemma key_down_then_up_witness :
  exists g1,
    handleKeyDown 1005 "Shift" tinyGame = Some g1 /\
    held (Game.pressedKeys g1) "shift" = true /\
    held (Game.pressedKeys (handleKeyUp "Shift" g1)) "shift" = false.
Proof.
  eexists. split; [reflexivity |].
  destruct (key_down_then_up 1005 "Shift" tinyGame _ eq_refl) as [H1 [H2 _]].
  split; [exact H1 | exact H2].
Defined.

Lemma frames_accumulate_elapsed_witness :
  Forall isFrame [Frame 1016 sampleWander] /\
  exists g',
    run sampleRandom [Frame 1016 sampleWander] tinyGame = Some g' /\
    Game.elapsed g' - Game.elapsed tinyGame
      == Game.lastTime g' - Game.lastTime tinyGame.
Proof.
  assert (Hf : Forall isFrame [Frame 1016 sampleWander]).
  { constructor; [exact I | constructor]. }
  split; [exact Hf |].
  destruct tinyGame_frame as [g1 Es].
  assert (Hr : run sampleRandom [Frame 1016 sampleWander] tinyGame = Some g1).
  { cbn [run react]. rewrite Es. reflexivity. }
  exists g1. split; [exact Hr |].
  exact (proj1 (frames_accumulate_elapsed sampleRandom _ tinyGame g1 Hf Hr)).
Defined.

Lemma control_keys_reach_the_physics_witness :
  In "Shift"%string controlKeys /\
  exists g1,
    handleKeyDown 1005 "Shift" tinyGame = Some g1 /\
    boostOf (Game.pressedKeys g1) = 1.4.
Proof.
  assert (Hin : In "Shift"%string controlKeys).
  { unfold controlKeys. simpl. tauto. }
  split; [exact Hin |].
  destruct (control_keys_reach_the_physics 1005 "Shift" tinyGame Hin)
    as [g1 [E [_ [_ [_ [_ [_ [_ [_ [_ [_ Hb]]]]]]]]]]].
  exists g1. split; [exact E |]. apply Hb. right. reflexivity.
Defined.

Lemma clouds_drift_and_wrap_witness :
  (forall n, 0 <= sampleRandom n < 1) /\
  Forall2 (driftedFrom 16) (Game.clouds tinyGame)
    (fst (fst (updateClouds sampleRandom 16 0 (Game.clouds tinyGame) []))) /\
  snd (fst (updateClouds sampleRandom 16 0 (Game.clouds tinyGame) []))
    = (0 + length (filter (fun cloud => wraps 16 cloud = true)
                     (Game.clouds tinyGame)))%nat.
Proof.
  split; [exact sampleRandom_unit |].
  destruct (clouds_drift_and_wrap sampleRandom sampleRandom_unit 16
              (Game.clouds tinyGame) 0 []) as [H1 [H2 _]].
  split; [exact H1 | exact H2].
Defined.

Lemma sprite_scale_is_capped_and_ring_marks_the_controlled_witness :
  exists cmd,
    drawHorsemen 1 (Game.horsemen tinyGame) !! 1%nat = Some cmd /\
    spriteRing cmd = Some true.
Proof.
  eexists. split; [reflexivity |].
  destruct (sprite_scale_is_capped_and_ring_marks_the_controlled
              1 (Game.horsemen tinyGame) 1 _ eq_refl) as [h [s [_ [_ [_ [_ Hr]]]]]].
  exact Hr.
Defined.

Lemma frame_paints_each_entity_once_witness :
  (Game.activeHorseman tinyGame < length (Game.horsemen tinyGame))%nat /\
  exists g' discs sprites glows panels,
    step sampleRandom 1016 sampleWander tinyGame = Some g' /\
    Game.canvas g'
      = Backdrop (Game.seenElapsed g')
          :: discs ++ sprites ++ glows ++ Hint :: panels /\
    eachShown (fun _ => showsOrb)
      (filter (fun o => isSentinel o = false) (Game.orbs g')) glows.
Proof.
  split; [exact tinyGame_steerable |].
  destruct (frame_paints_each_entity_once sampleRandom 1016 sampleWander tinyGame
              tinyGame_steerable)
    as [g' [discs [sprites [glows [panels [Es [Ec [_ [_ [Hg _]]]]]]]]]].
  exists g', discs, sprites, glows, panels.
  split; [exact Es |]. split; [exact Ec | exact Hg].
Defined.

Lemma selected_rider_is_steered_on_the_next_frame_witness :
  exists g1 g2 h s,
    handleKeyDown 1005 "1" tinyGame = Some g1 /\
    Game.horsemen tinyGame !! 0%nat = Some h /\
    step sampleRandom 1016 sampleWander g1 = Some g2 /\
    Game.horsemen g2 !! 0%nat =
      Some (setScore (controlledTick (Game.pressedKeys g1) (1016 - 1005) h) s).
Proof.
  assert (Hd : exists g1, handleKeyDown 1005 "1" tinyGame = Some g1 /\
                 (Game.activeHorseman g1 < length (Game.horsemen g1))%nat /\
                 Game.lastTime g1 = 1005).
  { eexists. split; [reflexivity |]. split; [simpl; lia | reflexivity]. }
  destruct Hd as [g1 [Ed [Hlt Hl]]].
  destruct (step_horsemen sampleRandom 1016 sampleWander g1 Hlt) as [g2 [hs [Es _]]].
  destruct (selected_rider_is_steered_on_the_next_frame sampleRandom
              1005 "1" 1 tinyGame g1 1016 sampleWander g2 _
              eq_refl eq_refl eq_refl Ed Es) as [s [Hs _]].
  exists g1, g2. eexists. exists s.
  split; [exact Ed |]. split; [reflexivity |]. split; [exact Es |].
  rewrite Hl in Hs. exact Hs.
Defined.

Lemma tinyGame_in_playfield :
  Forall (fun h => inPlayfield (Horseman.position h)) (Game.horsemen tinyGame).
Proof.
  apply List.Forall_cons; [| apply List.Forall_cons; [| apply List.Forall_nil]];
    unfold inPlayfield; simpl; split; split; lra.
Defined.

Lemma first_horseman_in_reach_collects_witness :
  exists h o,
    Game.horsemen tinyGame !! 0%nat = Some h /\
    Game.orbs tinyGame !! 0%nat = Some o /\
    near h o = true /\
    (0%nat, 0%nat) ∈ pickupEvents 0 (Game.horsemen tinyGame) (Game.orbs tinyGame).
Proof.
  eexists. eexists.
  split; [reflexivity |]. split; [reflexivity |].
  assert (Hn : near (Horseman.mk 0 "Aurora" "#ff8c69" "rgba(255,160,122,0.65)" "#ffd8a8"
                       (Vec.mk 300 220) (Vec.mk 0.5 (-0.25)) 0 0 0)
                    (Orb.mk 0 (Vec.mk 310 225) (Vec.mk 0.25 (-0.125)) 0.75 1) = true)
    by (vm_compute; reflexivity).
  split; [exact Hn |].
  exact (proj1 (first_horseman_in_reach_collects
                  (Game.horsemen tinyGame) (Game.orbs tinyGame) 0 0 _ _
                  tinyGame_in_playfield eq_refl eq_refl Hn
                  (fun i' h' Hlt _ => match Nat.nlt_0_r i' Hlt with end))).
Defined.

Lemma tinyGame_in_bounds : Forall inBounds (Game.horsemen tinyGame).
Proof.
  assert (H : forall h,
            inPlayfield (Horseman.position h) ->
            -1 <= Vec.x (Horseman.velocity h) <= 1 ->
            -1 <= Vec.y (Horseman.velocity h) <= 1 -> inBounds h).
  { intros h Hp Hx Hy. split; [exact Hp |].
    split; apply (proj2 (Qabs_Qle_condition _ _)); unfold HORSEMAN_MAX_SPEED; lra. }
  apply List.Forall_cons; [| apply List.Forall_cons; [| apply List.Forall_nil]];
    apply H; unfold inPlayfield; simpl; repeat split; lra.
Defined.

Lemma horsemen_stay_in_bounds_over_runs_witness :
  Forall inBounds (Game.horsemen tinyGame) /\
  exists g',
    run sampleRandom [KeyDown 1005 "Shift"; Frame 1016 sampleWander] tinyGame = Some g' /\
    Forall inBounds (Game.horsemen g').
Proof.
  split; [exact tinyGame_in_bounds |].
  assert (Hd : exists g1,
            handleKeyDown 1005 "Shift" tinyGame = Some g1 /\
            (Game.activeHorseman g1 < length (Game.horsemen g1))%nat).
  { eexists. split; [reflexivity | simpl; lia]. }
  destruct Hd as [g1 [Ed Hlt]].
  destruct (step_horsemen sampleRandom 1016 sampleWander g1 Hlt) as [g' [hs [Es _]]].
  assert (Hr : run sampleRandom [KeyDown 1005 "Shift"; Frame 1016 sampleWander] tinyGame
               = Some g').
  { cbn [run react]. rewrite Ed. cbn [run react]. rewrite Es. reflexivity. }
  exists g'. split; [exact Hr |].
  exact (horsemen_stay_in_bounds_over_runs sampleRandom _ tinyGame g'
           tinyGame_in_bounds Hr).
Defined.

Lemma sweep_only_relocates_orbs_at_the_sentinel_witness :
  Game.orbTimer tinyGame + (14000 - Game.lastTime tinyGame) > ORB_RESPAWN_TIME /\
  exists g' o o',
    step sampleRandom 14000 sampleWander tinyGame = Some g' /\
    Game.orbs tinyGame !! 1%nat = Some o /\
    Game.orbs g' !! 1%nat = Some o' /\
    (respawned o' \/ (o' = orbMotion (14000 - Game.lastTime tinyGame) o /\
                      isSentinel o' = false)).
Proof.
  assert (Hgt : Game.orbTimer tinyGame + (14000 - Game.lastTime tinyGame)
                > ORB_RESPAWN_TIME).
  { unfold Qlt. simpl. lia. }
  split; [exact Hgt |].
  destruct (step_horsemen sampleRandom 14000 sampleWander tinyGame tinyGame_steerable)
    as [g' [hs [Es _]]].
  destruct (sweep_only_relocates_orbs_at_the_sentinel sampleRandom sampleRandom_unit
              14000 sampleWander tinyGame g' 1 _ Hgt Es eq_refl) as [o' [Ho' [_ Hc]]].
  exists g'. eexists. exists o'.
  split; [exact Es |]. split; [reflexivity |]. split; [exact Ho' | exact Hc].
Defined.

Lemma distance_test_is_symmetric_witness :
  0 < 42 /\ distanceLt (Vec.mk 500 300) (Vec.mk 500 300) 42 = true.
Proof.
  assert (H : 0 < 42) by lra.
  split; [exact H |].
  exact (proj2 (distance_test_is_symmetric (Vec.mk 500 300) (Vec.mk 500 300) 42) H).
Defined.

(** ** The claims of the tick at the sample inputs *)

Lemma agents_within_speed_witness :
  (Game.activeHorseman sampleMount < length (Game.horsemen sampleMount))%nat /\
  exists g',
    step sampleRandom 1016 sampleWander sampleMount = Some g' /\
    length (Game.horsemen g') = length (Game.horsemen sampleMount).
Proof.
  assert (H : (Game.activeHorseman sampleMount < length (Game.horsemen sampleMount))%nat)
    by (vm_compute; lia).
  split; [exact H |].
  destruct (proj1 (agents_within_speed sampleRandom 1016 sampleWander sampleMount H))
    as [g' [Es [Hl _]]].
  exists g'. split; [exact Es | exact Hl].
Defined.


Lemma respawn_batched_witness :
  exists g1 g3 oa ka,
    run sampleRandom [Frame 1016 sampleWander] pickupGame = Some g1 /\
    Game.orbTimer g1 + (14000 - Game.lastTime g1) > ORB_RESPAWN_TIME /\
    step sampleRandom 14000 sampleWander g1 = Some g3 /\
    Game.orbs g3 !! 1%nat = Some oa /\
    spawnedAt sampleRandom ka oa /\
    (Game.cursor g1 <= ka)%nat /\
    Forall (fun o => isSentinel o = false) (Game.orbs g3) /\
    Game.orbTimer g3 = 0.
Proof.
  destruct (run sampleRandom [Frame 1016 sampleWander] pickupGame) as [g1 |] eqn:E1;
    [| vm_compute in E1; discriminate E1].
  assert (Hq1 : quiet sampleRandom [Frame 1016 sampleWander] pickupGame).
  { vm_compute. repeat split. }
  assert (Hfacts :
    (Game.orbTimer g1 + (14000 - Game.lastTime g1) > ORB_RESPAWN_TIME) /\
    (exists orbB, Game.orbs g1 !! 0%nat = Some orbB /\ parked orbB) /\
    (Game.activeHorseman g1 < length (Game.horsemen g1))%nat).
  { pose proof E1 as E. vm_compute in E. injection E as <-.
    split; [vm_compute; reflexivity |].
    split; [| vm_compute; lia].
    eexists. split; [reflexivity |]. repeat split; reflexivity. }
  destruct Hfacts as [Hgt [[orbB [Hb Hpb]] Hlt]].
  destruct (step_horsemen sampleRandom 14000 sampleWander g1 Hlt) as [g3 [hs [E3 _]]].
  assert (Ha : exists orbA, Game.orbs pickupGame !! 1%nat = Some orbA /\ parked orbA).
  { eexists. split; [reflexivity |]. repeat split; reflexivity. }
  destruct Ha as [orbA [Ha Hpa]].
  destruct (respawn_batched sampleRandom sampleRandom_unit
              [Frame 1016 sampleWander] [] 14000 sampleWander
              pickupGame g1 g1 g3 1 0 orbA orbB E1 Hq1 eq_refl I Hgt E3 Ha Hpa Hb Hpb)
    as [_ [[oa [ob [ka [kb [Ha3 [_ [_ [_ [Hspa [_ [Hka _]]]]]]]]]]] [Hall Ht]]].
  exists g1, g3, oa, ka.
  split; [reflexivity |]. split; [exact Hgt |]. split; [exact E3 |].
  split; [exact Ha3 |]. split; [exact Hspa |]. split; [exact Hka |].
  split; [exact Hall | exact Ht].
Defined.

